(** * ally: the random-sampling utility [RandomBase] (code/core/Random.hpp, Random.cpp)

    A shallow embedding of the sampler and of its two generator providers.
    [RandomBase<RandomTraits>] is a template over the generator type, and every
    operation only hands the generator to a distribution of the C++ standard
    library.  The embedding follows that shape: the generator type is a
    parameter, the standard library is an interface ([StdRandom]) with laws
    ([StdConforming], [StdSupport]), and the operations of the repository are
    written over that interface, line by line.  The laws of the integer draw
    and of the shuffle are the guarantees of the C++ standard; the real and the
    discrete draw are computed from [std::generate_canonical] the way the
    library computes them, roundings included.  Floating-point values are the
    IEEE 754 values of [SpecFloat]. *)

From Stdlib Require Import String.
From Stdlib Require Import ZArith Zpower List Bool Lia Permutation.
From Stdlib Require Import SpecFloat.
Import ListNotations.

Local Open Scope Z_scope.

(* ================================================================== *)
(** * C++ arithmetic types *)
(* ================================================================== *)

(** ** Integral types

    The integer types [std::uniform_int_distribution] is specified for, with
    their LP64 widths.  A value of type [T] is a [Z] between [int_min T] and
    [int_max T]; conversions wrap. *)

Inductive IntType : Type :=
| Short | Int | Long | LongLong
| UShort | UInt | ULong | ULongLong.

Definition int_bits (T : IntType) : Z :=
  match T with
  | Short | UShort => 16
  | Int | UInt => 32
  | Long | ULong | LongLong | ULongLong => 64
  end.

Definition is_signed (T : IntType) : bool :=
  match T with
  | Short | Int | Long | LongLong => true
  | UShort | UInt | ULong | ULongLong => false
  end.

(** [std::numeric_limits<T>::min()] and [std::numeric_limits<T>::max()]. *)
Definition int_min (T : IntType) : Z :=
  if is_signed T then - 2 ^ (int_bits T - 1) else 0.

Definition int_max (T : IntType) : Z :=
  if is_signed T then 2 ^ (int_bits T - 1) - 1 else 2 ^ int_bits T - 1.

Definition in_range (T : IntType) (v : Z) : Prop := int_min T <= v <= int_max T.

(** [static_cast<T>(v)]: reduction modulo [2 ^ int_bits T] into the range of [T]. *)
Definition static_cast (T : IntType) (v : Z) : Z :=
  let m := 2 ^ int_bits T in
  let r := v mod m in
  if is_signed T then (if r <=? int_max T then r else r - m) else r.

(** [std::size_t] and [std::ptrdiff_t]. *)
Definition size_t : IntType := ULong.
Definition ptrdiff_t : IntType := Long.

(** ** Floating-point types

    [std::is_floating_point<T>] holds for [float], [double] and [long double]
    (binary32, binary64 and the x87 extended format).  A value of type [T] is a
    [spec_float] that is valid in the format of [T]. *)

Inductive FloatType : Type := Float | Double | LongDouble.

Definition prec (T : FloatType) : Z :=
  match T with Float => 24 | Double => 53 | LongDouble => 64 end.

Definition emax (T : FloatType) : Z :=
  match T with Float => 128 | Double => 1024 | LongDouble => 16384 end.

Definition representable (T : FloatType) (x : spec_float) : bool :=
  valid_binary (prec T) (emax T) x.

Definition is_finite (x : spec_float) : bool :=
  match x with
  | S754_zero _ | S754_finite _ _ _ => true
  | S754_infinity _ | S754_nan => false
  end.

(** The constants [0] and [1] converted to [T]. *)
Definition fzero : spec_float := S754_zero false.
Definition fone (T : FloatType) : spec_float := SFone (prec T) (emax T).

(** Arithmetic and comparisons of [T]. *)
Definition fadd (T : FloatType) := SFadd (prec T) (emax T).
Definition fsub (T : FloatType) := SFsub (prec T) (emax T).
Definition fmul (T : FloatType) := SFmul (prec T) (emax T).
Definition fdiv (T : FloatType) := SFdiv (prec T) (emax T).
Definition fsqrt (T : FloatType) := SFsqrt (prec T) (emax T).
Definition flt (x y : spec_float) : bool := SFltb x y.
Definition fle (x y : spec_float) : bool := SFleb x y.

(** [std::numeric_limits<T>::max()]: the largest finite value. *)
Definition numeric_limits_max (T : FloatType) : spec_float :=
  SFmax_float (prec T) (emax T).

(** [std::nextafter(x, y)] in the format of [T]: [y] when the two are equal,
    the neighbour of [x] on the side of [y] otherwise, NaN when unordered. *)
Definition nextafter (T : FloatType) (x y : spec_float) : spec_float :=
  match SFcompare x y with
  | None => S754_nan
  | Some Eq => y
  | Some Lt => SFsucc (prec T) (emax T) x
  | Some Gt => SFpred (prec T) (emax T) x
  end.

(** [std::numeric_limits<T>::min()] and [std::numeric_limits<T>::denorm_min()]:
    the smallest positive normal value and the smallest positive value. *)
Definition numeric_limits_min (T : FloatType) : spec_float :=
  S754_finite false (Z.to_pos (2 ^ (prec T - 1))) (emin (prec T) (emax T)).

Definition denorm_min (T : FloatType) : spec_float :=
  S754_finite false 1 (emin (prec T) (emax T)).

(** The conversion of a [float] to [double], which changes no value. *)
Definition to_double (x : spec_float) : spec_float :=
  match x with
  | S754_finite s m e => binary_round (prec Double) (emax Double) s m e
  | _ => x
  end.

(* ================================================================== *)
(** * The standard library's <random>, as the sampler uses it *)
(* ================================================================== *)

(** The operations of the standard library that [RandomBase] calls on a generator
    of type [G] (the template parameter [RandomTraits::GeneratorType]).  A
    distribution object is built from its parameters and invoked once on the
    generator, which it advances: [G -> result * G].

    - [uniform_int_distribution T a b]: [std::uniform_int_distribution<T> dis(a, b)];
    - [generate_canonical T]: [std::generate_canonical<T, digits>], from which
      the library computes its real and discrete draws;
    - [uniform_real_distribution T a b]: [std::uniform_real_distribution<T> dis(a, b)];
    - [normal_distribution T mean stddev]:
      [std::normal_distribution<T> dis{mean, stddev}];
    - [discrete_distribution ws]: [std::discrete_distribution<size_t>] over the
      [float] weights [ws];
    - [std_shuffle l]: [std::shuffle] over the range holding [l];
    - [seeded s]: the generator constructed from the seed [s]. *)
Class StdRandom (G : Type) : Type := {
  uniform_int_distribution : IntType -> Z -> Z -> G -> Z * G;
  generate_canonical : FloatType -> G -> spec_float * G;
  uniform_real_distribution :
    FloatType -> spec_float -> spec_float -> G -> spec_float * G;
  normal_distribution :
    FloatType -> spec_float -> spec_float -> G -> spec_float * G;
  discrete_distribution : list spec_float -> G -> Z * G;
  std_shuffle : forall A : Type, list A -> G -> list A * G;
  seeded : Z -> G
}.

Arguments std_shuffle {G _ A} _ _.

(** ** How the library computes a real draw

    [std::uniform_real_distribution<T>(a, b)] returns
    [generate_canonical() * (b - a) + a], evaluated in [T]. *)
Definition scale (T : FloatType) (a b c : spec_float) : spec_float :=
  fadd T (fmul T c (fsub T b a)) a.

Definition scaled_draw {G : Type} (canonical : FloatType -> G -> spec_float * G)
    (T : FloatType) (a b : spec_float) (g : G) : spec_float * G :=
  let (c, g') := canonical T g in (scale T a b c, g').

(** ** How the library computes a discrete draw

    [std::discrete_distribution] keeps its weights as [double]s.  With fewer
    than two weights it has no table and always draws 0.  Otherwise it divides
    every weight by their sum, accumulates the quotients into the cumulative
    probabilities, sets the last of them to 1, and draws the position
    [std::lower_bound] finds for a canonical [double] in that table. *)

(** [std::accumulate(first, last, init)]. *)
Definition accumulate (T : FloatType) (init : spec_float) (l : list spec_float)
  : spec_float :=
  fold_left (fadd T) l init.

(** Every element divided by [factor]. *)
Definition normalize (T : FloatType) (l : list spec_float) (factor : spec_float)
  : list spec_float :=
  map (fun x => fdiv T x factor) l.

(** [std::partial_sum]: the first element, then each running sum. *)
Fixpoint partial_sum_from (T : FloatType) (acc : spec_float) (l : list spec_float)
  : list spec_float :=
  match l with
  | [] => []
  | x :: l' => fadd T acc x :: partial_sum_from T (fadd T acc x) l'
  end.

Definition partial_sum (T : FloatType) (l : list spec_float) : list spec_float :=
  match l with
  | [] => []
  | x :: l' => x :: partial_sum_from T x l'
  end.

(** [v[v.size() - 1] = x]. *)
Definition set_last (l : list spec_float) (x : spec_float) : list spec_float :=
  match l with
  | [] => []
  | _ :: _ => removelast l ++ [x]
  end.

(** The sum of the weights, as the library accumulates it. *)
Definition weights_sum (weights : list spec_float) : spec_float :=
  accumulate Double fzero (map to_double weights).

(** The table of cumulative probabilities; empty for fewer than two weights. *)
Definition cumulative_probabilities (weights : list spec_float) : list spec_float :=
  let prob := map to_double weights in
  if (length prob <? 2)%nat then []
  else set_last (partial_sum Double (normalize Double prob (weights_sum weights)))
         (fone Double).

(** [std::lower_bound(first, last, val)]: the search halves the range [len]
    that starts at [first]; [fuel] bounds the number of halvings. *)
Fixpoint lower_bound_loop (fuel : nat) (cp : list spec_float) (val : spec_float)
    (first len : nat) : nat :=
  match fuel with
  | O => first
  | S fuel' =>
      if (0 <? len)%nat then
        let half := Nat.div2 len in
        let middle := (first + half)%nat in
        if flt (nth middle cp S754_nan) val
        then lower_bound_loop fuel' cp val (S middle) (len - half - 1)
        else lower_bound_loop fuel' cp val first half
      else first
  end.

Definition lower_bound (cp : list spec_float) (val : spec_float) : nat :=
  lower_bound_loop (length cp) cp val 0 (length cp).

Definition lower_bound_draw {G : Type}
    (canonical : FloatType -> G -> spec_float * G)
    (weights : list spec_float) (g : G) : Z * G :=
  match cumulative_probabilities weights with
  | [] => (0, g)
  | cp => let (p, g') := canonical Double g in (Z.of_nat (lower_bound cp p), g')
  end.

(** What holds of each result.  For the integer draw and the shuffle, what the
    C++ standard guarantees ([rand.dist.uni.int], [alg.random.shuffle]): an
    integer draw lies in the closed range [[a, b]], and a shuffle permutes the
    range.  For the real and the discrete draw, how the library computes them:
    - [generate_canonical] returns a value of [T] that is at least 0 and
      below 1;
    - a real draw is that value scaled into the range, with the roundings of
      [T];
    - a discrete draw is the position of a canonical [double] in the table of
      cumulative probabilities. *)
Class StdConforming (G : Type) `{StdRandom G} : Prop := {
  uniform_int_range : forall T a b g,
    in_range T a -> in_range T b -> a <= b ->
    a <= fst (uniform_int_distribution T a b g) <= b;
  canonical_range : forall T g,
    representable T (fst (generate_canonical T g)) = true /\
    fle fzero (fst (generate_canonical T g)) = true /\
    flt (fst (generate_canonical T g)) (fone T) = true;
  uniform_real_scaling : forall T a b g,
    uniform_real_distribution T a b g = scaled_draw generate_canonical T a b g;
  discrete_lower_bound : forall weights g,
    discrete_distribution weights g =
      lower_bound_draw generate_canonical weights g;
  shuffle_permutation : forall (A : Type) (l : list A) g,
    Permutation l (fst (std_shuffle l g))
}.

(** What the generator can reach: each value of the range of an integer draw is
    the result at some state of the generator, and so are the two ends of the
    canonical draw, 0 and the last value of [T] below 1. *)
Class StdSupport (G : Type) `{StdRandom G} : Prop := {
  uniform_int_support : forall T a b v,
    in_range T a -> in_range T b -> a <= v <= b ->
    exists g, fst (uniform_int_distribution T a b g) = v;
  canonical_smallest : forall T,
    exists g, fst (generate_canonical T g) = fzero;
  canonical_largest : forall T,
    exists g, fst (generate_canonical T g) = nextafter T (fone T) fzero
}.

(* ================================================================== *)
(** * Assertions and undefined behaviour *)
(* ================================================================== *)

(** How a call ends: with a result, with the process stopped by a fatal
    assertion, or in undefined behaviour. *)
Inductive outcome (R : Type) : Type :=
| Returned (r : R)
| Terminated (message : string)
| Undefined.

Arguments Returned {R} r.
Arguments Terminated {R} message.
Arguments Undefined {R}.

(** The two ways [Assertions.hpp] can be built. *)
Inductive Build : Type := FatalAssertions | NonFatalAssertions.

(** A computation over a state [S] (the generator it was handed, or the
    process) that also carries the assertion failures reported so far. *)
Definition M (S A : Type) : Type := S -> list string -> outcome (A * S * list string).

Definition ret {S A : Type} (a : A) : M S A :=
  fun s fired => Returned (a, s, fired).

Definition bind {S A B : Type} (m : M S A) (k : A -> M S B) : M S B :=
  fun s fired =>
    match m s fired with
    | Returned (a, s', fired') => k a s' fired'
    | Terminated message => Terminated message
    | Undefined => Undefined
    end.

Notation "x <- m ;; k" := (bind m (fun x => k))
  (at level 61, m at next level, right associativity).
Notation "m ;;; k" := (bind m (fun _ => k))
  (at level 61, right associativity).

(** One invocation of a distribution on the generator. *)
Definition draw {G A : Type} (dis : G -> A * G) : M G A :=
  fun g fired => let (a, g') := dis g in Returned (a, g', fired).

(** An operation whose result is undefined when [o] is [None]. *)
Definition defined {S A : Type} (o : option A) : M S A :=
  fun s fired =>
    match o with
    | Some a => Returned (a, s, fired)
    | None => Undefined
    end.

(** Modelled from the spec: the macro [ally_assert] of Assertions.hpp, which is
    not among the sources.  A check that holds does nothing.  A check that fails
    is an assertion failure: it terminates the process in a build where
    assertions are fatal, and in a non-fatal build it is reported and the code
    after it still runs. *)
Definition ally_assert {S : Type} (build : Build) (condition : bool)
    (text : string) : M S unit :=
  fun s fired =>
    if condition then Returned (tt, s, fired)
    else match build with
         | FatalAssertions => Terminated text
         | NonFatalAssertions => Returned (tt, s, fired ++ [text])
         end.

(* ================================================================== *)
(** * Collections and their iterators *)
(* ================================================================== *)

(** A collection is the sequence of its elements; an iterator is a position
    from [begin] (0) to [end_] (the size). *)
Definition size {A : Type} (collection : list A) : Z := Z.of_nat (length collection).
Definition empty {A : Type} (collection : list A) : bool :=
  match collection with [] => true | _ :: _ => false end.
Definition begin {A : Type} (collection : list A) : Z := 0.
Definition end_ {A : Type} (collection : list A) : Z := size collection.

(** [std::advance(it, n)]: undefined once the iterator would leave
    [[begin, end]]. *)
Definition advance {A : Type} (collection : list A) (it n : Z) : option Z :=
  if (0 <=? it + n) && (it + n <=? size collection) then Some (it + n) else None.

(** [*it]: undefined at [end]. *)
Definition deref {A : Type} (collection : list A) (it : Z) : option A :=
  if (0 <=? it) && (it <? size collection)
  then nth_error collection (Z.to_nat it) else None.

(** The bound every standard container puts on its size
    ([max_size() <= PTRDIFF_MAX]). *)
Definition max_size : Z := int_max ptrdiff_t.

(* ================================================================== *)
(** * RandomBase (Random.hpp) *)
(* ================================================================== *)

Section RandomBase.

Context {G : Type} `{StdRandom G}.

(** ** The primitive draws

    Each builds one distribution and invokes it once on [generator]. *)

(** [uniform<T>(generator)].  [std::uniform_int_distribution<T> dis;] is
    default-constructed: its parameters are [a = 0] and
    [b = std::numeric_limits<T>::max()]. *)
Definition uniform (T : IntType) (generator : G) : Z * G :=
  uniform_int_distribution T 0 (int_max T) generator.

(** [uniform<T>(to, generator)]. *)
Definition uniform_to (T : IntType) (to : Z) (generator : G) : Z * G :=
  uniform_int_distribution T (static_cast T 0) to generator.

(** [uniform<T>(from, to, generator)]. *)
Definition uniform_range (T : IntType) (from to : Z) (generator : G) : Z * G :=
  uniform_int_distribution T from to generator.

(** [probability<T>(generator)]. *)
Definition probability (T : IntType) (generator : G) : Z * G :=
  uniform_int_distribution T (static_cast T 0) (static_cast T 100) generator.

(** [uniformf<T>(generator)]: the bounds are [0] and [1], with no [nextafter]. *)
Definition uniformf (T : FloatType) (generator : G) : spec_float * G :=
  uniform_real_distribution T fzero (fone T) generator.

(** [uniformf<T>(to, generator)]. *)
Definition uniformf_to (T : FloatType) (to : spec_float) (generator : G)
  : spec_float * G :=
  uniform_real_distribution T fzero
    (nextafter T to (numeric_limits_max T)) generator.

(** [uniformf<T>(from, to, generator)]. *)
Definition uniformf_range (T : FloatType) (from to : spec_float) (generator : G)
  : spec_float * G :=
  uniform_real_distribution T from to generator.

(** [probabilityf<T>(generator)].  [std::nextafter(1.f, numeric_limits<T>::max())]
    is evaluated in the common type of its arguments, which is [T] for each of
    the three floating-point types. *)
Definition probabilityf (T : FloatType) (generator : G) : spec_float * G :=
  uniform_real_distribution T fzero
    (nextafter T (fone T) (numeric_limits_max T)) generator.

(** [yesNo(generator)]: [static_cast<bool>(uniform<int>(0, 1, generator))]. *)
Definition yesNo (generator : G) : bool * G :=
  let (v, generator') := uniform_range Int 0 1 generator in
  (negb (v =? 0), generator').

(** [normalf<T>(mean, stddev, generator)]. *)
Definition normalf (T : FloatType) (mean stddev : spec_float) (generator : G)
  : spec_float * G :=
  normal_distribution T mean stddev generator.

(** [shuffle(first, last, generator)], on the range holding [l]. *)
Definition shuffle {A : Type} (l : list A) (generator : G) : list A * G :=
  std_shuffle l generator.

(** ** triangularf *)

Definition triangularf (T : FloatType) (a b c : spec_float) (generator : G)
  : spec_float * G :=
  let (u, generator') := uniformf T generator in
  let f := fdiv T (fsub T c a) (fsub T b a) in
  if flt u f
  then (fadd T a (fsqrt T (fmul T (fmul T u (fsub T b a)) (fsub T c a))),
        generator')
  else (fsub T b
          (fsqrt T (fmul T (fmul T (fsub T (fone T) u) (fsub T b a)) (fsub T b c))),
        generator').

(** ** Picking from a collection *)

Variable build : Build.

(** [weightedFrom(weights, collection, generator)]. *)
Definition weightedFrom {A : Type} (weights : list spec_float)
    (collection : list A) : M G A :=
  offset <- draw (discrete_distribution weights) ;;
  it <- defined (advance collection (begin collection)
                   (static_cast ptrdiff_t offset)) ;;
  ally_assert build (negb (it =? end_ collection)) "it != collection.end()" ;;;
  defined (deref collection it).

(** [uniformFrom(collection, generator)].  The argument of [uniform] has the
    type of [collection.size()], so the subtraction and the draw are in
    [size_t]. *)
Definition uniformFrom {A : Type} (collection : list A) : M G A :=
  ally_assert build (negb (empty collection)) "!collection.empty()" ;;;
  offset <- draw (uniform_to size_t (static_cast size_t (size collection - 1))) ;;
  it <- defined (advance collection (begin collection)
                   (static_cast ptrdiff_t offset)) ;;
  ally_assert build (negb (it =? end_ collection)) "it != collection.end()" ;;;
  defined (deref collection it).

End RandomBase.

(* ================================================================== *)
(** * The generator providers (Random.cpp) *)
(* ================================================================== *)

(** The part of the process a provider touches: the system entropy source that
    [std::random_device] reads (the words it will deliver, and how many were
    read), and the function-local static generator, which does not exist before
    the first call. *)
Record Process (G : Type) : Type := {
  entropy : nat -> Z;
  entropy_reads : nat;
  s_fastGenerator : option G
}.

Arguments entropy {G} _ _.
Arguments entropy_reads {G} _.
Arguments s_fastGenerator {G} _.

(** [RandomTraits]: the generator type is the parameter [G]; [generator()]
    returns a reference to the provider's generator. *)
Record RandomTraits (G : Type) : Type := {
  generator : Build -> M (Process G) G
}.

Arguments generator {G} _ _.

Section Providers.

Context {G : Type} `{StdRandom G}.

(** [s_device()]: the next word of the entropy source, an [unsigned int]. *)
Definition s_device (p : Process G) : Z * Process G :=
  (static_cast UInt (entropy p (entropy_reads p)),
   {| entropy := entropy p;
      entropy_reads := S (entropy_reads p);
      s_fastGenerator := s_fastGenerator p |}).

(** [static std::random_device s_device;
     static GeneratorType s_fastGenerator(s_device());
     return s_fastGenerator;]
    The static is constructed the first time control passes its declaration. *)
Definition static_generator : M (Process G) G :=
  fun p fired =>
    match s_fastGenerator p with
    | Some g => Returned (g, p, fired)
    | None =>
        let (seed, p') := s_device p in
        Returned (seeded seed,
                  {| entropy := entropy p';
                     entropy_reads := entropy_reads p';
                     s_fastGenerator := Some (seeded seed) |},
                  fired)
    end.

(** [FastRandomTraits::generator()]. *)
Definition FastRandomTraits_generator (build : Build) : M (Process G) G :=
  static_generator.

(** [ServerRandomTraits::generator()]. *)
Definition ServerRandomTraits_generator (build : Build) : M (Process G) G :=
  ally_assert build false "user server seed please!" ;;;
  static_generator.

Definition FastRandomTraits : RandomTraits G :=
  {| generator := FastRandomTraits_generator |}.

Definition ServerRandomTraits : RandomTraits G :=
  {| generator := ServerRandomTraits_generator |}.

End Providers.

(* ================================================================== *)
(** * Calls of the public operations *)
(* ================================================================== *)

(** Every operation ends with the parameter
    [Generator& generator = RandomTraits::generator()]: the caller either
    supplies a generator of its own, or leaves the argument out and the provider
    is asked for the shared one. *)
Inductive GeneratorArg (G : Type) : Type :=
| Supplied (g : G)
| Defaulted.

Arguments Supplied {G} g.
Arguments Defaulted {G}.

(** The sampling operations of [RandomBase], each with its arguments, over
    collections of elements of type [A]. *)
Inductive Operation (A : Type) : Type :=
| Uniform (T : IntType)
| UniformTo (T : IntType) (to : Z)
| UniformRange (T : IntType) (from to : Z)
| Probability (T : IntType)
| Uniformf (T : FloatType)
| UniformfTo (T : FloatType) (to : spec_float)
| UniformfRange (T : FloatType) (from to : spec_float)
| Probabilityf (T : FloatType)
| YesNo
| Normalf (T : FloatType) (mean stddev : spec_float)
| UniformFrom (collection : list A)
| WeightedFrom (weights : list spec_float) (collection : list A)
| Shuffle (range : list A)
| Triangularf (T : FloatType) (a b c : spec_float).

Arguments Uniform {A} T.
Arguments UniformTo {A} T to.
Arguments UniformRange {A} T from to.
Arguments Probability {A} T.
Arguments Uniformf {A} T.
Arguments UniformfTo {A} T to.
Arguments UniformfRange {A} T from to.
Arguments Probabilityf {A} T.
Arguments YesNo {A}.
Arguments Normalf {A} T mean stddev.
Arguments UniformFrom {A} collection.
Arguments WeightedFrom {A} weights collection.
Arguments Shuffle {A} range.
Arguments Triangularf {A} T a b c.

(** What an operation hands back: a number, a truth value, an element, or the
    range as [shuffle] left it. *)
Inductive Output (A : Type) : Type :=
| OInt (v : Z)
| OFloat (x : spec_float)
| OBool (b : bool)
| OElement (a : A)
| ORange (l : list A).

Arguments OInt {A} v.
Arguments OFloat {A} x.
Arguments OBool {A} b.
Arguments OElement {A} a.
Arguments ORange {A} l.

Section Calls.

Context {G : Type} `{StdRandom G}.

Definition with_generator (p : Process G) (g : G) : Process G :=
  {| entropy := entropy p;
     entropy_reads := entropy_reads p;
     s_fastGenerator := Some g |}.

(** The body of an operation, on the generator it was handed. *)
Definition perform {A : Type} (build : Build) (op : Operation A) : M G (Output A) :=
  match op with
  | Uniform T => v <- draw (uniform T) ;; ret (OInt v)
  | UniformTo T to => v <- draw (uniform_to T to) ;; ret (OInt v)
  | UniformRange T from to => v <- draw (uniform_range T from to) ;; ret (OInt v)
  | Probability T => v <- draw (probability T) ;; ret (OInt v)
  | Uniformf T => x <- draw (uniformf T) ;; ret (OFloat x)
  | UniformfTo T to => x <- draw (uniformf_to T to) ;; ret (OFloat x)
  | UniformfRange T from to => x <- draw (uniformf_range T from to) ;; ret (OFloat x)
  | Probabilityf T => x <- draw (probabilityf T) ;; ret (OFloat x)
  | YesNo => b <- draw yesNo ;; ret (OBool b)
  | Normalf T mean stddev => x <- draw (normalf T mean stddev) ;; ret (OFloat x)
  | UniformFrom collection => a <- uniformFrom build collection ;; ret (OElement a)
  | WeightedFrom weights collection =>
      a <- weightedFrom build weights collection ;; ret (OElement a)
  | Shuffle range => l <- draw (shuffle range) ;; ret (ORange l)
  | Triangularf T a b c => x <- draw (triangularf T a b c) ;; ret (OFloat x)
  end.

(** A call of [body] in a process: on the caller's generator when one is
    supplied, and otherwise on the provider's, through the reference
    [RandomTraits::generator()] returns. *)
Definition call {A : Type} (traits : RandomTraits G) (build : Build)
    (body : M G A) : M (GeneratorArg G * Process G) A :=
  fun st fired =>
    match fst st with
    | Supplied g =>
        match body g fired with
        | Returned (a, g', fired') => Returned (a, (Supplied g', snd st), fired')
        | Terminated message => Terminated message
        | Undefined => Undefined
        end
    | Defaulted =>
        match generator traits build (snd st) fired with
        | Returned (g, p, fired') =>
            match body g fired' with
            | Returned (a, g', fired'') =>
                Returned (a, (Defaulted, with_generator p g'), fired'')
            | Terminated message => Terminated message
            | Undefined => Undefined
            end
        | Terminated message => Terminated message
        | Undefined => Undefined
        end
    end.

(** One run of [op] from a fresh report of assertion failures. *)
Definition run {A : Type} (traits : RandomTraits G) (build : Build)
    (op : Operation A) (arg : GeneratorArg G) (p : Process G)
  : outcome (Output A * (GeneratorArg G * Process G) * list string) :=
  call traits build (perform build op) (arg, p) [].

End Calls.

(* ================================================================== *)
(** * Definitions used in the proofs *)
(* ================================================================== *)

(** The offset [uniformFrom] draws on a non-empty collection. *)
Definition uniformFrom_offset {G : Type} `{StdRandom G} {A : Type}
    (collection : list A) (g : G) : Z * G :=
  uniform_to size_t (static_cast size_t (size collection - 1)) g.

(** A shift record that lost no digit. *)
Definition exact_record (z : Z) : shr_record :=
  {| shr_m := z; shr_r := false; shr_s := false |}.

(** The significand [2 ^ k]. *)
Definition pow2 (k : Z) : positive := Z.to_pos (2 ^ k).

(** The successor of a positive finite value [m * 2 ^ e] in the format with
    [prec] digits and largest exponent [emax], by cases on its significand. *)
Definition succ_finite (prec emax : Z) (m : positive) (e : Z) : spec_float :=
  if Z.pos m + 1 <? 2 ^ prec then S754_finite false (Pos.succ m) e
  else if e + 1 <=? emax - prec then S754_finite false (pow2 (prec - 1)) (e + 1)
  else S754_infinity false.

(** The record [shr] leaves after shifting [z] right by [k > 0] digits: the
    quotient, the last digit shifted out, and whether any digit before it was
    set. *)
Definition shifted_record (z k : Z) : shr_record :=
  {| shr_m := z / 2 ^ k;
     shr_r := Z.odd (z / 2 ^ (k - 1));
     shr_s := negb (z mod 2 ^ (k - 1) =? 0) |}.

(** [z / 2 ^ k] rounded to the nearest integer, ties to even. *)
Definition rounded (z k : Z) : Z :=
  let q := z / 2 ^ k in
  if Z.odd (z / 2 ^ (k - 1)) && (negb (z mod 2 ^ (k - 1) =? 0) || Z.odd q)
  then q + 1 else q.

(** The value [binary_round_aux] builds from the rounded significand [m1] at
    the exponent [t]: a significand that reached [2 ^ prec] moves to the next
    exponent. *)
Definition rounded_float (prec emax : Z) (s : bool) (m1 t : Z) : spec_float :=
  match m1 with
  | Z0 => S754_zero s
  | Zpos q =>
      if m1 =? 2 ^ prec
      then (if t + 1 <=? emax - prec
            then S754_finite s (pow2 (prec - 1)) (t + 1) else S754_infinity s)
      else (if t <=? emax - prec then S754_finite s q t else S754_infinity s)
  | Zneg _ => S754_nan
  end.

(** An outcome whose assertion failures come after the [earlier] ones. *)
Definition after_report {R S : Type} (earlier : list string)
    (o : outcome (R * S * list string)) : outcome (R * S * list string) :=
  match o with
  | Returned (r, s, fired) => Returned (r, s, earlier ++ fired)
  | Terminated message => Terminated message
  | Undefined => Undefined
  end.

(** A computation that only adds to the assertion failures reported so far. *)
Definition reports {S A : Type} (m : M S A) : Prop :=
  forall s fired, m s fired = after_report fired (m s []).

(* ================================================================== *)
(** * A replay generator *)
(* ================================================================== *)

(** A generator that plays back a recorded sequence of words, with
    distributions that read one word per draw.  It is the instance at which the
    results below are exercised on concrete inputs. *)
Module Replay.

Definition generator_type : Type := list Z.

Definition next (g : generator_type) : Z * generator_type :=
  match g with
  | [] => (0, [])
  | w :: g' => (w, g')
  end.

Definition uniform_int (T : IntType) (a b : Z) (g : generator_type)
  : Z * generator_type :=
  let (w, g') := next g in (a + w mod (b - a + 1), g').

(** A word read as a value of [T]: sign, then significand, then exponent. *)
Definition decode (T : FloatType) (w : Z) : spec_float :=
  let r := w / 2 in
  let m := r mod 2 ^ prec T in
  let e := r / 2 ^ prec T + emin (prec T) (emax T) in
  if m =? 0 then S754_zero (Z.odd w) else S754_finite (Z.odd w) (Z.to_pos m) e.

Definition encode (T : FloatType) (x : spec_float) : Z :=
  match x with
  | S754_zero s => Z.b2z s
  | S754_finite s m e =>
      2 * ((e - emin (prec T) (emax T)) * 2 ^ prec T + Z.pos m) + Z.b2z s
  | _ => 0
  end.

(** The canonical draw: the next word read as a value of [T], when that value
    is at least 0 and below 1, and 0 otherwise. *)
Definition canonical (T : FloatType) (g : generator_type)
  : spec_float * generator_type :=
  let (w, g') := next g in
  let x := decode T w in
  if representable T x && fle fzero x && flt x (fone T) then (x, g')
  else (fzero, g').

Definition uniform_real : FloatType -> spec_float -> spec_float ->
    generator_type -> spec_float * generator_type :=
  scaled_draw canonical.

Definition normal (T : FloatType) (mean stddev : spec_float)
    (g : generator_type) : spec_float * generator_type :=
  (mean, snd (next g)).

Definition discrete : list spec_float -> generator_type -> Z * generator_type :=
  lower_bound_draw canonical.

Definition shuffled (A : Type) (l : list A) (g : generator_type)
  : list A * generator_type :=
  let (w, g') := next g in
  (if Z.odd w then rev l else l, g').

#[global] Instance std_random : StdRandom generator_type := {
  uniform_int_distribution := uniform_int;
  generate_canonical := canonical;
  uniform_real_distribution := uniform_real;
  normal_distribution := normal;
  discrete_distribution := discrete;
  std_shuffle := shuffled;
  seeded := fun s => [s]
}.

End Replay.

(* ================================================================== *)
(** * A generator of words *)
(* ================================================================== *)

(** [std::generate_canonical] as the library computes it over an engine that
    delivers words of [bits] bits, one word being enough for the digits of [T]
    ([std::mt19937] for [float], [std::mt19937_64] for the wider types), here
    over the words of a replay generator.  It is evaluated on the inputs of the
    examples. *)
Module Canonical.

(** [RealType(n)]: the integer [n] rounded to [T]. *)
Definition of_Z (T : FloatType) (n : Z) : spec_float :=
  binary_normalize (prec T) (emax T) n 0 false.

(** The word divided by the range of the engine, and brought below 1 when that
    division rounds up to 1. *)
Definition from_word (T : FloatType) (bits : Z) (w : Z) : spec_float :=
  let ret := fdiv T (of_Z T (w mod 2 ^ bits)) (of_Z T (2 ^ bits)) in
  if fle (fone T) ret then nextafter T (fone T) fzero else ret.

Definition canonical (bits : Z) (T : FloatType) (g : Replay.generator_type)
  : spec_float * Replay.generator_type :=
  let (w, g') := Replay.next g in (from_word T bits w, g').

Definition std_random (bits : Z) : StdRandom Replay.generator_type := {|
  uniform_int_distribution := Replay.uniform_int;
  generate_canonical := canonical bits;
  uniform_real_distribution := scaled_draw (canonical bits);
  normal_distribution := Replay.normal;
  discrete_distribution := lower_bound_draw (canonical bits);
  std_shuffle := Replay.shuffled;
  seeded := fun s => [s]
|}.

End Canonical.

(* ================================================================== *)
(** * Sample inputs *)
(* ================================================================== *)

(** The weights [1, 0, 0] as [float]s. *)
Definition weights_1_0_0 : list spec_float := [fone Float; fzero; fzero].

(** The [float]s 0.25, 0.5 and 0.75. *)
Definition quarter : spec_float := S754_finite false 8388608 (-25).
Definition half : spec_float := S754_finite false 8388608 (-24).
Definition three_quarters : spec_float := S754_finite false 12582912 (-24).

(** The [float] 2.5. *)
Definition two_and_a_half : spec_float := S754_finite false 10485760 (-22).

(** A process in which no generator has been constructed yet. *)
Definition process_a : Process Replay.generator_type :=
  {| entropy := fun _ => 1; entropy_reads := 0; s_fastGenerator := None |}.

(* ================================================================== *)
(** * Integral types: basic facts *)
(* ================================================================== *)

Lemma int_min_nonpos (T : IntType) : int_min T <= 0.
Proof. destruct T; vm_compute; discriminate. Qed.

Lemma int_max_nonneg (T : IntType) : 0 <= int_max T.
Proof. destruct T; vm_compute; discriminate. Qed.

Lemma in_range_0 (T : IntType) : in_range T 0.
Proof. split; [apply int_min_nonpos | apply int_max_nonneg]. Qed.

Lemma in_range_max (T : IntType) : in_range T (int_max T).
Proof.
  split; [|lia].
  pose proof (int_min_nonpos T); pose proof (int_max_nonneg T); lia.
Qed.

Lemma static_cast_0 (T : IntType) : static_cast T 0 = 0.
Proof. destruct T; reflexivity. Qed.

Lemma static_cast_size_t (v : Z) :
  0 <= v <= int_max size_t -> static_cast size_t v = v.
Proof.
  intros Hv. unfold static_cast, size_t in *. cbn [is_signed].
  apply Z.mod_small.
  change (int_max ULong) with (2 ^ int_bits ULong - 1) in Hv. lia.
Qed.

Lemma static_cast_ptrdiff_t (v : Z) :
  0 <= v <= int_max ptrdiff_t -> static_cast ptrdiff_t v = v.
Proof.
  intros Hv. unfold static_cast, ptrdiff_t in *. cbn [is_signed].
  assert (Hm : v mod 2 ^ int_bits Long = v).
  { apply Z.mod_small.
    change (int_max Long) with (2 ^ 63 - 1) in Hv.
    change (2 ^ int_bits Long) with (2 ^ 63 * 2). lia. }
  rewrite Hm.
  destruct (Z.leb_spec v (int_max Long)) as [_ | Hgt]; [reflexivity|lia].
Qed.

Lemma max_size_lt_size_t : max_size < int_max size_t.
Proof. vm_compute. reflexivity. Qed.

(* ================================================================== *)
(** * Collections: basic facts *)
(* ================================================================== *)

Lemma size_nonempty {A : Type} (collection : list A) :
  collection <> [] -> 1 <= size collection.
Proof.
  destruct collection as [|x l]; [congruence|].
  intros _. unfold size. cbn [length]. lia.
Qed.

Lemma advance_begin {A : Type} (collection : list A) (n : Z) :
  0 <= n <= size collection ->
  advance collection (begin collection) n = Some n.
Proof.
  intros [H0 H1]. unfold advance, begin. cbn [Z.add].
  destruct (Z.leb_spec 0 n); [|lia].
  destruct (Z.leb_spec n (size collection)); [|lia].
  reflexivity.
Qed.

Lemma deref_inside {A : Type} (collection : list A) (it : Z) :
  0 <= it < size collection ->
  exists x, deref collection it = Some x /\
            nth_error collection (Z.to_nat it) = Some x /\ In x collection.
Proof.
  intros [H0 H1]. unfold deref.
  destruct (Z.leb_spec 0 it); [|lia].
  destruct (Z.ltb_spec it (size collection)); [|lia].
  cbn [andb].
  destruct (nth_error collection (Z.to_nat it)) as [x|] eqn:E.
  - exists x. repeat split. eapply nth_error_In; eassumption.
  - apply nth_error_None in E. unfold size in H1. lia.
Qed.

(* ================================================================== *)
(** * Floating-point values: order and representation *)
(* ================================================================== *)

Lemma digits2_pos_size (m : positive) : digits2_pos m = Pos.size m.
Proof. induction m as [m IH | m IH |]; cbn; now rewrite ?IH. Qed.

Lemma digits2_pos_upper (m : positive) : Z.pos m < 2 ^ Z.pos (digits2_pos m).
Proof.
  rewrite digits2_pos_size.
  pose proof (Pos.size_gt m) as H.
  apply Pos2Z.pos_lt_pos in H. now rewrite Pos2Z.inj_pow in H.
Qed.

Lemma digits2_pos_lower (m : positive) : 2 ^ Z.pos (digits2_pos m) <= 2 * Z.pos m.
Proof.
  rewrite digits2_pos_size.
  pose proof (Pos.size_le m) as H.
  apply Pos2Z.pos_le_pos in H. now rewrite Pos2Z.inj_pow in H.
Qed.

Section Format.

Variables prec emax : Z.
Hypothesis prec_pos : 0 < prec.

Lemma bounded_spec (m : positive) (e : Z) :
  bounded prec emax m e = true ->
  Z.max (Z.pos (digits2_pos m) + e - prec) (emin prec emax) = e /\
  e <= emax - prec.
Proof.
  unfold bounded, canonical_mantissa, fexp. intros Hb.
  apply andb_true_iff in Hb. destruct Hb as [Hc He].
  apply Z.eqb_eq in Hc. apply Z.leb_le in He. now split.
Qed.

Lemma bounded_intro (m : positive) (e : Z) :
  Z.max (Z.pos (digits2_pos m) + e - prec) (emin prec emax) = e ->
  e <= emax - prec ->
  bounded prec emax m e = true.
Proof.
  intros Hc He. unfold bounded, canonical_mantissa, fexp.
  apply andb_true_iff. split; [now apply Z.eqb_eq | now apply Z.leb_le].
Qed.

Lemma bounded_digits (m : positive) (e : Z) :
  bounded prec emax m e = true -> Z.pos (digits2_pos m) <= prec.
Proof. intros Hb. apply bounded_spec in Hb. lia. Qed.

Lemma bounded_emin (m : positive) (e : Z) :
  bounded prec emax m e = true -> emin prec emax <= e.
Proof. intros Hb. apply bounded_spec in Hb. lia. Qed.

Lemma bounded_mantissa (m : positive) (e : Z) :
  bounded prec emax m e = true -> Z.pos m < 2 ^ prec.
Proof.
  intros Hb. apply bounded_digits in Hb.
  pose proof (digits2_pos_upper m).
  assert (2 ^ Z.pos (digits2_pos m) <= 2 ^ prec)
    by (apply Z.pow_le_mono_r; lia).
  lia.
Qed.

(** A significand above the smallest exponent has all its [prec] digits. *)
Lemma bounded_normal (m : positive) (e : Z) :
  bounded prec emax m e = true -> emin prec emax < e ->
  2 ^ (prec - 1) <= Z.pos m.
Proof.
  intros Hb He. apply bounded_spec in Hb.
  assert (Hd : Z.pos (digits2_pos m) = prec) by lia.
  pose proof (digits2_pos_lower m) as Hl. rewrite Hd in Hl.
  replace prec with (Z.succ (prec - 1)) in Hl at 1 by lia.
  rewrite Z.pow_succ_r in Hl by lia. lia.
Qed.

End Format.

(** Comparison is reflexive on every value that is not NaN. *)
Lemma SFcompare_refl (x : spec_float) :
  x <> S754_nan -> SFcompare x x = Some Eq.
Proof.
  destruct x as [s | s | | s m e]; cbn; try congruence.
  - intros _. now destruct s.
  - intros _. rewrite Z.compare_refl.
    change (Pos.compare_cont Eq m m) with (Pos.compare m m).
    rewrite Pos.compare_refl. now destruct s.
Qed.

Lemma flt_not_nan_l (x y : spec_float) : flt x y = true -> x <> S754_nan.
Proof. intros H ->. discriminate. Qed.

Lemma flt_fle (x y : spec_float) : flt x y = true -> fle x y = true.
Proof.
  unfold flt, fle, SFltb, SFleb.
  destruct (SFcompare x y) as [[| |]|]; congruence.
Qed.

Lemma flt_irrefl (x : spec_float) : flt x x = false.
Proof.
  unfold flt, SFltb. destruct x as [s | s | | s m e]; cbn; trivial.
  - now destruct s.
  - rewrite Z.compare_refl.
    change (Pos.compare_cont Eq m m) with (Pos.compare m m).
    rewrite Pos.compare_refl. now destruct s.
Qed.

(* ================================================================== *)
(** * The next representable value *)
(* ================================================================== *)

(** [SFsucc] adds one unit in the last place and rounds.  This part shows what
    that comes to on a non-negative value of the format ([succ_finite]), and
    that the result is the next value of the format: it is above, and no value
    lies strictly between. *)

(** ** Digits and shifts *)

Lemma pos_iter_xO (m d : positive) :
  Z.pos (Pos.iter xO m d) = Z.pos m * 2 ^ Z.pos d.
Proof.
  change (Pos.iter xO m d) with (shift_pos d m).
  rewrite shift_pos_correct.
  change (Z.pow_pos 2 d) with (2 ^ Z.pos d). apply Z.mul_comm.
Qed.

Lemma pow2_pos (k : Z) : 0 <= k -> 0 < 2 ^ k.
Proof. intros Hk. apply Z.pow_pos_nonneg; lia. Qed.

Lemma pow2_double (k : Z) : 0 < k -> 2 ^ k = 2 * 2 ^ (k - 1).
Proof.
  intros Hk. replace k with (Z.succ (k - 1)) at 1 by lia.
  apply Z.pow_succ_r. lia.
Qed.

Lemma pow2_lt_inv (j k : Z) : 0 <= k -> 2 ^ j < 2 ^ k -> j < k.
Proof. intros Hk Hlt. apply (Z.pow_lt_mono_r_iff 2); [lia | exact Hk | exact Hlt]. Qed.

(** The number of digits of [m] is the [d] with [2 ^ (d - 1) <= m < 2 ^ d]. *)
Lemma digits_bounds (m : positive) :
  2 ^ (Z.pos (digits2_pos m) - 1) <= Z.pos m < 2 ^ Z.pos (digits2_pos m).
Proof.
  pose proof (digits2_pos_upper m) as Hu.
  pose proof (digits2_pos_lower m) as Hl.
  rewrite (pow2_double (Z.pos (digits2_pos m))) in Hl by lia. lia.
Qed.

Lemma digits_unique (m : positive) (d : Z) :
  2 ^ (d - 1) <= Z.pos m < 2 ^ d -> Z.pos (digits2_pos m) = d.
Proof.
  intros [Hl Hu].
  pose proof (digits_bounds m) as [Hl' Hu'].
  set (k := Z.pos (digits2_pos m)) in *.
  assert (Hk : 0 < k) by (unfold k; lia).
  assert (Hd : 0 < d).
  { destruct (Z.lt_trichotomy d 0) as [Hn | [-> | Hp]]; [| cbn in Hu; lia | exact Hp].
    rewrite Z.pow_neg_r in Hu by lia. lia. }
  assert (k - 1 < d) by (apply pow2_lt_inv; lia).
  assert (d - 1 < k) by (apply pow2_lt_inv; lia).
  lia.
Qed.

Lemma digits_mono (m n : positive) :
  Z.pos m <= Z.pos n -> Z.pos (digits2_pos m) <= Z.pos (digits2_pos n).
Proof.
  intros Hle.
  pose proof (digits_bounds m) as [Hl _].
  pose proof (digits_bounds n) as [_ Hu].
  assert (Z.pos (digits2_pos m) - 1 < Z.pos (digits2_pos n))
    by (apply pow2_lt_inv; lia).
  lia.
Qed.

Lemma digits_below (m : positive) (k : Z) :
  0 <= k -> Z.pos m < 2 ^ k -> Z.pos (digits2_pos m) <= k.
Proof.
  intros Hk Hlt.
  pose proof (digits_bounds m) as [Hl _].
  assert (Z.pos (digits2_pos m) - 1 < k) by (apply pow2_lt_inv; lia).
  lia.
Qed.

Lemma digits_shift (q M : positive) (n : Z) :
  0 <= n -> Z.pos M = Z.pos q * 2 ^ n ->
  Z.pos (digits2_pos M) = Z.pos (digits2_pos q) + n.
Proof.
  intros Hn HM. apply digits_unique. rewrite HM.
  pose proof (digits_bounds q) as [Hl Hu].
  pose proof (pow2_pos n Hn).
  replace (Z.pos (digits2_pos q) + n - 1)
    with ((Z.pos (digits2_pos q) - 1) + n) by lia.
  rewrite !Z.pow_add_r by lia. nia.
Qed.

Lemma pow2_spec (k : Z) : 0 <= k -> Z.pos (pow2 k) = 2 ^ k.
Proof. intros Hk. unfold pow2. apply Z2Pos.id. now apply pow2_pos. Qed.

Lemma digits_pow2 (k : Z) : 0 <= k -> Z.pos (digits2_pos (pow2 k)) = k + 1.
Proof.
  intros Hk. apply digits_unique. rewrite pow2_spec by lia.
  replace (k + 1 - 1) with k by lia. split; [lia|].
  apply Z.pow_lt_mono_r; lia.
Qed.

(** Shifting an even significand right loses nothing. *)
Lemma shr_1_exact (z : Z) :
  0 < z -> shr_1 (exact_record (2 * z)) = exact_record z.
Proof. destruct z; try lia. intros _. reflexivity. Qed.

Lemma iter_pos_shr_1 (n : positive) : forall z, 0 < z ->
  iter_pos shr_1 n (exact_record (z * 2 ^ Z.pos n)) = exact_record z.
Proof.
  induction n as [n IH | n IH |]; intros z Hz; cbn [iter_pos].
  - pose proof (pow2_pos (Z.pos n) ltac:(lia)) as H2n.
    replace (z * 2 ^ Z.pos n~1) with (2 * ((z * 2 ^ Z.pos n) * 2 ^ Z.pos n)).
    + rewrite shr_1_exact by nia. rewrite IH by nia. now apply IH.
    + replace (Z.pos n~1) with (Z.pos n + Z.pos n + 1) by lia.
      rewrite !Z.pow_add_r by lia. rewrite Z.pow_1_r. ring.
  - pose proof (pow2_pos (Z.pos n) ltac:(lia)) as H2n.
    replace (z * 2 ^ Z.pos n~0) with ((z * 2 ^ Z.pos n) * 2 ^ Z.pos n).
    + rewrite IH by nia. now apply IH.
    + replace (Z.pos n~0) with (Z.pos n + Z.pos n) by lia.
      rewrite Z.pow_add_r by lia. ring.
  - rewrite Z.pow_1_r, Z.mul_comm. now apply shr_1_exact.
Qed.

Lemma shr_exact (z e n : Z) :
  0 < z -> 0 <= n ->
  shr (exact_record (z * 2 ^ n)) e n = (exact_record z, e + n).
Proof.
  intros Hz Hn. destruct n as [|n|n]; try lia; cbn [shr].
  - now rewrite Z.pow_0_r, Z.mul_1_r, Z.add_0_r.
  - now rewrite iter_pos_shr_1.
Qed.

Lemma shl_align_fst (m : positive) (e t : Z) :
  t <= e -> Z.pos (fst (shl_align m e t)) = Z.pos m * 2 ^ (e - t).
Proof.
  intros Hle. unfold shl_align.
  destruct (t - e) as [|d|d] eqn:E; try lia; cbn [fst].
  - replace (e - t) with 0 by lia. lia.
  - rewrite pos_iter_xO. f_equal. f_equal. lia.
Qed.

(** ** Order of the non-negative finite values *)

Lemma flt_finite (m1 m2 : positive) (e1 e2 : Z) :
  flt (S754_finite false m1 e1) (S754_finite false m2 e2) = true <->
  e1 < e2 \/ (e1 = e2 /\ Z.pos m1 < Z.pos m2).
Proof.
  unfold flt, SFltb. cbn [SFcompare].
  change (Pos.compare_cont Eq m1 m2) with (Pos.compare m1 m2).
  destruct (Z.compare_spec e1 e2) as [He | He | He].
  - destruct (Pos.compare_spec m1 m2) as [Hm | Hm | Hm];
      split; intros H; try discriminate; try lia; reflexivity.
  - split; intros _; [lia | reflexivity].
  - split; intros H; [discriminate | lia].
Qed.

Lemma fle_finite (m1 m2 : positive) (e1 e2 : Z) :
  fle (S754_finite false m1 e1) (S754_finite false m2 e2) = true <->
  e1 < e2 \/ (e1 = e2 /\ Z.pos m1 <= Z.pos m2).
Proof.
  unfold fle, SFleb. cbn [SFcompare].
  change (Pos.compare_cont Eq m1 m2) with (Pos.compare m1 m2).
  destruct (Z.compare_spec e1 e2) as [He | He | He].
  - destruct (Pos.compare_spec m1 m2) as [Hm | Hm | Hm];
      split; intros H; try discriminate; try lia; reflexivity.
  - split; intros _; [lia | reflexivity].
  - split; intros H; [discriminate | lia].
Qed.

(** ** Rounding, the unit in the last place, and the successor *)

Section Successor.

Variables prec emax : Z.
Hypothesis Hprec : 1 < prec.
Hypothesis Hemax : 2 < emax.

Lemma fexp_canonical (m : positive) (e : Z) :
  bounded prec emax m e = true ->
  fexp prec emax (Z.pos (digits2_pos m) + e) = e.
Proof.
  intros Hb. apply andb_true_iff in Hb. destruct Hb as [Hc _].
  now apply Z.eqb_eq in Hc.
Qed.

(** As long as the significand stays below [2 ^ prec], one more keeps the
    exponent canonical. *)
Lemma fexp_succ (m : positive) (e : Z) :
  bounded prec emax m e = true -> Z.pos m + 1 < 2 ^ prec ->
  fexp prec emax (Z.pos (digits2_pos (Pos.succ m)) + e) = e.
Proof.
  intros Hb Hlt.
  pose proof (bounded_spec _ _ _ _ Hb) as [Hc _].
  assert (Hd1 : Z.pos (digits2_pos (Pos.succ m)) <= prec)
    by (apply digits_below; lia).
  assert (Hd2 : Z.pos (digits2_pos m) <= Z.pos (digits2_pos (Pos.succ m)))
    by (apply digits_mono; lia).
  unfold fexp, emin in *. lia.
Qed.

(** Rounding the exact value [M * 2 ^ ez], where [M] is [q * 2 ^ n] and [n] is
    the shift that makes the exponent canonical: the result is [q] at the
    exponent [ez + n], or infinity when that exponent is too large. *)
Lemma binary_round_aux_exact (s : bool) (q M : positive) (ez n : Z) :
  0 <= n -> Z.pos M = Z.pos q * 2 ^ n ->
  fexp prec emax (Z.pos (digits2_pos q) + (ez + n)) = ez + n ->
  binary_round_aux prec emax s (Z.pos M) ez loc_Exact =
    if ez + n <=? emax - prec then S754_finite s q (ez + n) else S754_infinity s.
Proof.
  intros Hn HM Hf.
  unfold binary_round_aux, shr_fexp.
  cbn [Zdigits2 shr_record_of_loc].
  rewrite (digits_shift q M n Hn HM).
  replace (Z.pos (digits2_pos q) + n + ez)
    with (Z.pos (digits2_pos q) + (ez + n)) by lia.
  rewrite Hf. replace (ez + n - ez) with n by lia.
  change {| shr_m := Z.pos M; shr_r := false; shr_s := false |}
    with (exact_record (Z.pos M)).
  rewrite HM, shr_exact by lia.
  cbn [exact_record shr_m loc_of_shr_record round_nearest_even Zdigits2
       shr_record_of_loc].
  rewrite Hf, Z.sub_diag. cbn [shr shr_m]. reflexivity.
Qed.

Lemma binary_round_exact (s : bool) (q M : positive) (ez n : Z) :
  0 <= n -> Z.pos M = Z.pos q * 2 ^ n ->
  fexp prec emax (Z.pos (digits2_pos q) + (ez + n)) = ez + n ->
  binary_round prec emax s M ez =
    if ez + n <=? emax - prec then S754_finite s q (ez + n) else S754_infinity s.
Proof.
  intros Hn HM Hf. unfold binary_round.
  rewrite (digits_shift q M n Hn HM).
  replace (Z.pos (digits2_pos q) + n + ez)
    with (Z.pos (digits2_pos q) + (ez + n)) by lia.
  rewrite Hf.
  unfold shl_align. replace (ez + n - ez) with n by lia.
  destruct n as [|n|n]; try lia; now apply binary_round_aux_exact.
Qed.

(** Rounding [m * 2 ^ e] when the canonical exponent [t] is below [e]: the
    significand is shifted left. *)
Lemma binary_round_shl (s : bool) (m M : positive) (e t : Z) :
  t = fexp prec emax (Z.pos (digits2_pos m) + e) -> t <= e ->
  Z.pos M = Z.pos m * 2 ^ (e - t) ->
  binary_round prec emax s m e =
    if t <=? emax - prec then S754_finite s M t else S754_infinity s.
Proof.
  intros Ht Hle HM. unfold binary_round. rewrite <- Ht.
  assert (Hd : Z.pos (digits2_pos M) = Z.pos (digits2_pos m) + (e - t))
    by (apply digits_shift; [lia | exact HM]).
  assert (Hf : fexp prec emax (Z.pos (digits2_pos M) + (t + 0)) = t + 0).
  { rewrite Hd, Z.add_0_r.
    replace (Z.pos (digits2_pos m) + (e - t) + t)
      with (Z.pos (digits2_pos m) + e) by lia.
    now rewrite <- Ht. }
  assert (Hshift : shl_align m e t = (M, t)).
  { unfold shl_align. destruct (t - e) as [|d|d] eqn:E; try lia.
    - assert (Hte : e = t) by lia. rewrite Hte. f_equal.
      apply Pos2Z.inj. rewrite HM, Hte, Z.sub_diag, Z.pow_0_r. lia.
    - f_equal. apply Pos2Z.inj. rewrite pos_iter_xO, HM.
      f_equal. f_equal. lia. }
  rewrite Hshift.
  rewrite (binary_round_aux_exact s M M t 0);
    rewrite ?Z.add_0_r in *; trivial; lia.
Qed.

Lemma SFone_eq :
  SFone prec emax = S754_finite false (pow2 (prec - 1)) (1 - prec).
Proof.
  unfold SFone.
  assert (Ht : 1 - prec = fexp prec emax (Z.pos (digits2_pos 1) + 0)).
  { unfold fexp, emin. cbn [digits2_pos]. lia. }
  rewrite (binary_round_shl false 1 (pow2 (prec - 1)) 0 (1 - prec) Ht).
  - destruct (Z.leb_spec (1 - prec) (emax - prec)); [reflexivity | lia].
  - lia.
  - rewrite pow2_spec by lia. rewrite Z.mul_1_l. f_equal. lia.
Qed.

(** The unit in the last place of a positive value with exponent [e] is
    [2 ^ e], written at the canonical exponent of that power. *)
Lemma SFulp_finite (m : positive) (e : Z) :
  bounded prec emax m e = true ->
  SFulp prec emax (S754_finite false m e) =
    S754_finite false (pow2 (e - fexp prec emax (1 + e))) (fexp prec emax (1 + e)).
Proof.
  intros Hb.
  pose proof (bounded_spec _ _ _ _ Hb) as [Hc He].
  pose proof (bounded_digits _ _ _ _ Hb) as Hd.
  unfold SFulp.
  assert (Hfr : snd (SFfrexp prec emax (S754_finite false m e)) =
                Z.pos (digits2_pos m) + e).
  { unfold SFfrexp.
    destruct (Z.leb_spec prec (Z.pos (digits2_pos m))); cbn [snd]; lia. }
  rewrite Hfr, (fexp_canonical m e Hb), SFone_eq. cbn [SFldexp].
  set (t := fexp prec emax (1 + e)).
  assert (Ht : t = Z.max (1 + e - prec) (3 - emax - prec)) by reflexivity.
  unfold emin in Hc.
  rewrite (binary_round_exact false (pow2 (e - t)) (pow2 (prec - 1))
             (1 - prec + e) (t - (1 - prec + e))).
  - replace (1 - prec + e + (t - (1 - prec + e))) with t by lia.
    destruct (Z.leb_spec t (emax - prec)); [reflexivity | lia].
  - lia.
  - rewrite !pow2_spec by lia. rewrite <- Z.pow_add_r by lia. f_equal. lia.
  - rewrite digits_pow2 by lia.
    replace (1 - prec + e + (t - (1 - prec + e))) with t by lia.
    unfold fexp, emin. lia.
Qed.

(** [SFsucc] on a positive value of the format. *)
Lemma SFsucc_finite (m : positive) (e : Z) :
  bounded prec emax m e = true ->
  SFsucc prec emax (S754_finite false m e) = succ_finite prec emax m e.
Proof.
  intros Hb.
  pose proof (bounded_spec _ _ _ _ Hb) as [Hc He].
  pose proof (bounded_mantissa prec emax ltac:(lia) m e Hb) as Hm.
  unfold emin in Hc.
  cbn [SFsucc]. rewrite (SFulp_finite m e Hb).
  set (t := fexp prec emax (1 + e)).
  assert (Ht : t = Z.max (1 + e - prec) (3 - emax - prec)) by reflexivity.
  cbn [SFadd cond_Zopp].
  replace (Z.min e t) with t by lia.
  pose proof (shl_align_fst m e t ltac:(lia)) as Ha.
  pose proof (shl_align_fst (pow2 (e - t)) t t ltac:(lia)) as Hu.
  rewrite Z.sub_diag, Z.pow_0_r, Z.mul_1_r, pow2_spec in Hu by lia.
  set (a := fst (shl_align m e t)) in *.
  set (u := fst (shl_align (pow2 (e - t)) t t)) in *.
  cbn [Z.add binary_normalize].
  assert (Hsum : Z.pos (a + u) = (Z.pos m + 1) * 2 ^ (e - t)).
  { rewrite Pos2Z.inj_add, Ha, Hu. ring. }
  unfold succ_finite.
  destruct (Z.ltb_spec (Z.pos m + 1) (2 ^ prec)) as [Hlt | Hge].
  - (* the significand has room for one more *)
    rewrite (binary_round_exact false (Pos.succ m) (a + u) t (e - t)).
    + replace (t + (e - t)) with e by lia.
      destruct (Z.leb_spec e (emax - prec)); [reflexivity | lia].
    + lia.
    + rewrite Hsum. f_equal. lia.
    + replace (t + (e - t)) with e by lia. now apply fexp_succ.
  - (* the significand was all ones: the next value starts a binade *)
    assert (Hm1 : Z.pos m + 1 = 2 ^ prec) by lia.
    rewrite (binary_round_exact false (pow2 (prec - 1)) (a + u) t (e - t + 1)).
    + replace (t + (e - t + 1)) with (e + 1) by lia. reflexivity.
    + lia.
    + rewrite Hsum, Hm1, pow2_spec by lia.
      rewrite <- !Z.pow_add_r by lia. f_equal. lia.
    + rewrite digits_pow2 by lia.
      replace (t + (e - t + 1)) with (e + 1) by lia.
      assert (Z.pos (digits2_pos m) = prec).
      { apply digits_unique. rewrite (pow2_double prec) in Hm1 by lia. lia. }
      unfold fexp, emin. lia.
Qed.

(** [SFsucc] on a zero: the smallest positive value. *)
Lemma SFsucc_zero (s : bool) :
  SFsucc prec emax (S754_zero s) = S754_finite false 1 (emin prec emax).
Proof.
  cbn [SFsucc]. rewrite SFone_eq. cbn [SFldexp].
  rewrite (binary_round_exact false 1 (pow2 (prec - 1))
             (1 - prec + emin prec emax) (prec - 1)).
  - replace (1 - prec + emin prec emax + (prec - 1))
      with (emin prec emax) by lia.
    unfold emin.
    destruct (Z.leb_spec (3 - emax - prec) (emax - prec)); [reflexivity | lia].
  - lia.
  - rewrite pow2_spec by lia. lia.
  - cbn [digits2_pos]. unfold fexp, emin. lia.
Qed.

Lemma SFmax_float_eq :
  SFmax_float prec emax =
    S754_finite false (Z.to_pos (2 ^ prec - 1)) (emax - prec).
Proof.
  unfold SFmax_float. f_equal.
  pose proof (pow2_double prec ltac:(lia)) as H2.
  pose proof (pow2_pos (prec - 1) ltac:(lia)) as H1.
  apply Pos2Z.inj. rewrite Z2Pos.id by lia.
  assert (Hi : Z.pos (Pos.iter xO 1%positive (Z.to_pos prec)) = 2 ^ prec).
  { rewrite pos_iter_xO, Z2Pos.id by lia. lia. }
  rewrite Pos2Z.inj_sub by lia. lia.
Qed.

(** The successor is above. *)
Lemma succ_finite_above (m : positive) (e : Z) :
  bounded prec emax m e = true ->
  flt (S754_finite false m e) (succ_finite prec emax m e) = true.
Proof.
  intros Hb. unfold succ_finite.
  destruct (Z.ltb_spec (Z.pos m + 1) (2 ^ prec)).
  - apply flt_finite. lia.
  - destruct (Z.leb_spec (e + 1) (emax - prec)).
    + apply flt_finite. lia.
    + reflexivity.
Qed.

(** No value of the format lies strictly between a value and its successor. *)
Lemma succ_finite_gap (x : spec_float) (m : positive) (e : Z) :
  valid_binary prec emax x = true -> bounded prec emax m e = true ->
  flt x (succ_finite prec emax m e) = true ->
  fle x (S754_finite false m e) = true.
Proof.
  intros Hx Hb Hlt.
  pose proof (bounded_mantissa prec emax ltac:(lia) m e Hb) as Hm.
  destruct x as [s | s | | s m' e']; try reflexivity.
  - destruct s; [reflexivity|].
    unfold succ_finite in Hlt.
    destruct (Z.pos m + 1 <? 2 ^ prec); [discriminate|].
    destruct (e + 1 <=? emax - prec); discriminate.
  - discriminate.
  - destruct s; [reflexivity|].
    cbn [valid_binary] in Hx.
    pose proof (bounded_mantissa prec emax ltac:(lia) m' e' Hx) as Hm'.
    apply fle_finite.
    unfold succ_finite in Hlt.
    destruct (Z.ltb_spec (Z.pos m + 1) (2 ^ prec)) as [H1 | H1].
    + apply flt_finite in Hlt. lia.
    + destruct (Z.leb_spec (e + 1) (emax - prec)) as [H2 | H2].
      * apply flt_finite in Hlt. rewrite pow2_spec in Hlt by lia.
        destruct (Z.lt_trichotomy e' (e + 1)) as [Hl | [Hq | Hg]];
          [lia | | lia].
        assert (Hn : 2 ^ (prec - 1) <= Z.pos m').
        { apply (bounded_normal prec emax ltac:(lia) m' e' Hx).
          pose proof (bounded_emin _ _ _ _ Hb). lia. }
        lia.
      * pose proof (bounded_spec _ _ _ _ Hx) as [_ He']. lia.
Qed.

(** The successor is a value of the format, or infinity. *)
Lemma succ_finite_valid (m : positive) (e : Z) :
  bounded prec emax m e = true ->
  valid_binary prec emax (succ_finite prec emax m e) = true.
Proof.
  intros Hb.
  pose proof (bounded_spec _ _ _ _ Hb) as [Hc He].
  unfold succ_finite.
  destruct (Z.ltb_spec (Z.pos m + 1) (2 ^ prec)) as [H1 | H1].
  - cbn [valid_binary]. apply bounded_intro; [|exact He].
    now apply fexp_succ.
  - destruct (Z.leb_spec (e + 1) (emax - prec)) as [H2 | H2]; [|reflexivity].
    cbn [valid_binary]. apply bounded_intro; [|exact H2].
    rewrite digits_pow2 by lia. unfold emin in *. lia.
Qed.

(** Below the largest finite value the successor is finite. *)
Lemma succ_finite_below_max (m : positive) (e : Z) :
  flt (S754_finite false m e) (SFmax_float prec emax) = true ->
  is_finite (succ_finite prec emax m e) = true.
Proof.
  rewrite SFmax_float_eq. intros Hlt. apply flt_finite in Hlt.
  pose proof (pow2_double prec ltac:(lia)) as H2.
  pose proof (pow2_pos (prec - 1) ltac:(lia)) as H1.
  rewrite Z2Pos.id in Hlt by lia.
  unfold succ_finite.
  destruct (Z.ltb_spec (Z.pos m + 1) (2 ^ prec)) as [H3 | H3]; [reflexivity|].
  destruct (Z.leb_spec (e + 1) (emax - prec)) as [H4 | H4]; [reflexivity|lia].
Qed.

(** Below the smallest positive value there is only zero. *)
Lemma smallest_positive_gap (x : spec_float) (s : bool) :
  valid_binary prec emax x = true ->
  flt x (S754_finite false 1 (emin prec emax)) = true ->
  fle x (S754_zero s) = true.
Proof.
  intros Hx Hlt.
  destruct x as [sx | sx | | sx m' e']; try reflexivity.
  - destruct sx; [reflexivity | discriminate].
  - discriminate.
  - destruct sx; [reflexivity|].
    cbn [valid_binary] in Hx. apply flt_finite in Hlt.
    pose proof (bounded_emin _ _ _ _ Hx). lia.
Qed.

End Successor.

(** ** Rounding to nearest *)

Lemma iter_pos_nat {A : Type} (f : A -> A) (p : positive) : forall x,
  iter_pos f p x = Nat.iter (Pos.to_nat p) f x.
Proof.
  induction p as [p IH | p IH |]; intros x; cbn [iter_pos].
  - rewrite !IH. rewrite Pos2Nat.inj_xI.
    replace (S (2 * Pos.to_nat p))%nat with (Pos.to_nat p + (Pos.to_nat p + 1))%nat by lia.
    rewrite !Nat.iter_add. reflexivity.
  - rewrite !IH. rewrite Pos2Nat.inj_xO.
    replace (2 * Pos.to_nat p)%nat with (Pos.to_nat p + Pos.to_nat p)%nat by lia.
    rewrite Nat.iter_add. reflexivity.
  - reflexivity.
Qed.

Lemma shr_1_spec (z : Z) (r s : bool) :
  0 <= z ->
  shr_1 {| shr_m := z; shr_r := r; shr_s := s |} =
    {| shr_m := z / 2; shr_r := Z.odd z; shr_s := r || s |}.
Proof.
  intros Hz. destruct z as [|p|p]; try lia.
  - reflexivity.
  - destruct p as [p|p|]; cbn [shr_1].
    + f_equal. apply Z.div_unique with (r := 1); lia.
    + f_equal. apply Z.div_unique with (r := 0); lia.
    + reflexivity.
Qed.

Lemma shr_1_shifted (z j : Z) :
  0 <= z -> 0 < j -> shr_1 (shifted_record z j) = shifted_record z (j + 1).
Proof.
  intros Hz Hj. unfold shifted_record.
  pose proof (pow2_pos (j - 1) ltac:(lia)) as H1.
  pose proof (pow2_pos j ltac:(lia)) as H2.
  rewrite shr_1_spec by (apply Z.div_pos; lia).
  replace (j + 1 - 1) with j by lia.
  f_equal.
  - rewrite Z.pow_add_r, Z.pow_1_r by lia.
    rewrite Z.div_div by lia. reflexivity.
  - (* a digit was lost by [j] exactly when the remainder modulo [2 ^ j] is not 0 *)
    assert (Hj2 : 2 ^ j = 2 ^ (j - 1) * 2).
    { rewrite (pow2_double j) by lia. ring. }
    assert (Hmod : z mod 2 ^ j = 2 ^ (j - 1) * ((z / 2 ^ (j - 1)) mod 2) + z mod 2 ^ (j - 1)).
    { rewrite Hj2. rewrite Z.rem_mul_r by lia. lia. }
    rewrite Hmod.
    pose proof (Z.mod_pos_bound z (2 ^ (j - 1)) H1) as Hb.
    rewrite Zmod_odd.
    destruct (Z.odd (z / 2 ^ (j - 1))); cbn [orb negb].
    + symmetry. apply negb_true_iff, Z.eqb_neq. lia.
    + rewrite Z.mul_0_r, Z.add_0_l. reflexivity.
Qed.

Lemma iter_shr_1 (z : Z) (n : nat) :
  0 <= z ->
  Nat.iter (S n) shr_1 (exact_record z) = shifted_record z (Z.of_nat (S n)).
Proof.
  intros Hz. induction n as [|n IH].
  - cbn [Nat.iter]. unfold exact_record. rewrite shr_1_spec by lia.
    unfold shifted_record. cbn [Z.of_nat Pos.of_succ_nat].
    replace (1 - 1) with 0 by lia. rewrite Z.pow_0_r, Z.pow_1_r, Z.div_1_r, Z.mod_1_r.
    reflexivity.
  - change (Nat.iter (S (S n)) shr_1 (exact_record z))
      with (shr_1 (Nat.iter (S n) shr_1 (exact_record z))).
    rewrite IH, shr_1_shifted by lia. f_equal. lia.
Qed.

Lemma shr_shifted (z e k : Z) :
  0 <= z -> 0 < k ->
  shr (exact_record z) e k = (shifted_record z k, e + k).
Proof.
  intros Hz Hk. destruct k as [|p|p]; try lia. cbn [shr].
  rewrite iter_pos_nat.
  destruct (Pos.to_nat p) as [|n] eqn:E; [lia|].
  rewrite iter_shr_1 by lia. do 2 f_equal. lia.
Qed.

Lemma round_shifted (z k : Z) :
  round_nearest_even (shr_m (shifted_record z k))
    (loc_of_shr_record (shifted_record z k)) = rounded z k.
Proof.
  unfold shifted_record, rounded. cbn [shr_m loc_of_shr_record].
  destruct (Z.odd (z / 2 ^ (k - 1))), (z mod 2 ^ (k - 1) =? 0);
    cbn [negb andb orb round_nearest_even];
    try reflexivity.
  rewrite <- Z.negb_odd.
  destruct (Z.odd (z / 2 ^ k)); reflexivity.
Qed.

Lemma rounded_bounds (z k : Z) :
  z / 2 ^ k <= rounded z k <= z / 2 ^ k + 1.
Proof.
  unfold rounded.
  destruct (Z.odd (z / 2 ^ (k - 1)) &&
            (negb (z mod 2 ^ (k - 1) =? 0) || Z.odd (z / 2 ^ k))); lia.
Qed.

Lemma rounded_down (z k : Z) :
  Z.odd (z / 2 ^ (k - 1)) = false -> rounded z k = z / 2 ^ k.
Proof. intros H. unfold rounded. now rewrite H. Qed.

Section Rounding.

Variables prec emax : Z.
Hypothesis Hprec : 1 < prec.
Hypothesis Hemax : 2 < emax.

Lemma rounded_float_finite (s : bool) (q : positive) (t : Z) :
  Z.pos q < 2 ^ prec -> t <= emax - prec ->
  rounded_float prec emax s (Z.pos q) t = S754_finite s q t.
Proof.
  intros Hq Ht. unfold rounded_float.
  destruct (Z.eqb_spec (Z.pos q) (2 ^ prec)); [lia|].
  destruct (Z.leb_spec t (emax - prec)); [reflexivity | lia].
Qed.

(** Rounding [m * 2 ^ ex] when the canonical exponent [t] is above [ex]: the
    significand is shifted right by [t - ex] digits and rounded to nearest,
    ties to even. *)
Lemma binary_round_aux_rounded (s : bool) (m : positive) (ex : Z) :
  let t := fexp prec emax (Z.pos (digits2_pos m) + ex) in
  ex < t ->
  binary_round_aux prec emax s (Z.pos m) ex loc_Exact =
    rounded_float prec emax s (rounded (Z.pos m) (t - ex)) t /\
  0 <= rounded (Z.pos m) (t - ex) <= 2 ^ prec.
Proof.
  intros t Hk.
  pose proof (digits_bounds m) as [Hdl Hdu].
  set (d := Z.pos (digits2_pos m)) in *.
  assert (Hd : 0 < d) by (unfold d; lia).
  set (k := t - ex) in *.
  assert (Hk0 : 0 < k) by (unfold k; lia).
  assert (Ht : t = Z.max (d + ex - prec) (emin prec emax)) by reflexivity.
  pose proof (pow2_pos k ltac:(lia)) as H2k.
  pose proof (pow2_pos prec ltac:(lia)) as H2p.
  pose proof (pow2_pos (prec - 1) ltac:(lia)) as H2p1.
  pose proof (pow2_double prec ltac:(lia)) as Hpp.
  pose proof (rounded_bounds (Z.pos m) k) as [Hr1 Hr2].
  set (q := Z.pos m / 2 ^ k) in *.
  set (m1 := rounded (Z.pos m) k) in *.
  assert (Hq0 : 0 <= q) by (apply Z.div_pos; lia).
  (* the quotient has at most [prec] digits, exactly [prec] above [emin] *)
  assert (Hqu : q < 2 ^ prec /\ (emin prec emax < t -> 2 ^ (prec - 1) <= q) /\
                (t = emin prec emax -> d + ex - prec < emin prec emax -> q < 2 ^ (prec - 1))).
  { split; [|split].
    - apply Z.div_lt_upper_bound; [lia|].
      rewrite <- Z.pow_add_r by lia.
      apply Z.lt_le_trans with (2 ^ d); [lia|].
      apply Z.pow_le_mono_r; lia.
    - intros Hn. assert (Hkd : k = d - prec) by lia.
      apply Z.div_le_lower_bound; [lia|].
      rewrite Z.mul_comm, <- Z.pow_add_r by lia.
      replace (prec - 1 + k) with (d - 1) by lia. exact Hdl.
    - intros Hs Hlt.
      apply Z.div_lt_upper_bound; [lia|].
      rewrite <- Z.pow_add_r by lia.
      apply Z.lt_le_trans with (2 ^ d); [lia|].
      apply Z.pow_le_mono_r; lia. }
  destruct Hqu as [Hq1 [Hq2 Hq3]].
  split; [|lia].
  unfold binary_round_aux, shr_fexp. cbn [Zdigits2 shr_record_of_loc].
  fold d. fold t. fold k.
  change {| shr_m := Z.pos m; shr_r := false; shr_s := false |}
    with (exact_record (Z.pos m)).
  rewrite shr_shifted by lia.
  rewrite round_shifted. fold m1.
  replace (ex + k) with t by (unfold k; lia).
  destruct m1 as [|q1|q1] eqn:Em1; try lia.
  - (* rounded to zero *)
    cbn [Zdigits2 shr_record_of_loc Z.add].
    assert (Hz : fexp prec emax t - t <= 0) by (unfold fexp; lia).
    destruct (fexp prec emax t - t) as [|z|z] eqn:Ez; try lia; reflexivity.
  - cbn [Zdigits2 shr_record_of_loc].
    unfold rounded_float.
    destruct (Z.eqb_spec (Z.pos q1) (2 ^ prec)) as [Hcarry | Hno].
    + (* the significand reached [2 ^ prec] *)
      assert (Hdq : Z.pos (digits2_pos q1) = prec + 1).
      { apply digits_unique. replace (prec + 1 - 1) with prec by lia.
        rewrite Hcarry. split; [lia|].
        rewrite Z.pow_add_r, Z.pow_1_r by lia. lia. }
      assert (Hnorm : emin prec emax < t \/ t = emin prec emax) by lia.
      assert (Htn : d + ex - prec >= emin prec emax).
      { destruct (Z.lt_ge_cases (d + ex - prec) (emin prec emax)) as [Hlt | Hge]; [|lia].
        assert (t = emin prec emax) by lia.
        specialize (Hq3 H Hlt). lia. }
      rewrite Hdq.
      assert (Hf : fexp prec emax (prec + 1 + t) - t = 1) by (unfold fexp; lia).
      rewrite Hf.
      change {| shr_m := Z.pos q1; shr_r := false; shr_s := false |}
        with (exact_record (Z.pos q1)).
      replace (Z.pos q1) with (2 ^ (prec - 1) * 2 ^ 1)
        by (rewrite Hcarry, Z.pow_1_r; lia).
      rewrite shr_exact by lia. cbn [exact_record shr_m].
      destruct (2 ^ (prec - 1)) as [|w|w] eqn:Ew; try lia.
      assert (Hw : w = pow2 (prec - 1)).
      { apply Pos2Z.inj. rewrite pow2_spec by lia. lia. }
      now rewrite Hw.
    + assert (Hlt : Z.pos q1 < 2 ^ prec) by lia.
      assert (Hf : fexp prec emax (Z.pos (digits2_pos q1) + t) = t).
      { pose proof (digits_bounds q1) as [Hl1 Hu1].
        assert (Hd1 : Z.pos (digits2_pos q1) <= prec) by (apply digits_below; lia).
        destruct (Z.lt_ge_cases (emin prec emax) t) as [Hn | Hs].
        - specialize (Hq2 Hn).
          assert (prec - 1 < Z.pos (digits2_pos q1)).
          { apply pow2_lt_inv; [lia|].
            apply Z.le_lt_trans with (Z.pos q1); lia. }
          unfold fexp. lia.
        - unfold fexp. lia. }
      rewrite Hf, Z.sub_diag. cbn [shr shr_m]. reflexivity.
Qed.

End Rounding.

Section Below.

Variables prec emax : Z.
Hypothesis Hprec : 1 < prec.
Hypothesis Hemax : 2 < emax.

(** Rounding to nearest does not go above a value [M * 2 ^ E] of the format
    when the exact value [m * 2 ^ ex] is below the midpoint that follows it.
    The two are compared at a common exponent [lo]. *)
Lemma round_below (m M : positive) (ex E lo : Z) :
  bounded prec emax M E = true ->
  ex <= fexp prec emax (Z.pos (digits2_pos m) + ex) ->
  lo <= ex -> lo <= E ->
  2 * Z.pos m * 2 ^ (ex - lo) < (2 * Z.pos M + 1) * 2 ^ (E - lo) ->
  fle (binary_round_aux prec emax false (Z.pos m) ex loc_Exact)
      (S754_finite false M E) = true.
Proof.
  intros Hb Hk Hlo1 Hlo2 Hlt.
  pose proof (bounded_spec _ _ _ _ Hb) as [Hc HE].
  pose proof (bounded_mantissa prec emax ltac:(lia) M E Hb) as HM.
  pose proof (digits_bounds m) as [Hdl Hdu].
  pose proof (digits_bounds M) as [HBl HBu].
  set (d := Z.pos (digits2_pos m)) in *.
  set (dB := Z.pos (digits2_pos M)) in *.
  assert (Hd : 0 < d) by (unfold d; lia).
  assert (HdB : 0 < dB) by (unfold dB; lia).
  set (t := fexp prec emax (d + ex)) in *.
  assert (Ht : t = Z.max (d + ex - prec) (emin prec emax)) by reflexivity.
  pose proof (pow2_pos (ex - lo) ltac:(lia)) as Ha.
  pose proof (pow2_pos (E - lo) ltac:(lia)) as Hb'.
  pose proof (pow2_pos prec ltac:(lia)) as H2p.
  pose proof (pow2_pos (prec - 1) ltac:(lia)) as H2p1.
  pose proof (pow2_double prec ltac:(lia)) as Hpp.
  (* the exact value has no more digits than the bound *)
  assert (Hdd : d + ex <= dB + E).
  { assert (H1 : 2 ^ (d - 1) * 2 ^ (ex - lo) < 2 ^ dB * 2 ^ (E - lo)) by nia.
    rewrite <- !Z.pow_add_r in H1 by lia.
    apply pow2_lt_inv in H1; lia. }
  assert (HtE : t <= E) by lia.
  destruct (Z.eq_dec t ex) as [Hex | Hne].
  - (* nothing to round *)
    rewrite (binary_round_aux_exact prec emax false m m ex 0);
      rewrite ?Z.add_0_r; try lia.
    + destruct (Z.leb_spec ex (emax - prec)); [|lia].
      apply fle_finite.
      destruct (Z.eq_dec ex E) as [HeE | HnE]; [right | left; lia].
      split; [exact HeE|]. subst E. nia.
    + fold d. fold t. lia.
  - assert (Hlt0 : ex < t) by lia.
    destruct (binary_round_aux_rounded prec emax Hprec false m ex Hlt0)
      as [Hr [Hm0 Hm1]].
    fold d in Hr, Hm0, Hm1. fold t in Hr, Hm0, Hm1.
    rewrite Hr.
    set (k := t - ex) in *.
    pose proof (pow2_pos k ltac:(lia)) as H2k.
    pose proof (pow2_pos (k - 1) ltac:(lia)) as H2k1.
    pose proof (rounded_bounds (Z.pos m) k) as [Hq1 Hq2].
    destruct (Z.eq_dec t E) as [HtEq | HtLt].
    + (* same exponent as the bound *)
      assert (Hh : Z.pos m / 2 ^ (k - 1) <= 2 * Z.pos M).
      { assert (Hm2 : Z.pos m < (2 * Z.pos M + 1) * 2 ^ (k - 1)).
        { assert (He : E - lo = (ex - lo) + k) by lia.
          rewrite He, Z.pow_add_r in Hlt by lia.
          rewrite (pow2_double k) in Hlt by lia. nia. }
        assert (Z.pos m / 2 ^ (k - 1) < 2 * Z.pos M + 1)
          by (apply Z.div_lt_upper_bound; lia).
        lia. }
      assert (Hqh : Z.pos m / 2 ^ k = (Z.pos m / 2 ^ (k - 1)) / 2).
      { rewrite Z.div_div by lia. f_equal.
        rewrite (pow2_double k) by lia. ring. }
      assert (Hle : rounded (Z.pos m) k <= Z.pos M).
      { destruct (Z.odd (Z.pos m / 2 ^ (k - 1))) eqn:Eo.
        - rewrite Hqh in Hq2.
          assert (Z.pos m / 2 ^ (k - 1) <> 2 * Z.pos M).
          { intros Heq. rewrite Heq, Z.odd_mul in Eo. discriminate. }
          assert ((Z.pos m / 2 ^ (k - 1)) / 2 < Z.pos M)
            by (apply Z.div_lt_upper_bound; lia).
          lia.
        - rewrite (rounded_down _ _ Eo), Hqh.
          apply Z.div_le_upper_bound; lia. }
      destruct (rounded (Z.pos m) k) as [|q1|q1] eqn:Er; try lia.
      * reflexivity.
      * rewrite rounded_float_finite by lia.
        apply fle_finite. right. split; [exact HtEq | lia].
    + (* a smaller exponent *)
      assert (Hlt1 : t < E) by lia.
      assert (HMn : 2 ^ (prec - 1) <= Z.pos M).
      { apply (bounded_normal prec emax ltac:(lia) M E Hb). unfold emin in *. lia. }
      destruct (rounded (Z.pos m) k) as [|q1|q1] eqn:Er; try lia.
      * reflexivity.
      * unfold rounded_float.
        destruct (Z.eqb_spec (Z.pos q1) (2 ^ prec)) as [Hcarry | Hno].
        -- destruct (Z.leb_spec (t + 1) (emax - prec)); [|lia].
           apply fle_finite. rewrite pow2_spec by lia. lia.
        -- destruct (Z.leb_spec t (emax - prec)); [|lia].
           apply fle_finite. lia.
Qed.

End Below.

Lemma digits_mul_lower (a b : positive) :
  Z.pos (digits2_pos a) + Z.pos (digits2_pos b) - 1 <= Z.pos (digits2_pos (a * b)).
Proof.
  pose proof (digits_bounds a) as [Ha _].
  pose proof (digits_bounds b) as [Hb _].
  pose proof (digits_bounds (a * b)) as [_ Hab].
  set (da := Z.pos (digits2_pos a)) in *.
  set (db := Z.pos (digits2_pos b)) in *.
  assert (0 < da) by (unfold da; lia).
  assert (0 < db) by (unfold db; lia).
  pose proof (pow2_pos (da - 1) ltac:(lia)).
  pose proof (pow2_pos (db - 1) ltac:(lia)).
  assert (Hlt : 2 ^ (da - 1 + (db - 1)) < 2 ^ Z.pos (digits2_pos (a * b))).
  { rewrite Z.pow_add_r by lia. rewrite Pos2Z.inj_mul in Hab. nia. }
  apply pow2_lt_inv in Hlt; lia.
Qed.

Section Products.

Variables prec emax : Z.
Hypothesis Hprec : 1 < prec.
Hypothesis Hemax : 2 < emax.

(** A value of the format below 1 is at most [1 - 2 ^ (- prec)], the value
    before 1. *)
Lemma below_one (m : positive) (e : Z) :
  bounded prec emax m e = true ->
  flt (S754_finite false m e) (SFone prec emax) = true ->
  e < 0 /\ Z.pos m * 2 ^ prec <= (2 ^ prec - 1) * 2 ^ (- e).
Proof.
  intros Hb Hlt.
  pose proof (bounded_mantissa prec emax ltac:(lia) m e Hb) as Hm.
  rewrite (SFone_eq prec emax Hprec Hemax) in Hlt.
  apply flt_finite in Hlt. rewrite pow2_spec in Hlt by lia.
  pose proof (pow2_pos prec ltac:(lia)) as H2p.
  pose proof (pow2_double prec ltac:(lia)) as Hpp.
  split; [lia|].
  destruct Hlt as [He | [He Hm1]].
  - assert (Hs : 2 ^ (- e) = 2 ^ prec * 2 ^ (- e - prec))
      by (rewrite <- Z.pow_add_r by lia; f_equal; lia).
    pose proof (pow2_pos (- e - prec) ltac:(lia)).
    rewrite Hs. nia.
  - replace (- e) with (prec - 1) by lia. nia.
Qed.

(** The product of a value below 1 and a value of the format is rounded by a
    right shift, or not at all. *)
Lemma product_exponent (mc M : positive) (ec E : Z) :
  bounded prec emax mc ec = true -> bounded prec emax M E = true -> ec < 0 ->
  ec + E <= fexp prec emax (Z.pos (digits2_pos (mc * M)) + (ec + E)).
Proof.
  intros Hc HB Hec.
  pose proof (bounded_spec _ _ _ _ HB) as [HcB _].
  pose proof (digits_mul_lower mc M) as Hd.
  assert (0 < Z.pos (digits2_pos mc)) by lia.
  unfold fexp, emin in *. lia.
Qed.

(** Multiplying by 1 changes nothing. *)
Lemma SFmul_one (s : bool) (m : positive) (e : Z) :
  bounded prec emax m e = true ->
  SFmul prec emax (S754_finite s m e) (SFone prec emax) = S754_finite s m e.
Proof.
  intros Hb.
  pose proof (bounded_spec _ _ _ _ Hb) as [Hc He].
  rewrite (SFone_eq prec emax Hprec Hemax). cbn [SFmul].
  rewrite xorb_false_r.
  rewrite (binary_round_aux_exact prec emax s m (m * pow2 (prec - 1))
             (e + (1 - prec)) (prec - 1)).
  - replace (e + (1 - prec) + (prec - 1)) with e by lia.
    destruct (Z.leb_spec e (emax - prec)); [reflexivity | lia].
  - lia.
  - rewrite Pos2Z.inj_mul, pow2_spec by lia. reflexivity.
  - replace (e + (1 - prec) + (prec - 1)) with e by lia.
    now apply fexp_canonical.
Qed.

(** The product of a value [c] below 1 and a positive value [B] of the format,
    rounded, is at most [B]. *)
Lemma SFmul_below (mc M : positive) (ec E : Z) :
  bounded prec emax mc ec = true -> bounded prec emax M E = true ->
  flt (S754_finite false mc ec) (SFone prec emax) = true ->
  fle (SFmul prec emax (S754_finite false mc ec) (S754_finite false M E))
      (S754_finite false M E) = true.
Proof.
  intros Hc HB Hlt.
  destruct (below_one mc ec Hc Hlt) as [Hec Hle].
  cbn [SFmul xorb].
  apply (round_below prec emax Hprec Hemax (mc * M) M (ec + E) E (ec + E)); trivial.
  - now apply product_exponent.
  - lia.
  - lia.
  - rewrite Z.sub_diag, Z.pow_0_r, Z.mul_1_r.
    replace (E - (ec + E)) with (- ec) by lia.
    pose proof (pow2_pos prec ltac:(lia)) as H2p.
    pose proof (pow2_pos (- ec) ltac:(lia)) as H2e.
    rewrite Pos2Z.inj_mul.
    assert (Hmc : Z.pos mc < 2 ^ (- ec)) by nia.
    nia.
Qed.

(** When [B] has a significand above [2 ^ (prec - 1)], the product stays at or
    below the value before [B]. *)
Lemma SFmul_below_pred (mc M P : positive) (ec E : Z) :
  bounded prec emax mc ec = true -> bounded prec emax M E = true ->
  flt (S754_finite false mc ec) (SFone prec emax) = true ->
  2 ^ (prec - 1) < Z.pos M -> Z.pos P = Z.pos M - 1 ->
  bounded prec emax P E = true /\
  fle (SFmul prec emax (S754_finite false mc ec) (S754_finite false M E))
      (S754_finite false P E) = true.
Proof.
  intros Hc HB Hlt HM HP.
  destruct (below_one mc ec Hc Hlt) as [Hec Hle].
  pose proof (bounded_spec _ _ _ _ HB) as [HcB HE].
  pose proof (bounded_mantissa prec emax ltac:(lia) M E HB) as HMu.
  pose proof (pow2_pos prec ltac:(lia)) as H2p.
  pose proof (pow2_double prec ltac:(lia)) as Hpp.
  assert (HdM : Z.pos (digits2_pos M) = prec) by (apply digits_unique; lia).
  assert (HdP : Z.pos (digits2_pos P) = prec) by (apply digits_unique; lia).
  assert (HbP : bounded prec emax P E = true).
  { apply bounded_intro; [|exact HE]. rewrite HdP. rewrite HdM in HcB. exact HcB. }
  split; [exact HbP|].
  cbn [SFmul xorb].
  apply (round_below prec emax Hprec Hemax (mc * M) P (ec + E) E (ec + E)); trivial.
  - now apply product_exponent.
  - lia.
  - lia.
  - rewrite Z.sub_diag, Z.pow_0_r, Z.mul_1_r.
    replace (E - (ec + E)) with (- ec) by lia.
    pose proof (pow2_pos (- ec) ltac:(lia)) as H2e.
    rewrite Pos2Z.inj_mul, HP.
    assert (H1 : 2 * Z.pos mc * Z.pos M * 2 ^ prec <=
                 2 * Z.pos M * ((2 ^ prec - 1) * 2 ^ (- ec))) by nia.
    assert (H2 : 2 * Z.pos M * ((2 ^ prec - 1) * 2 ^ (- ec)) <
                 (2 * (Z.pos M - 1) + 1) * 2 ^ (- ec) * 2 ^ prec) by nia.
    nia.
Qed.

(** When [B] starts a binade, the product stays at or below the last value of
    the binade before. *)
Lemma SFmul_below_binade (mc P : positive) (ec E : Z) :
  bounded prec emax mc ec = true ->
  bounded prec emax (pow2 (prec - 1)) E = true ->
  flt (S754_finite false mc ec) (SFone prec emax) = true ->
  emin prec emax < E -> Z.pos P = 2 ^ prec - 1 ->
  bounded prec emax P (E - 1) = true /\
  fle (SFmul prec emax (S754_finite false mc ec)
         (S754_finite false (pow2 (prec - 1)) E))
      (S754_finite false P (E - 1)) = true.
Proof.
  intros Hc HB Hlt HE1 HP.
  destruct (below_one mc ec Hc Hlt) as [Hec Hle].
  pose proof (bounded_spec _ _ _ _ HB) as [HcB HE].
  pose proof (pow2_pos prec ltac:(lia)) as H2p.
  pose proof (pow2_pos (prec - 1) ltac:(lia)) as H2p1.
  pose proof (pow2_double prec ltac:(lia)) as Hpp.
  assert (HdP : Z.pos (digits2_pos P) = prec) by (apply digits_unique; lia).
  assert (HbP : bounded prec emax P (E - 1) = true).
  { apply bounded_intro; [|lia]. rewrite HdP. unfold emin in *. lia. }
  split; [exact HbP|].
  cbn [SFmul xorb].
  apply (round_below prec emax Hprec Hemax (mc * pow2 (prec - 1)) P
           (ec + E) (E - 1) (ec + E)); trivial.
  - now apply product_exponent.
  - lia.
  - lia.
  - rewrite Z.sub_diag, Z.pow_0_r, Z.mul_1_r.
    replace (E - 1 - (ec + E)) with (- ec - 1) by lia.
    pose proof (pow2_pos (- ec - 1) ltac:(lia)) as H2e.
    pose proof (pow2_double (- ec) ltac:(lia)) as Hee.
    rewrite Pos2Z.inj_mul, pow2_spec, HP by lia.
    nia.
Qed.

End Products.

Section Largest.

Variables prec emax : Z.
Hypothesis Hprec : 1 < prec.
Hypothesis Hemax : 2 < emax.

(** The rounded product of a value below 1 and a positive value is [+0], a
    positive finite value, or infinity. *)
Lemma SFmul_below_forms (mc M : positive) (ec E : Z) :
  bounded prec emax mc ec = true -> bounded prec emax M E = true -> ec < 0 ->
  let y := SFmul prec emax (S754_finite false mc ec) (S754_finite false M E) in
  y = S754_zero false \/ y = S754_infinity false \/
  exists q t, y = S754_finite false q t.
Proof.
  intros Hc HB Hec y. unfold y. cbn [SFmul xorb].
  pose proof (product_exponent prec emax mc M ec E Hc HB Hec) as Hk.
  set (t := fexp prec emax (Z.pos (digits2_pos (mc * M)) + (ec + E))) in *.
  destruct (Z.eq_dec t (ec + E)) as [Heq | Hne].
  - rewrite (binary_round_aux_exact prec emax false (mc * M) (mc * M) (ec + E) 0);
      rewrite ?Z.add_0_r; try lia.
    destruct (ec + E <=? emax - prec); eauto.
  - destruct (binary_round_aux_rounded prec emax Hprec false (mc * M) (ec + E))
      as [Hr [Hm0 Hm1]]; [fold t; lia|].
    fold t in Hr, Hm0, Hm1. rewrite Hr. unfold rounded_float.
    destruct (rounded (Z.pos (mc * M)) (t - (ec + E))) as [|q|q]; try lia.
    + now left.
    + destruct (Z.pos q =? 2 ^ prec).
      * destruct (t + 1 <=? emax - prec); eauto.
      * destruct (t <=? emax - prec); eauto.
Qed.

(** The largest value below 1, times a value whose significand is above
    [2 ^ (prec - 1)]: the value before. *)
Lemma SFmul_largest_pred (P1 M P : positive) (E : Z) :
  Z.pos P1 = 2 ^ prec - 1 -> bounded prec emax M E = true ->
  2 ^ (prec - 1) < Z.pos M -> Z.pos P = Z.pos M - 1 ->
  SFmul prec emax (S754_finite false P1 (- prec)) (S754_finite false M E) =
    S754_finite false P E.
Proof.
  intros HP1 HB HM HP.
  pose proof (bounded_spec _ _ _ _ HB) as [HcB HE].
  pose proof (bounded_mantissa prec emax ltac:(lia) M E HB) as HMu.
  pose proof (pow2_pos prec ltac:(lia)) as H2p.
  pose proof (pow2_pos (prec - 1) ltac:(lia)) as H2p1.
  pose proof (pow2_double prec ltac:(lia)) as Hpp.
  assert (HdM : Z.pos (digits2_pos M) = prec) by (apply digits_unique; lia).
  assert (Hprod : Z.pos (P1 * M) = (Z.pos M - 1) * 2 ^ prec + (2 ^ prec - Z.pos M))
    by (rewrite Pos2Z.inj_mul, HP1; ring).
  assert (Hd : Z.pos (digits2_pos (P1 * M)) = prec + prec).
  { apply digits_unique. rewrite Hprod.
    replace (prec + prec - 1) with (prec - 1 + prec) by lia.
    rewrite !Z.pow_add_r by lia. nia. }
  cbn [SFmul xorb].
  destruct (binary_round_aux_rounded prec emax Hprec false (P1 * M) (- prec + E))
    as [Hr _].
  { rewrite Hd. unfold fexp, emin in *. lia. }
  rewrite Hr, Hd.
  assert (Ht : fexp prec emax (prec + prec + (- prec + E)) = E)
    by (unfold fexp, emin in *; lia).
  rewrite Ht. replace (E - (- prec + E)) with prec by lia.
  assert (Hq : Z.pos (P1 * M) / 2 ^ prec = Z.pos M - 1).
  { symmetry. apply Z.div_unique with (r := 2 ^ prec - Z.pos M); [lia|].
    rewrite Hprod. ring. }
  assert (Hh : Z.pos (P1 * M) / 2 ^ (prec - 1) = 2 * (Z.pos M - 1)).
  { symmetry. apply Z.div_unique with (r := 2 ^ prec - Z.pos M); [lia|].
    rewrite Hprod, Hpp. ring. }
  rewrite rounded_down by (rewrite Hh, Z.odd_mul; reflexivity).
  rewrite Hq, <- HP.
  apply rounded_float_finite; lia.
Qed.

(** The largest value below 1, times the first value of a binade: the last
    value of the binade before. *)
Lemma SFmul_largest_binade (P1 : positive) (E : Z) :
  Z.pos P1 = 2 ^ prec - 1 ->
  bounded prec emax (pow2 (prec - 1)) E = true -> emin prec emax < E ->
  SFmul prec emax (S754_finite false P1 (- prec))
    (S754_finite false (pow2 (prec - 1)) E) = S754_finite false P1 (E - 1).
Proof.
  intros HP1 HB HE1.
  pose proof (bounded_spec _ _ _ _ HB) as [HcB HE].
  pose proof (pow2_pos prec ltac:(lia)) as H2p.
  pose proof (pow2_pos (prec - 1) ltac:(lia)) as H2p1.
  pose proof (pow2_double prec ltac:(lia)) as Hpp.
  assert (HdP : Z.pos (digits2_pos P1) = prec) by (apply digits_unique; lia).
  cbn [SFmul xorb].
  rewrite (binary_round_aux_exact prec emax false P1 (P1 * pow2 (prec - 1))
             (- prec + E) (prec - 1)).
  - replace (- prec + E + (prec - 1)) with (E - 1) by lia.
    destruct (Z.leb_spec (E - 1) (emax - prec)); [reflexivity | lia].
  - lia.
  - rewrite Pos2Z.inj_mul, pow2_spec by lia. reflexivity.
  - replace (- prec + E + (prec - 1)) with (E - 1) by lia.
    rewrite HdP. unfold fexp, emin in *. lia.
Qed.

(** A value below 1 times the smallest positive value rounds to zero or to the
    smallest positive value. *)
Lemma SFmul_smallest (mc : positive) (ec : Z) :
  bounded prec emax mc ec = true ->
  flt (S754_finite false mc ec) (SFone prec emax) = true ->
  let y := SFmul prec emax (S754_finite false mc ec)
             (S754_finite false 1 (emin prec emax)) in
  y = S754_zero false \/ y = S754_finite false 1 (emin prec emax).
Proof.
  intros Hc Hlt y. unfold y.
  destruct (below_one prec emax Hprec Hemax mc ec Hc Hlt) as [Hec Hle].
  pose proof (pow2_pos prec ltac:(lia)) as H2p.
  pose proof (pow2_pos (- ec) ltac:(lia)) as H2e.
  assert (Hmc : Z.pos mc < 2 ^ (- ec)) by nia.
  assert (Hdc : Z.pos (digits2_pos mc) <= - ec) by (apply digits_below; lia).
  cbn [SFmul xorb]. rewrite Pos.mul_1_r.
  destruct (binary_round_aux_rounded prec emax Hprec false mc (ec + emin prec emax))
    as [Hr _].
  { unfold fexp. lia. }
  rewrite Hr.
  assert (Ht : fexp prec emax (Z.pos (digits2_pos mc) + (ec + emin prec emax)) =
               emin prec emax) by (unfold fexp; lia).
  rewrite Ht. replace (emin prec emax - (ec + emin prec emax)) with (- ec) by lia.
  pose proof (rounded_bounds (Z.pos mc) (- ec)) as [Hq1 Hq2].
  rewrite Z.div_small in Hq1, Hq2 by lia.
  assert (Hcases : rounded (Z.pos mc) (- ec) = 0 \/ rounded (Z.pos mc) (- ec) = 1)
    by lia.
  destruct Hcases as [-> | ->]; [now left | right].
  pose proof (pow2_pos (prec - 1) ltac:(lia)) as H2p1.
  pose proof (pow2_double prec ltac:(lia)) as Hpp.
  apply rounded_float_finite; unfold emin; lia.
Qed.

(** The largest value below 1 times the smallest positive value rounds up to
    the smallest positive value. *)
Lemma SFmul_largest_smallest (P1 : positive) :
  Z.pos P1 = 2 ^ prec - 1 ->
  SFmul prec emax (S754_finite false P1 (- prec))
    (S754_finite false 1 (emin prec emax)) = S754_finite false 1 (emin prec emax).
Proof.
  intros HP1.
  pose proof (pow2_pos prec ltac:(lia)) as H2p.
  pose proof (pow2_pos (prec - 1) ltac:(lia)) as H2p1.
  pose proof (pow2_double prec ltac:(lia)) as Hpp.
  assert (H2 : 2 <= 2 ^ (prec - 1)).
  { change 2 with (2 ^ 1) at 1. apply Z.pow_le_mono_r; lia. }
  assert (HdP : Z.pos (digits2_pos P1) = prec) by (apply digits_unique; lia).
  cbn [SFmul xorb]. rewrite Pos.mul_1_r.
  destruct (binary_round_aux_rounded prec emax Hprec false P1 (- prec + emin prec emax))
    as [Hr _].
  { rewrite HdP. unfold fexp. lia. }
  rewrite Hr, HdP.
  assert (Ht : fexp prec emax (prec + (- prec + emin prec emax)) = emin prec emax)
    by (unfold fexp; lia).
  rewrite Ht. replace (emin prec emax - (- prec + emin prec emax)) with prec by lia.
  assert (Hv : rounded (Z.pos P1) prec = 1).
  { unfold rounded.
    assert (Hq : Z.pos P1 / 2 ^ prec = 0) by (apply Z.div_small; lia).
    assert (Hh : Z.pos P1 / 2 ^ (prec - 1) = 1).
    { symmetry. apply Z.div_unique with (r := 2 ^ (prec - 1) - 1); lia. }
    assert (Hm : Z.pos P1 mod 2 ^ (prec - 1) = 2 ^ (prec - 1) - 1).
    { symmetry. apply Z.mod_unique with (q := 1); lia. }
    rewrite Hq, Hh, Hm.
    destruct (Z.eqb_spec (2 ^ (prec - 1) - 1) 0); [lia | reflexivity]. }
  rewrite Hv. apply rounded_float_finite; unfold emin; lia.
Qed.

End Largest.

(* ================================================================== *)
(** * The three floating-point types *)
(* ================================================================== *)

Lemma prec_pos (T : FloatType) : 0 < prec T.
Proof. now destruct T. Qed.

Lemma prec_gt_1 (T : FloatType) : 1 < prec T.
Proof. now destruct T. Qed.

Lemma emax_gt_2 (T : FloatType) : 2 < emax T.
Proof. now destruct T. Qed.

Lemma fone_representable (T : FloatType) : representable T (fone T) = true.
Proof. destruct T; vm_compute; reflexivity. Qed.

Lemma fone_positive (T : FloatType) : flt fzero (fone T) = true.
Proof. destruct T; vm_compute; reflexivity. Qed.

Lemma max_representable (T : FloatType) :
  representable T (numeric_limits_max T) = true.
Proof. destruct T; vm_compute; reflexivity. Qed.

Lemma max_positive (T : FloatType) : flt fzero (numeric_limits_max T) = true.
Proof. destruct T; vm_compute; reflexivity. Qed.

Lemma max_finite (T : FloatType) : is_finite (numeric_limits_max T) = true.
Proof. destruct T; vm_compute; reflexivity. Qed.

Lemma fone_below_max (T : FloatType) : flt (fone T) (numeric_limits_max T) = true.
Proof. destruct T; vm_compute; reflexivity. Qed.

Lemma fone_eq (T : FloatType) :
  fone T = S754_finite false (pow2 (prec T - 1)) (1 - prec T).
Proof. apply SFone_eq; [apply prec_gt_1 | apply emax_gt_2]. Qed.

(** The last value of [T] below 1, [nextafter(1, 0)]. *)
Lemma largest_below_one_eq (T : FloatType) :
  nextafter T (fone T) fzero =
    S754_finite false (Z.to_pos (2 ^ prec T - 1)) (- prec T).
Proof. destruct T; reflexivity. Qed.

Lemma largest_below_one_range (T : FloatType) :
  representable T (nextafter T (fone T) fzero) = true /\
  fle fzero (nextafter T (fone T) fzero) = true /\
  flt (nextafter T (fone T) fzero) (fone T) = true.
Proof. destruct T; repeat split; vm_compute; reflexivity. Qed.

Lemma all_ones (T : FloatType) : Z.pos (Z.to_pos (2 ^ prec T - 1)) = 2 ^ prec T - 1.
Proof. now destruct T. Qed.

Lemma fle_below_infinity (x : spec_float) :
  x <> S754_nan -> fle x (S754_infinity false) = true.
Proof.
  destruct x as [s | s | | s m e]; try congruence; intros _;
    try destruct s; reflexivity.
Qed.

(** Every value of [T] is at most [numeric_limits_max T], or infinite. *)
Lemma finite_le_max (T : FloatType) (m : positive) (e : Z) :
  bounded (prec T) (emax T) m e = true ->
  SFcompare (S754_finite false m e) (numeric_limits_max T) = Some Lt \/
  S754_finite false m e = numeric_limits_max T.
Proof.
  intros Hb.
  pose proof (prec_gt_1 T) as Hp. pose proof (emax_gt_2 T) as He.
  pose proof (bounded_mantissa (prec T) (emax T) ltac:(lia) m e Hb) as Hm.
  pose proof (bounded_spec _ _ _ _ Hb) as [_ Hemax].
  unfold numeric_limits_max. rewrite (SFmax_float_eq _ _ Hp).
  assert (H2 : 2 <= 2 ^ prec T).
  { change 2 with (2 ^ 1) at 1. apply Z.pow_le_mono_r; lia. }
  cbn [SFcompare].
  change (Pos.compare_cont Eq m (Z.to_pos (2 ^ prec T - 1)))
    with (Pos.compare m (Z.to_pos (2 ^ prec T - 1))).
  destruct (Z.compare_spec e (emax T - prec T)) as [E | E | E]; [| now left | lia].
  destruct (Pos.compare_spec m (Z.to_pos (2 ^ prec T - 1))) as [M | M | M].
  - right. now rewrite M, E.
  - now left.
  - apply Pos2Z.pos_lt_pos in M. rewrite Z2Pos.id in M by lia. lia.
Qed.

(** The upper bound [nextafter(to, max)] that [uniformf(to)] and [probabilityf]
    hand to the distribution, for [to >= 0]: a finite positive value of [T]
    below which every value of [T] is at most [to]. *)
Lemma nextafter_max_upper (T : FloatType) (to : spec_float) :
  representable T to = true -> fle fzero to = true ->
  representable T (nextafter T to (numeric_limits_max T)) = true /\
  flt fzero (nextafter T to (numeric_limits_max T)) = true /\
  is_finite (nextafter T to (numeric_limits_max T)) = true /\
  (forall x, representable T x = true ->
             flt x (nextafter T to (numeric_limits_max T)) = true ->
             fle x to = true).
Proof.
  intros Hr H0.
  pose proof (prec_gt_1 T) as Hp. pose proof (emax_gt_2 T) as He.
  destruct to as [s | s | | s m e].
  - (* zero: the bound is the smallest positive value *)
    assert (E : nextafter T (S754_zero s) (numeric_limits_max T) =
                S754_finite false 1 (emin (prec T) (emax T))).
    { unfold nextafter, numeric_limits_max.
      rewrite (SFmax_float_eq _ _ Hp). cbn [SFcompare].
      apply SFsucc_zero; assumption. }
    rewrite E. split; [|split; [|split]].
    + apply bounded_intro; cbn [digits2_pos]; unfold emin; lia.
    + reflexivity.
    + reflexivity.
    + intros x Hx Hlt. now apply (smallest_positive_gap (prec T) (emax T)).
  - (* infinity: the bound is the largest finite value *)
    destruct s; [discriminate|].
    assert (E : nextafter T (S754_infinity false) (numeric_limits_max T) =
                numeric_limits_max T).
    { assert (C : SFcompare (S754_infinity false) (numeric_limits_max T) = Some Gt).
      { unfold numeric_limits_max. now rewrite (SFmax_float_eq _ _ Hp). }
      unfold nextafter. rewrite C. reflexivity. }
    rewrite E. split; [|split; [|split]].
    + apply max_representable.
    + apply max_positive.
    + apply max_finite.
    + intros x _ Hlt. apply fle_below_infinity.
      eapply flt_not_nan_l; eassumption.
  - discriminate.
  - destruct s; [discriminate|].
    unfold representable in Hr. cbn [valid_binary] in Hr.
    destruct (finite_le_max T m e Hr) as [Hlt | Heq].
    + (* below the largest value: the bound is the successor *)
      assert (E : nextafter T (S754_finite false m e) (numeric_limits_max T) =
                  succ_finite (prec T) (emax T) m e).
      { unfold nextafter. rewrite Hlt. now apply SFsucc_finite. }
      rewrite E. split; [|split; [|split]].
      * now apply succ_finite_valid.
      * unfold succ_finite.
        destruct (Z.pos m + 1 <? 2 ^ prec T); [reflexivity|].
        destruct (e + 1 <=? emax T - prec T); reflexivity.
      * apply succ_finite_below_max; trivial.
        unfold flt, SFltb. change (SFmax_float (prec T) (emax T))
          with (numeric_limits_max T). now rewrite Hlt.
      * intros x Hx Hxlt. now apply (succ_finite_gap (prec T) (emax T)).
    + (* the largest value: the bound is that value *)
      assert (E : nextafter T (S754_finite false m e) (numeric_limits_max T) =
                  numeric_limits_max T).
      { unfold nextafter. rewrite Heq at 1.
        rewrite SFcompare_refl; [reflexivity|].
        rewrite <- Heq. discriminate. }
      rewrite E. split; [|split; [|split]].
      * apply max_representable.
      * apply max_positive.
      * apply max_finite.
      * intros x _ Hxlt. rewrite Heq. now apply flt_fle.
Qed.

(** Below the largest value the upper bound is the successor of [to], which is
    above [to]. *)
Lemma nextafter_max_successor (T : FloatType) (to : spec_float) :
  representable T to = true -> fle fzero to = true ->
  flt to (numeric_limits_max T) = true ->
  nextafter T to (numeric_limits_max T) = SFsucc (prec T) (emax T) to /\
  flt to (SFsucc (prec T) (emax T) to) = true.
Proof.
  intros Hr H0 Hlt.
  pose proof (prec_gt_1 T) as Hp. pose proof (emax_gt_2 T) as He.
  assert (Hc : SFcompare to (numeric_limits_max T) = Some Lt).
  { unfold flt, SFltb in Hlt.
    destruct (SFcompare to (numeric_limits_max T)) as [[| |]|];
      congruence. }
  split; [unfold nextafter; now rewrite Hc|].
  destruct to as [s | s | | s m e]; try discriminate.
  - rewrite SFsucc_zero by assumption. reflexivity.
  - destruct s; discriminate.
  - destruct s; [discriminate|].
    unfold representable in Hr. cbn [valid_binary] in Hr.
    rewrite SFsucc_finite by assumption.
    now apply succ_finite_above.
Qed.

(* ================================================================== *)
(** * The replay generator conforms *)
(* ================================================================== *)

Lemma replay_decode_encode (T : FloatType) (x : spec_float) :
  representable T x = true -> is_finite x = true ->
  Replay.decode T (Replay.encode T x) = x.
Proof.
  destruct x as [s | s | | s m e]; cbn [is_finite]; try discriminate; intros Hr _.
  - now destruct s.
  - cbn [representable valid_binary] in Hr. unfold representable in Hr.
    cbn [valid_binary] in Hr.
    pose proof (bounded_mantissa _ _ (prec_pos T) _ _ Hr) as Hm.
    pose proof (bounded_emin _ _ _ _ Hr) as He.
    unfold Replay.decode, Replay.encode.
    set (P := 2 ^ prec T) in *.
    set (k := (e - emin (prec T) (emax T)) * P + Z.pos m).
    assert (HP : 0 < P).
    { apply Z.pow_pos_nonneg; [lia | pose proof (prec_pos T); lia]. }
    assert (Hodd : Z.odd (2 * k + Z.b2z s) = s).
    { rewrite Z.add_comm, Z.odd_add_mul_2. now destruct s. }
    assert (Hdiv : (2 * k + Z.b2z s) / 2 = k).
    { destruct s; cbn [Z.b2z]; Z.div_mod_to_equations; lia. }
    rewrite Hodd, Hdiv. unfold k.
    rewrite Z.add_comm, Z.mod_add, Z.div_add by lia.
    rewrite Z.mod_small, Z.div_small by lia.
    destruct (Z.eqb_spec (Z.pos m) 0) as [H0 | _]; [lia|].
    cbn [Z.to_pos]. f_equal. lia.
Qed.

Lemma replay_uniform_int_range T a b g :
  a <= b -> a <= fst (Replay.uniform_int T a b g) <= b.
Proof.
  intros Hab. unfold Replay.uniform_int.
  destruct (Replay.next g) as [w g']. cbn [fst].
  pose proof (Z.mod_pos_bound w (b - a + 1)). lia.
Qed.

Lemma replay_uniform_int_support T a b v :
  a <= v <= b -> fst (Replay.uniform_int T a b [v - a]) = v.
Proof.
  intros Hv. unfold Replay.uniform_int. cbn [Replay.next fst].
  rewrite Z.mod_small by lia. lia.
Qed.

Lemma replay_shuffled_permutation (A : Type) (l : list A) g :
  Permutation l (fst (Replay.shuffled A l g)).
Proof.
  unfold Replay.shuffled. destruct (Replay.next g) as [w g']. cbn [fst].
  destruct (Z.odd w); [apply Permutation_rev | apply Permutation_refl].
Qed.

Lemma replay_canonical_range (T : FloatType) (g : Replay.generator_type) :
  representable T (fst (Replay.canonical T g)) = true /\
  fle fzero (fst (Replay.canonical T g)) = true /\
  flt (fst (Replay.canonical T g)) (fone T) = true.
Proof.
  unfold Replay.canonical. destruct (Replay.next g) as [w g'].
  destruct (representable T (Replay.decode T w) && fle fzero (Replay.decode T w)
            && flt (Replay.decode T w) (fone T)) eqn:E; cbn [fst].
  - apply andb_true_iff in E. destruct E as [E E3].
    apply andb_true_iff in E. destruct E as [E1 E2]. auto.
  - repeat split; trivial. apply fone_positive.
Qed.

#[global] Instance replay_conforming : StdConforming Replay.generator_type.
Proof.
  constructor.
  - intros T a b g _ _ Hab. now apply replay_uniform_int_range.
  - apply replay_canonical_range.
  - reflexivity.
  - reflexivity.
  - intros A l g. apply replay_shuffled_permutation.
Qed.

#[global] Instance replay_support : StdSupport Replay.generator_type.
Proof.
  constructor.
  - intros T a b v _ _ Hv. exists [v - a].
    now apply replay_uniform_int_support.
  - intros T. exists [0]. now destruct T.
  - intros T. exists [Replay.encode T (nextafter T (fone T) fzero)].
    destruct (largest_below_one_range T) as [Hr [H0 H1]].
    cbn [generate_canonical Replay.std_random].
    unfold Replay.canonical. cbn [Replay.next].
    rewrite replay_decode_encode; trivial.
    + now rewrite Hr, H0, H1.
    + rewrite largest_below_one_eq. reflexivity.
Qed.

(* ================================================================== *)
(** * uniform: the integer draws *)
(* ================================================================== *)

Section UniformFacts.

Context {G : Type} `{StdConforming G}.

Lemma uniform_bounds (T : IntType) (g : G) :
  0 <= fst (uniform T g) <= int_max T.
Proof.
  unfold uniform.
  apply uniform_int_range;
    [apply in_range_0 | apply in_range_max | apply int_max_nonneg].
Qed.

Lemma uniform_to_bounds (T : IntType) (to : Z) (g : G) :
  0 <= to <= int_max T -> 0 <= fst (uniform_to T to g) <= to.
Proof.
  intros Hto. unfold uniform_to. rewrite static_cast_0.
  apply uniform_int_range; [apply in_range_0 | | lia].
  split; [pose proof (int_min_nonpos T); lia | lia].
Qed.

End UniformFacts.

(** C1, as the code has it.  [uniform<T>()] default-constructs its distribution,
    whose range is from 0 to [std::numeric_limits<T>::max()]: the result is never
    negative, and every value from 0 to the maximum of [T] is a possible result. *)
Theorem uniform_default_range :
  forall (G : Type) `{StdConforming G} `{!StdSupport G} (T : IntType),
    (forall g : G, 0 <= fst (uniform T g) <= int_max T) /\
    (forall v : Z, 0 <= v <= int_max T -> exists g : G, fst (uniform T g) = v).
Proof.
  intros G R C S T. split.
  - intros g. apply uniform_bounds.
  - intros v Hv. unfold uniform.
    apply uniform_int_support;
      [apply in_range_0 | apply in_range_max | exact Hv].
Qed.

Lemma uniform_default_range_witness :
  (forall g : Replay.generator_type, 0 <= fst (uniform Int g) <= int_max Int) /\
  (forall v : Z, 0 <= v <= int_max Int ->
     exists g : Replay.generator_type, fst (uniform Int g) = v).
Proof. exact (uniform_default_range Replay.generator_type Int). Defined.

(** C1, as the spec has it, fails: -1 is a representable value of [int], and no
    conforming standard library makes [uniform<int>()] return it, whatever the
    state of the generator. *)
Lemma uniform_int_negative_unreachable :
  in_range Int (-1) /\
  ~ exists (G : Type) (R : StdRandom G) (C : @StdConforming G R) (g : G),
      fst (@uniform G R Int g) = -1.
Proof.
  split.
  - vm_compute. split; discriminate.
  - intros (G & R & C & g & Hg).
    pose proof (@uniform_bounds G R C Int g) as Hb. lia.
Qed.

(* ================================================================== *)
(** * uniformf and probabilityf: the real draws *)
(* ================================================================== *)

(** A draw from 0 to a positive bound, at a canonical value that is a zero. *)
Lemma scale_zero_at_zero (T : FloatType) (M : positive) (E : Z) (s : bool) :
  scale T fzero (S754_finite false M E) (S754_zero s) = fzero.
Proof. now destruct s. Qed.

(** A draw from 0 to a positive bound [B], at a positive canonical value [c]:
    the rounded product [c * B], which lies between 0 and [B]. *)
Lemma scale_zero_positive (T : FloatType) (mc M : positive) (ec E : Z) :
  bounded (prec T) (emax T) mc ec = true ->
  bounded (prec T) (emax T) M E = true ->
  flt (S754_finite false mc ec) (fone T) = true ->
  scale T fzero (S754_finite false M E) (S754_finite false mc ec) =
    fmul T (S754_finite false mc ec) (S754_finite false M E) /\
  fle fzero (fmul T (S754_finite false mc ec) (S754_finite false M E)) = true /\
  fle (fmul T (S754_finite false mc ec) (S754_finite false M E))
      (S754_finite false M E) = true.
Proof.
  intros Hc HB Hlt.
  pose proof (prec_gt_1 T) as Hp. pose proof (emax_gt_2 T) as He.
  destruct (below_one _ _ Hp He mc ec Hc Hlt) as [Hec _].
  pose proof (SFmul_below _ _ Hp He mc M ec E Hc HB Hlt) as Hle.
  pose proof (SFmul_below_forms _ _ Hp mc M ec E Hc HB Hec) as Hforms.
  unfold scale, fmul, fsub, fadd in *. cbn [SFsub fzero].
  cbv zeta in Hforms.
  destruct Hforms as [Hy | [Hy | [q [t Hy]]]]; rewrite Hy in *.
  - repeat split.
  - discriminate.
  - repeat split. exact Hle.
Qed.

Section RealFacts.

Context {G : Type} `{StdConforming G}.

(** A real draw is the canonical draw, scaled. *)
Lemma real_draw (T : FloatType) (a b : spec_float) (g : G) :
  uniform_real_distribution T a b g =
    (scale T a b (fst (generate_canonical T g)), snd (generate_canonical T g)).
Proof.
  rewrite uniform_real_scaling. unfold scaled_draw.
  now destruct (generate_canonical T g).
Qed.

(** The canonical draw is a zero, or a positive value of [T] below 1. *)
Lemma canonical_cases (T : FloatType) (g : G) :
  (exists s, fst (generate_canonical T g) = S754_zero s) \/
  (exists m e, fst (generate_canonical T g) = S754_finite false m e /\
               bounded (prec T) (emax T) m e = true /\
               flt (S754_finite false m e) (fone T) = true).
Proof.
  destruct (canonical_range T g) as [Hr [Hlo Hhi]].
  pose proof Hhi as Hone. rewrite fone_eq in Hone.
  destruct (fst (generate_canonical T g)) as [s | s | | s m e].
  - left. now exists s.
  - destruct s; discriminate.
  - discriminate.
  - destruct s; [discriminate|]. right. exists m, e. auto.
Qed.

(** [uniformf<T>()] returns the canonical draw itself. *)
Lemma uniformf_value (T : FloatType) (g : G) :
  snd (uniformf T g) = snd (generate_canonical T g) /\
  ((exists s, fst (generate_canonical T g) = S754_zero s /\
              fst (uniformf T g) = fzero) \/
   (exists m e, fst (generate_canonical T g) = S754_finite false m e /\
                bounded (prec T) (emax T) m e = true /\
                flt (S754_finite false m e) (fone T) = true /\
                fst (uniformf T g) = S754_finite false m e)).
Proof.
  pose proof (prec_gt_1 T) as Hp. pose proof (emax_gt_2 T) as He.
  unfold uniformf. rewrite real_draw. cbn [fst snd]. split; [reflexivity|].
  destruct (canonical_cases T g) as [[s Hc] | [m [e [Hc [Hb Hlt]]]]]; rewrite Hc.
  - left. exists s. split; [reflexivity|].
    rewrite fone_eq. apply scale_zero_at_zero.
  - right. exists m, e. repeat split; trivial.
    assert (Hb1 : bounded (prec T) (emax T) (pow2 (prec T - 1)) (1 - prec T) = true).
    { pose proof (fone_representable T) as H1. rewrite fone_eq in H1. exact H1. }
    rewrite fone_eq.
    destruct (scale_zero_positive T m (pow2 (prec T - 1)) e (1 - prec T) Hb Hb1)
      as [Hs _]; [exact Hlt|].
    rewrite Hs. unfold fmul. rewrite <- (SFone_eq _ _ Hp He).
    now apply SFmul_one.
Qed.

(** [uniformf<T>()] draws from the half-open range from 0 to 1. *)
Lemma uniformf_bounds (T : FloatType) (g : G) :
  representable T (fst (uniformf T g)) = true /\
  fle fzero (fst (uniformf T g)) = true /\
  flt (fst (uniformf T g)) (fone T) = true.
Proof.
  destruct (uniformf_value T g) as [_ [[s [_ Hu]] | [m [e [_ [Hb [Hlt Hu]]]]]]];
    rewrite Hu.
  - repeat split. apply fone_positive.
  - repeat split; trivial.
Qed.

(** A draw from 0 to a positive bound of [T] lies between 0 and the bound,
    both included. *)
Lemma scale_zero_bounds (T : FloatType) (M : positive) (E : Z) (g : G) :
  bounded (prec T) (emax T) M E = true ->
  fle fzero (scale T fzero (S754_finite false M E)
               (fst (generate_canonical T g))) = true /\
  fle (scale T fzero (S754_finite false M E) (fst (generate_canonical T g)))
      (S754_finite false M E) = true.
Proof.
  intros HB.
  destruct (canonical_cases T g) as [[s Hc] | [m [e [Hc [Hb Hlt]]]]]; rewrite Hc.
  - rewrite scale_zero_at_zero. split; reflexivity.
  - destruct (scale_zero_positive T m M e E Hb HB Hlt) as [Hs [Hlo Hhi]].
    rewrite Hs. split; assumption.
Qed.

(** The bound [uniformf(to)] hands to the distribution is a positive value of
    [T], for [to >= 0]. *)
Lemma upper_bound_positive (T : FloatType) (to : spec_float) :
  representable T to = true -> fle fzero to = true ->
  exists M E, nextafter T to (numeric_limits_max T) = S754_finite false M E /\
              bounded (prec T) (emax T) M E = true.
Proof.
  intros Hr Hto.
  destruct (nextafter_max_upper T to Hr Hto) as [Hb [Hpos [Hfin _]]].
  destruct (nextafter T to (numeric_limits_max T)) as [s | s | | s M E];
    try discriminate.
  destruct s; [discriminate|]. exists M, E. split; [reflexivity | exact Hb].
Qed.

(** [uniformf<T>(to)] draws a value between 0 and the bound it hands to the
    distribution, both included. *)
Lemma uniformf_to_bounds (T : FloatType) (to : spec_float) (g : G) :
  representable T to = true -> fle fzero to = true ->
  fle fzero (fst (uniformf_to T to g)) = true /\
  fle (fst (uniformf_to T to g)) (nextafter T to (numeric_limits_max T)) = true.
Proof.
  intros Hr Hto.
  destruct (upper_bound_positive T to Hr Hto) as [M [E [HB Hb]]].
  unfold uniformf_to. rewrite real_draw, HB. cbn [fst].
  now apply scale_zero_bounds.
Qed.

(** A value at or above [numeric_limits<T>::min()] has all its digits. *)
Lemma normal_significand (T : FloatType) (m : positive) (e : Z) :
  bounded (prec T) (emax T) m e = true ->
  fle (numeric_limits_min T) (S754_finite false m e) = true ->
  2 ^ (prec T - 1) <= Z.pos m.
Proof.
  intros Hb Hn. pose proof (prec_gt_1 T) as Hp.
  unfold numeric_limits_min in Hn. apply fle_finite in Hn.
  rewrite Z2Pos.id in Hn by (apply pow2_pos; lia).
  destruct Hn as [Hn | [_ Hn]]; [|exact Hn].
  apply (bounded_normal (prec T) (emax T) ltac:(lia) m e Hb Hn).
Qed.

(** Below the largest value, the bound for a normal [to] is its successor, and
    every draw is at most [to]; the largest canonical value gives [to]. *)
Lemma scale_zero_normal (T : FloatType) (m : positive) (e : Z) (g : G) :
  bounded (prec T) (emax T) m e = true ->
  2 ^ (prec T - 1) <= Z.pos m ->
  is_finite (succ_finite (prec T) (emax T) m e) = true ->
  fle (scale T fzero (succ_finite (prec T) (emax T) m e)
         (fst (generate_canonical T g)))
      (S754_finite false m e) = true /\
  scale T fzero (succ_finite (prec T) (emax T) m e)
    (nextafter T (fone T) fzero) = S754_finite false m e.
Proof.
  intros Hb Hn Hfin.
  pose proof (prec_gt_1 T) as Hp. pose proof (emax_gt_2 T) as He.
  pose proof (bounded_mantissa (prec T) (emax T) ltac:(lia) m e Hb) as Hm.
  pose proof (bounded_spec _ _ _ _ Hb) as [Hc Hemax].
  pose proof (succ_finite_valid _ _ Hp m e Hb) as Hv.
  destruct (largest_below_one_range T) as [Hlr [_ Hl1]].
  rewrite largest_below_one_eq in *.
  unfold representable in Hlr. cbn [valid_binary] in Hlr.
  unfold succ_finite in *.
  destruct (Z.ltb_spec (Z.pos m + 1) (2 ^ prec T)) as [H1 | H1].
  - (* the successor has the same exponent *)
    cbn [valid_binary] in Hv.
    assert (HM : 2 ^ (prec T - 1) < Z.pos (Pos.succ m)) by lia.
    assert (HP : Z.pos m = Z.pos (Pos.succ m) - 1) by lia.
    split.
    + destruct (canonical_cases T g) as [[s Hg] | [mc [ec [Hg [Hbc Hlt]]]]];
        rewrite Hg.
      * rewrite scale_zero_at_zero. reflexivity.
      * destruct (scale_zero_positive T mc (Pos.succ m) ec e Hbc Hv Hlt)
          as [Hs _].
        rewrite Hs.
        apply (SFmul_below_pred _ _ Hp He mc (Pos.succ m) m ec e); trivial.
    + destruct (scale_zero_positive T (Z.to_pos (2 ^ prec T - 1)) (Pos.succ m)
                  (- prec T) e Hlr Hv Hl1) as [Hs _].
      rewrite Hs.
      apply (SFmul_largest_pred _ _ Hp He); trivial. apply all_ones.
  - destruct (Z.leb_spec (e + 1) (emax T - prec T)) as [H2 | H2];
      [|discriminate].
    (* the successor starts the next binade *)
    cbn [valid_binary] in Hv.
    assert (Hall : Z.pos m = 2 ^ prec T - 1) by lia.
    assert (Hem : emin (prec T) (emax T) < e + 1)
      by (pose proof (bounded_emin _ _ _ _ Hb); lia).
    split.
    + destruct (canonical_cases T g) as [[s Hg] | [mc [ec [Hg [Hbc Hlt]]]]];
        rewrite Hg.
      * rewrite scale_zero_at_zero. reflexivity.
      * destruct (scale_zero_positive T mc (pow2 (prec T - 1)) ec (e + 1)
                    Hbc Hv Hlt) as [Hs _].
        rewrite Hs.
        destruct (SFmul_below_binade _ _ Hp He mc m ec (e + 1) Hbc Hv Hlt Hem Hall)
          as [_ Hle].
        replace (e + 1 - 1) with e in Hle by lia. exact Hle.
    + destruct (scale_zero_positive T (Z.to_pos (2 ^ prec T - 1))
                  (pow2 (prec T - 1)) (- prec T) (e + 1) Hlr Hv Hl1) as [Hs _].
      rewrite Hs. unfold fmul.
      rewrite (SFmul_largest_binade _ _ Hp (Z.to_pos (2 ^ prec T - 1)) (e + 1));
        trivial; [|apply all_ones].
      replace (e + 1 - 1) with e by lia.
      f_equal. apply Pos2Z.inj. rewrite all_ones. lia.
Qed.

(** With the largest finite value as the bound, every draw is below it. *)
Lemma scale_zero_max (T : FloatType) (g : G) :
  flt (scale T fzero (numeric_limits_max T) (fst (generate_canonical T g)))
      (numeric_limits_max T) = true.
Proof.
  pose proof (prec_gt_1 T) as Hp. pose proof (emax_gt_2 T) as He.
  pose proof (max_representable T) as Hv.
  unfold numeric_limits_max in *. rewrite (SFmax_float_eq _ _ Hp) in *.
  unfold representable in Hv. cbn [valid_binary] in Hv.
  destruct (canonical_cases T g) as [[s Hg] | [mc [ec [Hg [Hbc Hlt]]]]];
    rewrite Hg.
  - rewrite scale_zero_at_zero. reflexivity.
  - destruct (scale_zero_positive T mc (Z.to_pos (2 ^ prec T - 1)) ec
                (emax T - prec T) Hbc Hv Hlt) as [Hs [Hlo _]].
    rewrite Hs in *.
    assert (H4 : 4 <= 2 ^ prec T).
    { change 4 with (2 ^ 2). apply Z.pow_le_mono_r; lia. }
    pose proof (pow2_double (prec T) ltac:(lia)) as Hpp.
    destruct (SFmul_below_pred _ _ Hp He mc (Z.to_pos (2 ^ prec T - 1))
                (Z.to_pos (2 ^ prec T - 2)) ec (emax T - prec T) Hbc Hv Hlt)
      as [_ Hle].
    + rewrite all_ones. lia.
    + rewrite all_ones, Z2Pos.id by lia. lia.
    + unfold fmul in *.
      destruct (SFmul (prec T) (emax T) (S754_finite false mc ec)
                  (S754_finite false (Z.to_pos (2 ^ prec T - 1)) (emax T - prec T)))
        as [s | s | | s q t].
      * reflexivity.
      * destruct s; discriminate.
      * discriminate.
      * destruct s; [discriminate|].
        apply fle_finite in Hle. apply flt_finite.
        rewrite all_ones. rewrite Z2Pos.id in Hle by lia. lia.
Qed.

(** With the smallest positive value as the bound, a draw is 0 or that value;
    the largest canonical value gives that value. *)
Lemma scale_zero_smallest (T : FloatType) (g : G) :
  (scale T fzero (denorm_min T) (fst (generate_canonical T g)) = fzero \/
   scale T fzero (denorm_min T) (fst (generate_canonical T g)) = denorm_min T) /\
  scale T fzero (denorm_min T) (nextafter T (fone T) fzero) = denorm_min T.
Proof.
  pose proof (prec_gt_1 T) as Hp. pose proof (emax_gt_2 T) as He.
  assert (Hv : bounded (prec T) (emax T) 1 (emin (prec T) (emax T)) = true).
  { apply bounded_intro; cbn [digits2_pos]; unfold emin; lia. }
  destruct (largest_below_one_range T) as [Hlr [_ Hl1]].
  rewrite largest_below_one_eq in *.
  unfold representable in Hlr. cbn [valid_binary] in Hlr.
  unfold denorm_min. split.
  - destruct (canonical_cases T g) as [[s Hg] | [mc [ec [Hg [Hbc Hlt]]]]];
      rewrite Hg.
    + left. apply scale_zero_at_zero.
    + destruct (scale_zero_positive T mc 1 ec (emin (prec T) (emax T)) Hbc Hv Hlt)
        as [Hs _].
      rewrite Hs. apply (SFmul_smallest _ _ Hp He); trivial.
  - destruct (scale_zero_positive T (Z.to_pos (2 ^ prec T - 1)) 1 (- prec T)
                (emin (prec T) (emax T)) Hlr Hv Hl1) as [Hs _].
    rewrite Hs. apply (SFmul_largest_smallest _ _ Hp He). apply all_ones.
Qed.

End RealFacts.

(** C2, as the code has it.  [uniformf<T>()] hands the bounds 0 and 1 to the
    distribution, whose range excludes its upper bound and includes its lower
    one: every draw is at least 0 and below 1, and 0 itself is drawn at some
    state of the generator, where the draw is not above 0. *)
Theorem uniformf_includes_zero :
  forall (G : Type) `{StdConforming G} `{!StdSupport G} (T : FloatType),
    (forall g : G,
       fle fzero (fst (uniformf T g)) = true /\
       flt (fst (uniformf T g)) (fone T) = true) /\
    (exists g : G,
       fst (uniformf T g) = fzero /\
       flt fzero (fst (uniformf T g)) = false).
Proof.
  intros G R C S T. split.
  - intros g. destruct (uniformf_bounds T g) as [_ Hb]. exact Hb.
  - destruct (canonical_smallest T) as [g Hg]. exists g.
    destruct (uniformf_value T g) as [_ [[s [_ Hu]] | [m [e [Hc _]]]]].
    + rewrite Hu. split; reflexivity.
    + rewrite Hg in Hc. discriminate.
Qed.

Lemma uniformf_includes_zero_witness :
  ((forall g : Replay.generator_type,
      fle fzero (fst (uniformf Float g)) = true /\
      flt (fst (uniformf Float g)) (fone Float) = true) /\
   (exists g : Replay.generator_type,
      fst (uniformf Float g) = fzero /\
      flt fzero (fst (uniformf Float g)) = false)) /\
  uniformf Float [0] = (fzero, []).
Proof.
  split.
  - exact (uniformf_includes_zero Replay.generator_type Float).
  - vm_compute. reflexivity.
Defined.

(** The value 1 of [T] is normal, and below the largest value. *)
Lemma fone_normal (T : FloatType) :
  bounded (prec T) (emax T) (pow2 (prec T - 1)) (1 - prec T) = true /\
  2 ^ (prec T - 1) <= Z.pos (pow2 (prec T - 1)) /\
  is_finite (succ_finite (prec T) (emax T) (pow2 (prec T - 1)) (1 - prec T)) = true /\
  SFsucc (prec T) (emax T) (fone T) =
    succ_finite (prec T) (emax T) (pow2 (prec T - 1)) (1 - prec T).
Proof.
  pose proof (prec_gt_1 T) as Hp. pose proof (emax_gt_2 T) as He.
  assert (Hb : bounded (prec T) (emax T) (pow2 (prec T - 1)) (1 - prec T) = true).
  { pose proof (fone_representable T) as H1. rewrite fone_eq in H1. exact H1. }
  split; [exact Hb|]. split; [rewrite pow2_spec by lia; lia|]. split.
  - apply (succ_finite_below_max _ _ Hp).
    pose proof (fone_below_max T) as Hlt. rewrite fone_eq in Hlt. exact Hlt.
  - rewrite fone_eq. now apply SFsucc_finite.
Qed.

(** C3.  [probabilityf<T>()] hands the distribution the bounds 0 and
    [nextafter(1, max)], the next value of [T] above 1.  The result is the
    canonical draw scaled by that bound and rounded; it lies between 0 and 1,
    both included; it is 0 when the canonical draw is 0 and 1 when the
    canonical draw is the last value below 1, so that 0 and 1 are both possible
    results. *)
Theorem probabilityf_closed_interval :
  forall (G : Type) `{StdConforming G} `{!StdSupport G} (T : FloatType),
    nextafter T (fone T) (numeric_limits_max T) =
      SFsucc (prec T) (emax T) (fone T) /\
    flt (fone T) (SFsucc (prec T) (emax T) (fone T)) = true /\
    (forall x, representable T x = true ->
               flt x (SFsucc (prec T) (emax T) (fone T)) = true ->
               fle x (fone T) = true) /\
    (forall g : G,
       probabilityf T g =
         (scale T fzero (SFsucc (prec T) (emax T) (fone T))
            (fst (generate_canonical T g)),
          snd (generate_canonical T g)) /\
       fle fzero (fst (probabilityf T g)) = true /\
       fle (fst (probabilityf T g)) (fone T) = true /\
       (fst (generate_canonical T g) = fzero ->
        fst (probabilityf T g) = fzero) /\
       (fst (generate_canonical T g) = nextafter T (fone T) fzero ->
        fst (probabilityf T g) = fone T)) /\
    (exists g : G, fst (probabilityf T g) = fone T) /\
    (exists g : G, fst (probabilityf T g) = fzero).
Proof.
  intros G R C S T.
  assert (H1 : fle fzero (fone T) = true) by (apply flt_fle, fone_positive).
  destruct (nextafter_max_upper T (fone T) (fone_representable T) H1)
    as [_ [_ [_ Hgap]]].
  destruct (nextafter_max_successor T (fone T) (fone_representable T) H1
              (fone_below_max T)) as [Hs Habove].
  destruct (fone_normal T) as [Hb [Hn [Hfin Hsucc]]].
  assert (Hdraw : forall g : G,
            probabilityf T g =
              (scale T fzero (SFsucc (prec T) (emax T) (fone T))
                 (fst (generate_canonical T g)),
               snd (generate_canonical T g))).
  { intros g. unfold probabilityf. now rewrite real_draw, Hs. }
  assert (Hlargest : forall g : G,
            fst (generate_canonical T g) = nextafter T (fone T) fzero ->
            fst (probabilityf T g) = fone T).
  { intros g Hg. rewrite Hdraw. cbn [fst]. rewrite Hg, Hsucc.
    destruct (scale_zero_normal T _ _ g Hb Hn Hfin) as [_ Heq].
    rewrite Heq. symmetry. apply fone_eq. }
  assert (Hsmallest : forall g : G,
            fst (generate_canonical T g) = fzero ->
            fst (probabilityf T g) = fzero).
  { intros g Hg. rewrite Hdraw. cbn [fst]. rewrite Hg, Hsucc.
    pose proof Hfin as Hf. unfold succ_finite in Hf |- *.
    destruct (Z.pos (pow2 (prec T - 1)) + 1 <? 2 ^ prec T);
      [apply scale_zero_at_zero|].
    destruct (1 - prec T + 1 <=? emax T - prec T);
      [apply scale_zero_at_zero | discriminate]. }
  split; [exact Hs|]. split; [exact Habove|]. split.
  { intros x Hx Hlt. apply Hgap; trivial. now rewrite Hs. }
  split.
  - intros g. split; [apply Hdraw|]. split; [|split; [|split]].
    + destruct (uniformf_to_bounds T (fone T) g (fone_representable T) H1)
        as [H0 _].
      exact H0.
    + rewrite Hdraw. cbn [fst]. rewrite Hsucc.
      destruct (scale_zero_normal T _ _ g Hb Hn Hfin) as [Hle _].
      rewrite (fone_eq T). exact Hle.
    + apply Hsmallest.
    + apply Hlargest.
  - split.
    + destruct (canonical_largest T) as [g Hg]. exists g. now apply Hlargest.
    + destruct (canonical_smallest T) as [g Hg]. exists g. now apply Hsmallest.
Qed.

Lemma probabilityf_closed_interval_witness :
  (nextafter Double (fone Double) (numeric_limits_max Double) =
     SFsucc (prec Double) (emax Double) (fone Double) /\
   flt (fone Double) (SFsucc (prec Double) (emax Double) (fone Double)) = true /\
   (forall x, representable Double x = true ->
              flt x (SFsucc (prec Double) (emax Double) (fone Double)) = true ->
              fle x (fone Double) = true) /\
   (forall g : Replay.generator_type,
      probabilityf Double g =
        (scale Double fzero (SFsucc (prec Double) (emax Double) (fone Double))
           (fst (generate_canonical Double g)),
         snd (generate_canonical Double g)) /\
      fle fzero (fst (probabilityf Double g)) = true /\
      fle (fst (probabilityf Double g)) (fone Double) = true /\
      (fst (generate_canonical Double g) = fzero ->
       fst (probabilityf Double g) = fzero) /\
      (fst (generate_canonical Double g) = nextafter Double (fone Double) fzero ->
       fst (probabilityf Double g) = fone Double)) /\
   (exists g : Replay.generator_type, fst (probabilityf Double g) = fone Double) /\
   (exists g : Replay.generator_type, fst (probabilityf Double g) = fzero)) /\
  probabilityf Double
    [Replay.encode Double (nextafter Double (fone Double) fzero)] =
    (fone Double, []) /\
  probabilityf Double [Replay.encode Double (to_double half)] =
    (S754_finite false 4503599627370497 (-53), []) /\
  probabilityf Double [0] = (fzero, []).
Proof.
  split.
  - exact (probabilityf_closed_interval Replay.generator_type Double).
  - repeat split; vm_compute; reflexivity.
Defined.

(** C6, as the code has it.  For [to >= 0], [uniformf<T>(to)] returns a value
    between 0 and the bound it hands to the distribution, [nextafter(to, max)],
    both included.  When [to] is below the largest finite value of [T], that
    bound is the next value of [T] above [to] (no value of [T] lies between the
    two).  When [to] is moreover normal, the result is at most [to], and [to]
    itself is returned when the canonical draw is the last value below 1, so
    that [to] is a possible result. *)
Theorem uniformf_to_closed_interval :
  forall (G : Type) `{StdConforming G} `{!StdSupport G} (T : FloatType)
         (to : spec_float),
    representable T to = true -> fle fzero to = true ->
    (forall g : G,
       fle fzero (fst (uniformf_to T to g)) = true /\
       fle (fst (uniformf_to T to g))
           (nextafter T to (numeric_limits_max T)) = true) /\
    (flt to (numeric_limits_max T) = true ->
     nextafter T to (numeric_limits_max T) = SFsucc (prec T) (emax T) to /\
     flt to (SFsucc (prec T) (emax T) to) = true /\
     (forall x, representable T x = true ->
                flt x (SFsucc (prec T) (emax T) to) = true -> fle x to = true) /\
     (fle (numeric_limits_min T) to = true ->
      (forall g : G, fle (fst (uniformf_to T to g)) to = true) /\
      (forall g : G,
         fst (generate_canonical T g) = nextafter T (fone T) fzero ->
         fst (uniformf_to T to g) = to) /\
      (exists g : G, fst (uniformf_to T to g) = to))).
Proof.
  intros G R C S T to Hr Hto. split.
  - intros g. now apply uniformf_to_bounds.
  - intros Hlt.
    pose proof (prec_gt_1 T) as Hp. pose proof (emax_gt_2 T) as He.
    destruct (nextafter_max_upper T to Hr Hto) as [_ [_ [Hfin Hgap]]].
    destruct (nextafter_max_successor T to Hr Hto Hlt) as [Hs Habove].
    split; [exact Hs|]. split; [exact Habove|]. split.
    { intros x Hx Hxlt. apply Hgap; trivial. now rewrite Hs. }
    intros Hnormal.
    assert (Hform : exists m e, to = S754_finite false m e).
    { destruct to as [s | s | | s m e].
      - discriminate Hnormal.
      - destruct s; [discriminate Hto|].
        unfold numeric_limits_max in Hlt.
        rewrite (SFmax_float_eq _ _ Hp) in Hlt. discriminate Hlt.
      - discriminate Hto.
      - destruct s; [discriminate Hto|]. now exists m, e. }
    destruct Hform as [m [e ->]].
    unfold representable in Hr. cbn [valid_binary] in Hr.
    pose proof (normal_significand T m e Hr Hnormal) as Hn.
    rewrite Hs, (SFsucc_finite _ _ Hp He m e Hr) in Hfin.
    assert (Hdraw : forall g : G,
              fst (uniformf_to T (S754_finite false m e) g) =
                scale T fzero (succ_finite (prec T) (emax T) m e)
                  (fst (generate_canonical T g))).
    { intros g. unfold uniformf_to.
      now rewrite real_draw, Hs, (SFsucc_finite _ _ Hp He m e Hr). }
    assert (Hlargest : forall g : G,
              fst (generate_canonical T g) = nextafter T (fone T) fzero ->
              fst (uniformf_to T (S754_finite false m e) g) =
                S754_finite false m e).
    { intros g Hg. rewrite Hdraw, Hg.
      now destruct (scale_zero_normal T m e g Hr Hn Hfin). }
    split; [|split].
    + intros g. rewrite Hdraw.
      now destruct (scale_zero_normal T m e g Hr Hn Hfin).
    + exact Hlargest.
    + destruct (canonical_largest T) as [g Hg]. exists g. now apply Hlargest.
Qed.

Lemma uniformf_to_closed_interval_witness :
  (representable Float two_and_a_half = true /\
   fle fzero two_and_a_half = true /\
   flt two_and_a_half (numeric_limits_max Float) = true /\
   fle (numeric_limits_min Float) two_and_a_half = true) /\
  ((forall g : Replay.generator_type,
      fle fzero (fst (uniformf_to Float two_and_a_half g)) = true /\
      fle (fst (uniformf_to Float two_and_a_half g))
          (nextafter Float two_and_a_half (numeric_limits_max Float)) = true) /\
   (flt two_and_a_half (numeric_limits_max Float) = true ->
    nextafter Float two_and_a_half (numeric_limits_max Float) =
      SFsucc (prec Float) (emax Float) two_and_a_half /\
    flt two_and_a_half (SFsucc (prec Float) (emax Float) two_and_a_half) = true /\
    (forall x, representable Float x = true ->
               flt x (SFsucc (prec Float) (emax Float) two_and_a_half) = true ->
               fle x two_and_a_half = true) /\
    (fle (numeric_limits_min Float) two_and_a_half = true ->
     (forall g : Replay.generator_type,
        fle (fst (uniformf_to Float two_and_a_half g)) two_and_a_half = true) /\
     (forall g : Replay.generator_type,
        fst (generate_canonical Float g) = nextafter Float (fone Float) fzero ->
        fst (uniformf_to Float two_and_a_half g) = two_and_a_half) /\
     (exists g : Replay.generator_type,
        fst (uniformf_to Float two_and_a_half g) = two_and_a_half)))) /\
  uniformf_to Float two_and_a_half
    [Replay.encode Float (nextafter Float (fone Float) fzero)] =
    (two_and_a_half, []).
Proof.
  split; [repeat split|]. split.
  - exact (uniformf_to_closed_interval Replay.generator_type Float two_and_a_half
             eq_refl eq_refl).
  - vm_compute. reflexivity.
Defined.

(** C6, as the spec has it, fails at [to = FLT_MAX], which is not below zero:
    [nextafter(to, max)] is then [to] itself, not a value above it, and no
    conforming standard library makes [uniformf<float>(FLT_MAX)] return
    [FLT_MAX], whatever the state of the generator. *)
Lemma uniformf_to_max_unreachable :
  representable Float (numeric_limits_max Float) = true /\
  fle fzero (numeric_limits_max Float) = true /\
  nextafter Float (numeric_limits_max Float) (numeric_limits_max Float) =
    numeric_limits_max Float /\
  ~ exists (G : Type) (R : StdRandom G) (C : @StdConforming G R) (g : G),
      fst (@uniformf_to G R Float (numeric_limits_max Float) g) =
        numeric_limits_max Float.
Proof.
  split; [reflexivity|]. split; [reflexivity|]. split; [reflexivity|].
  intros (G & R & C & g & Hg).
  assert (Hlt : flt (fst (uniformf_to Float (numeric_limits_max Float) g))
                    (numeric_limits_max Float) = true).
  { unfold uniformf_to.
    change (nextafter Float (numeric_limits_max Float) (numeric_limits_max Float))
      with (numeric_limits_max Float).
    rewrite real_draw. cbn [fst]. apply scale_zero_max. }
  rewrite Hg, flt_irrefl in Hlt. discriminate.
Qed.

(** The same on an engine of 32-bit words for [float] and of 64-bit words for
    the wider types: the smallest word makes [uniformf] return 0, and the
    largest makes [probabilityf] return 1 and [uniformf(2.5)] return 2.5, while
    [uniformf] stays below 1 and [uniformf(FLT_MAX)] below [FLT_MAX]. *)
Example canonical_uniformf_zero :
  @uniformf _ (Canonical.std_random 32) Float [0] = (fzero, []).
Proof. vm_compute. reflexivity. Qed.

Example canonical_uniformf_largest :
  @uniformf _ (Canonical.std_random 32) Float [2 ^ 32 - 1] =
    (S754_finite false 16777215 (-24), []).
Proof. vm_compute. reflexivity. Qed.

Example canonical_probabilityf_one :
  @probabilityf _ (Canonical.std_random 32) Float [2 ^ 32 - 1] =
    (fone Float, []) /\
  @probabilityf _ (Canonical.std_random 64) Double [2 ^ 64 - 1] =
    (fone Double, []) /\
  @probabilityf _ (Canonical.std_random 64) LongDouble [2 ^ 64 - 1] =
    (fone LongDouble, []).
Proof. repeat split; vm_compute; reflexivity. Qed.

Example canonical_uniformf_to_bound :
  @uniformf_to _ (Canonical.std_random 32) Float two_and_a_half [2 ^ 32 - 1] =
    (two_and_a_half, []).
Proof. vm_compute. reflexivity. Qed.

Example canonical_uniformf_to_max :
  @uniformf_to _ (Canonical.std_random 32) Float (numeric_limits_max Float)
    [2 ^ 32 - 1] = (S754_finite false 16777214 104, []).
Proof. vm_compute. reflexivity. Qed.

(** Below the smallest normal value the last rounding can go up to the bound:
    with the largest word [uniformf(0)] returns the smallest positive value,
    and [uniformf(5 * 2 ^ -149)] the value after it. *)
Example canonical_uniformf_to_subnormal :
  @uniformf_to _ (Canonical.std_random 32) Float fzero [2 ^ 32 - 1] =
    (denorm_min Float, []) /\
  @uniformf_to _ (Canonical.std_random 32) Float
    (S754_finite false 5 (-149)) [2 ^ 32 - 1] =
    (S754_finite false 6 (-149), []).
Proof. split; vm_compute; reflexivity. Qed.

(* ================================================================== *)
(** * triangularf *)
(* ================================================================== *)

(** A rounded value above 0 has the sign it was given, which is positive. *)
Lemma binary_round_aux_positive (prec emax : Z) (s : bool) (mz ez : Z)
    (lz : location) :
  flt fzero (binary_round_aux prec emax s mz ez lz) = true -> s = false.
Proof.
  unfold binary_round_aux.
  destruct (shr_fexp prec emax mz ez lz) as [mrs' e'].
  destruct (shr_fexp prec emax _ e' loc_Exact) as [mrs'' e''].
  destruct (shr_m mrs'') as [|q|q]; [| destruct (e'' <=? emax - prec) |];
    destruct s; cbn; congruence.
Qed.

(** When [d2 / d1] is above 0, the product [0 * d1 * d2] is [+0]. *)
Lemma zero_draw_product (T : FloatType) (d1 d2 : spec_float) :
  is_finite d1 = true -> is_finite d2 = true ->
  flt fzero (fdiv T d2 d1) = true ->
  fmul T (fmul T fzero d1) d2 = fzero.
Proof.
  unfold fdiv, fmul.
  destruct d1 as [s1 | s1 | | s1 m1 e1], d2 as [s2 | s2 | | s2 m2 e2];
    cbn [is_finite]; try discriminate; intros _ _ Hf.
  - destruct s1, s2; cbn in Hf; try discriminate Hf; reflexivity.
  - cbn [SFdiv] in Hf.
    destruct (SFdiv_core_binary (prec T) (emax T) (Z.pos m2) e2 (Z.pos m1) e1)
      as [[mz ez] lz].
    apply binary_round_aux_positive in Hf.
    destruct s1, s2; try discriminate Hf; reflexivity.
Qed.

(** Adding [+0] to a finite value gives a value equal to it. *)
Lemma fadd_zero_equal (T : FloatType) (a : spec_float) :
  is_finite a = true -> SFcompare (fadd T a fzero) a = Some Eq.
Proof.
  destruct a as [s | s | | s m e]; cbn [is_finite]; try discriminate; intros _.
  - now destruct s.
  - unfold fadd. cbn [SFadd fzero]. apply SFcompare_refl. discriminate.
Qed.

(** C4, as the code has it.  [triangularf<T>(a, b, c)] draws [u] with
    [uniformf<T>()], once; [u] is at least 0 and below 1, not in (0, 1]; with
    [f = (c-a)/(b-a)] the result is [a + sqrt(u*(b-a)*(c-a))] when [u < f] and
    [b - sqrt((1-u)*(b-a)*(b-c))] otherwise.  Where [f] is above 0, the draw
    [u = 0], which the generator reaches, takes the first branch and returns a
    value equal to the lower limit [a]. *)
Theorem triangularf_returns_lower_limit :
  forall (G : Type) `{StdConforming G} `{!StdSupport G} (T : FloatType)
         (a b c : spec_float),
    is_finite a = true ->
    is_finite (fsub T b a) = true -> is_finite (fsub T c a) = true ->
    flt fzero (fdiv T (fsub T c a) (fsub T b a)) = true ->
    (forall g : G,
       fle fzero (fst (uniformf T g)) = true /\
       flt (fst (uniformf T g)) (fone T) = true /\
       triangularf T a b c g =
         (if flt (fst (uniformf T g)) (fdiv T (fsub T c a) (fsub T b a))
          then fadd T a
                 (fsqrt T (fmul T (fmul T (fst (uniformf T g)) (fsub T b a))
                             (fsub T c a)))
          else fsub T b
                 (fsqrt T (fmul T (fmul T (fsub T (fone T) (fst (uniformf T g)))
                                     (fsub T b a))
                             (fsub T b c))),
          snd (uniformf T g))) /\
    (exists g : G,
       fst (uniformf T g) = fzero /\
       fst (triangularf T a b c g) = fadd T a fzero /\
       SFcompare (fst (triangularf T a b c g)) a = Some Eq).
Proof.
  intros G R C S T a b c Ha Hba Hca Hf. split.
  - intros g. destruct (uniformf_bounds T g) as [_ [H0 H1]].
    split; [exact H0|]. split; [exact H1|].
    unfold triangularf. destruct (uniformf T g) as [u g']. cbn [fst snd].
    destruct (flt u (fdiv T (fsub T c a) (fsub T b a))); reflexivity.
  - destruct (canonical_smallest T) as [g Hg]. exists g.
    assert (Hu : fst (uniformf T g) = fzero).
    { destruct (uniformf_value T g) as [_ [[s [_ Hu]] | [m [e [Hc _]]]]];
        [exact Hu|].
      rewrite Hg in Hc. discriminate. }
    split; [exact Hu|].
    assert (Hr : fst (triangularf T a b c g) = fadd T a fzero).
    { unfold triangularf. destruct (uniformf T g) as [u g'].
      cbn [fst] in Hu. subst u. rewrite Hf. cbn [fst].
      now rewrite (zero_draw_product T _ _ Hba Hca Hf). }
    split; [exact Hr|]. rewrite Hr. now apply fadd_zero_equal.
Qed.

Lemma triangularf_returns_lower_limit_witness :
  (is_finite fzero = true /\
   is_finite (fsub Float (fone Float) fzero) = true /\
   is_finite (fsub Float half fzero) = true /\
   flt fzero (fdiv Float (fsub Float half fzero)
                (fsub Float (fone Float) fzero)) = true) /\
  ((forall g : Replay.generator_type,
      fle fzero (fst (uniformf Float g)) = true /\
      flt (fst (uniformf Float g)) (fone Float) = true /\
      triangularf Float fzero (fone Float) half g =
        (if flt (fst (uniformf Float g))
              (fdiv Float (fsub Float half fzero) (fsub Float (fone Float) fzero))
         then fadd Float fzero
                (fsqrt Float
                   (fmul Float
                      (fmul Float (fst (uniformf Float g))
                         (fsub Float (fone Float) fzero))
                      (fsub Float half fzero)))
         else fsub Float (fone Float)
                (fsqrt Float
                   (fmul Float
                      (fmul Float (fsub Float (fone Float) (fst (uniformf Float g)))
                         (fsub Float (fone Float) fzero))
                      (fsub Float (fone Float) half))),
         snd (uniformf Float g))) /\
   (exists g : Replay.generator_type,
      fst (uniformf Float g) = fzero /\
      fst (triangularf Float fzero (fone Float) half g) = fadd Float fzero fzero /\
      SFcompare (fst (triangularf Float fzero (fone Float) half g)) fzero =
        Some Eq)) /\
  triangularf Float fzero (fone Float) half [0] = (fzero, []).
Proof.
  split; [repeat split|]. split.
  - exact (triangularf_returns_lower_limit Replay.generator_type Float fzero
             (fone Float) half eq_refl eq_refl eq_refl eq_refl).
  - vm_compute. reflexivity.
Defined.

(** Both branches, on [triangularf(0, 1, 0.5)]: a draw of 0.25 is below
    [f = 0.5] and gives [sqrt(0.125)]; a draw of 0.75 is not, and gives
    [1 - sqrt(0.125)]. *)
Example triangularf_low_branch :
  triangularf Float fzero (fone Float) half [Replay.encode Float quarter] =
    (S754_finite false 11863283 (-25), []).
Proof. vm_compute. reflexivity. Qed.

Example triangularf_high_branch :
  triangularf Float fzero (fone Float) half [Replay.encode Float three_quarters] =
    (S754_finite false 10845574 (-24), []).
Proof. vm_compute. reflexivity. Qed.

(* ================================================================== *)
(** * uniformFrom *)
(* ================================================================== *)

Ltac step_monad :=
  unfold bind, ret, draw, defined, ally_assert; cbn [negb fst snd].

Section PickFacts.

Context {G : Type} `{StdConforming G}.
Context {A : Type}.

Lemma uniformFrom_offset_bounds (collection : list A) (g : G) :
  collection <> [] -> size collection <= max_size ->
  0 <= fst (uniformFrom_offset collection g) <= size collection - 1.
Proof.
  intros Hne Hsz. unfold uniformFrom_offset.
  pose proof (size_nonempty collection Hne) as H1.
  pose proof max_size_lt_size_t as Hm.
  rewrite static_cast_size_t by lia.
  apply uniform_to_bounds. lia.
Qed.

(** On a non-empty collection both assertions hold, and the element at the
    drawn offset is returned. *)
Lemma uniformFrom_nonempty (build : Build) (collection : list A) (g : G)
    (fired : list string) :
  collection <> [] -> size collection <= max_size ->
  exists x : A,
    nth_error collection (Z.to_nat (fst (uniformFrom_offset collection g))) = Some x /\
    In x collection /\
    uniformFrom build collection g fired =
      Returned (x, snd (uniformFrom_offset collection g), fired).
Proof.
  intros Hne Hsz.
  pose proof (uniformFrom_offset_bounds collection g Hne Hsz) as Hoff.
  unfold uniformFrom_offset in *.
  unfold uniformFrom. step_monad.
  destruct collection as [|x0 l]; [congruence|]. cbn [empty negb].
  set (c := x0 :: l) in *.
  destruct (uniform_to size_t (static_cast size_t (size c - 1)) g)
    as [offset g'] eqn:E.
  cbn [fst snd] in *.
  assert (Hmax : max_size = int_max ptrdiff_t) by reflexivity.
  rewrite static_cast_ptrdiff_t by lia.
  rewrite advance_begin by lia.
  unfold end_.
  destruct (Z.eqb_spec offset (size c)) as [Heq | _]; [lia|]. cbn [negb].
  destruct (deref_inside c offset) as [x [Hd [Hn Hin]]]; [lia|].
  exists x. rewrite Hd. auto.
Qed.

(** On an empty collection no value comes back, in either build. *)
Lemma uniformFrom_empty (build : Build) (g : G) (fired : list string) :
  forall r, uniformFrom build (@nil A) g fired <> Returned r.
Proof.
  intros r. unfold uniformFrom. step_monad. cbn [empty negb].
  destruct build; [discriminate|].
  destruct (uniform_to size_t (static_cast size_t (size (@nil A) - 1)) g)
    as [offset g'].
  unfold advance, begin. cbn [Z.add].
  destruct ((0 <=? static_cast ptrdiff_t offset)
            && (static_cast ptrdiff_t offset <=? size (@nil A))) eqn:E;
    [|discriminate].
  apply andb_true_iff in E. destruct E as [E1 E2].
  apply Z.leb_le in E1. apply Z.leb_le in E2.
  change (size (@nil A)) with 0 in E2.
  assert (E0 : static_cast ptrdiff_t offset = 0) by lia.
  rewrite E0. cbn. discriminate.
Qed.

End PickFacts.

(** C5.  On a non-empty collection [uniformFrom] draws an offset between 0 and
    [size - 1] with [uniform] and returns the element the iterator reaches after
    that many steps, an element of the collection; on a collection of one
    element it returns that element; on an empty collection the first assertion
    fails, which is fatal when assertions are, and no value is returned in
    either build. *)
Theorem uniformFrom_picks_an_element :
  forall (G : Type) `{StdConforming G} (A : Type) (build : Build)
         (collection : list A) (only : A) (g : G) (fired : list string),
    (collection <> [] -> size collection <= max_size ->
     exists (offset : Z) (x : A),
       offset = fst (uniform_to size_t (size collection - 1) g) /\
       0 <= offset <= size collection - 1 /\
       advance collection (begin collection) offset = Some offset /\
       deref collection offset = Some x /\
       In x collection /\
       uniformFrom build collection g fired =
         Returned (x, snd (uniform_to size_t (size collection - 1) g), fired)) /\
    uniformFrom build [only] g fired =
      Returned (only, snd (uniform_to size_t 0 g), fired) /\
    uniformFrom FatalAssertions (@nil A) g fired =
      Terminated "!collection.empty()" /\
    (forall r, uniformFrom build (@nil A) g fired <> Returned r).
Proof.
  intros G R C A build collection only g fired.
  split; [|split; [|split]].
  - intros Hne Hsz.
    pose proof (uniformFrom_offset_bounds collection g Hne Hsz) as Hoff.
    destruct (uniformFrom_nonempty build collection g fired Hne Hsz)
      as [x [Hn [Hin Hrun]]].
    pose proof (size_nonempty collection Hne) as H1.
    pose proof max_size_lt_size_t as Hm.
    unfold uniformFrom_offset in *.
    rewrite static_cast_size_t in * by lia.
    exists (fst (uniform_to size_t (size collection - 1) g)), x.
    repeat split; try tauto; try lia.
    + apply advance_begin. lia.
    + destruct (deref_inside collection
                  (fst (uniform_to size_t (size collection - 1) g)))
        as [y [Hd [Hn' _]]]; [lia|].
      congruence.
  - assert (Hne : [only] <> []) by discriminate.
    assert (Hsz : size [only] <= max_size) by (vm_compute; discriminate).
    pose proof (uniformFrom_offset_bounds [only] g Hne Hsz) as Hoff.
    destruct (uniformFrom_nonempty build [only] g fired Hne Hsz)
      as [x [Hn [Hin Hrun]]].
    unfold uniformFrom_offset in *.
    change (static_cast size_t (size [only] - 1)) with 0 in *.
    destruct Hin as [<- | []]. exact Hrun.
  - reflexivity.
  - apply uniformFrom_empty.
Qed.

Lemma uniformFrom_picks_an_element_witness :
  (([10; 20; 30] <> [] -> size [10; 20; 30] <= max_size ->
    exists (offset : Z) (x : Z),
      offset = fst (uniform_to size_t (size [10; 20; 30] - 1) [7]) /\
      0 <= offset <= size [10; 20; 30] - 1 /\
      advance [10; 20; 30] (begin [10; 20; 30]) offset = Some offset /\
      deref [10; 20; 30] offset = Some x /\
      In x [10; 20; 30] /\
      uniformFrom NonFatalAssertions [10; 20; 30] [7] [] =
        Returned (x, snd (uniform_to size_t (size [10; 20; 30] - 1) [7]), [])) /\
   uniformFrom NonFatalAssertions [40] [7] [] =
     Returned (40, snd (uniform_to size_t 0 [7]), []) /\
   uniformFrom FatalAssertions (@nil Z) [7] [] =
     Terminated "!collection.empty()" /\
   (forall r, uniformFrom NonFatalAssertions (@nil Z) [7] [] <> Returned r)) /\
  uniformFrom NonFatalAssertions [10; 20; 30] [7] [] = Returned (20, [], []).
Proof.
  split.
  - exact (uniformFrom_picks_an_element Replay.generator_type Z
             NonFatalAssertions [10; 20; 30] 40 [7] []).
  - vm_compute. reflexivity.
Defined.

(** C10.  Once [uniformFrom] is past its first assertion, the offset it draws
    lies between 0 and [size - 1], the iterator it advances stops before
    [collection.end()], and the second assertion holds: the call returns with no
    assertion failure, in a fatal build as in a non-fatal one. *)
Theorem uniformFrom_end_unreachable :
  forall (G : Type) `{StdConforming G} (A : Type) (build : Build)
         (collection : list A) (g : G) (fired : list string),
    collection <> [] -> size collection <= max_size ->
    let offset :=
      fst (uniform_to size_t (static_cast size_t (size collection - 1)) g) in
    0 <= offset <= size collection - 1 /\
    advance collection (begin collection) (static_cast ptrdiff_t offset) =
      Some offset /\
    (offset =? end_ collection) = false /\
    exists x : A,
      uniformFrom build collection g fired =
        Returned (x,
                  snd (uniform_to size_t
                         (static_cast size_t (size collection - 1)) g),
                  fired).
Proof.
  intros G R C A build collection g fired Hne Hsz offset.
  pose proof (uniformFrom_offset_bounds collection g Hne Hsz) as Hoff.
  change (fst (uniformFrom_offset collection g)) with offset in Hoff.
  assert (Hmax : max_size = int_max ptrdiff_t) by reflexivity.
  split; [exact Hoff|]. split; [|split].
  - rewrite static_cast_ptrdiff_t by lia. apply advance_begin. lia.
  - apply Z.eqb_neq. unfold end_. lia.
  - destruct (uniformFrom_nonempty build collection g fired Hne Hsz)
      as [x [_ [_ Hrun]]].
    exists x. exact Hrun.
Qed.

Lemma uniformFrom_end_unreachable_witness :
  [10; 20; 30] <> [] /\ size [10; 20; 30] <= max_size /\
  let offset :=
    fst (uniform_to size_t (static_cast size_t (size [10; 20; 30] - 1)) [5]) in
  0 <= offset <= size [10; 20; 30] - 1 /\
  advance [10; 20; 30] (begin [10; 20; 30]) (static_cast ptrdiff_t offset) =
    Some offset /\
  (offset =? end_ [10; 20; 30]) = false /\
  exists x : Z,
    uniformFrom FatalAssertions [10; 20; 30] [5] [] =
      Returned (x, snd (uniform_to size_t
                          (static_cast size_t (size [10; 20; 30] - 1)) [5]), []).
Proof.
  assert (Hne : [10; 20; 30] <> []) by discriminate.
  assert (Hsz : size [10; 20; 30] <= max_size) by (vm_compute; discriminate).
  split; [exact Hne|]. split; [exact Hsz|].
  exact (uniformFrom_end_unreachable Replay.generator_type Z FatalAssertions
           [10; 20; 30] [5] [] Hne Hsz).
Defined.

(* ================================================================== *)
(** * weightedFrom: the discrete draw *)
(* ================================================================== *)

(** ** The order is asymmetric *)

Lemma flt_asym (x y : spec_float) : flt x y = true -> flt y x = false.
Proof.
  unfold flt, SFltb.
  destruct x as [sx | sx | | sx mx ex], y as [sy | sy | | sy my ey];
    cbn [SFcompare]; try destruct sx; try destruct sy;
    try discriminate; try reflexivity;
    change (Pos.compare_cont Eq mx my) with (Pos.compare mx my);
    change (Pos.compare_cont Eq my mx) with (Pos.compare my mx);
    rewrite (Z.compare_antisym ex ey), (Pos.compare_antisym mx my);
    destruct (Z.compare ex ey); destruct (Pos.compare mx my); cbn; congruence.
Qed.


(** ** The search *)

Lemma lower_bound_loop_spec (cp : list spec_float) (val : spec_float) :
  forall (fuel first len : nat),
    (len <= fuel)%nat ->
    (first = 0%nat \/ flt (nth (first - 1) cp S754_nan) val = true) ->
    (first + len = length cp \/
     flt (nth (first + len) cp S754_nan) val = false)%nat ->
    (first <= lower_bound_loop fuel cp val first len <= first + len)%nat /\
    (lower_bound_loop fuel cp val first len = 0%nat \/
     flt (nth (lower_bound_loop fuel cp val first len - 1) cp S754_nan) val =
       true) /\
    (lower_bound_loop fuel cp val first len = length cp \/
     flt (nth (lower_bound_loop fuel cp val first len) cp S754_nan) val = false).
Proof.
  induction fuel as [|fuel IH]; intros first len Hfuel Hleft Hright.
  - assert (len = 0%nat) by lia. subst len. cbn [lower_bound_loop].
    rewrite Nat.add_0_r in Hright. split; [lia | now split].
  - cbn [lower_bound_loop].
    destruct (Nat.ltb_spec 0 len) as [Hpos | Hzero].
    + pose proof (Nat.lt_div2 len Hpos) as Hhalf.
      cbv zeta. set (half := Nat.div2 len) in *. clearbody half.
      destruct (flt (nth (first + half) cp S754_nan) val) eqn:Em.
      * destruct (IH (S (first + half)) (len - half - 1)%nat)
          as [Hr [Hl Hu]].
        -- lia.
        -- right. replace (S (first + half) - 1)%nat
             with (first + half)%nat by lia. exact Em.
        -- replace (S (first + half) + (len - half - 1))%nat
             with (first + len)%nat by lia. exact Hright.
        -- split; [lia | now split].
      * destruct (IH first half) as [Hr [Hl Hu]].
        -- lia.
        -- exact Hleft.
        -- right. exact Em.
        -- split; [lia | now split].
    + assert (len = 0%nat) by lia. subst len.
      rewrite Nat.add_0_r in Hright. split; [lia | now split].
Qed.

(** [lower_bound] returns a position with a smaller value before it, if any,
    and no smaller value at it. *)
Lemma lower_bound_spec (cp : list spec_float) (val : spec_float) :
  (lower_bound cp val <= length cp)%nat /\
  (lower_bound cp val = 0%nat \/
   flt (nth (lower_bound cp val - 1) cp S754_nan) val = true) /\
  (lower_bound cp val = length cp \/
   flt (nth (lower_bound cp val) cp S754_nan) val = false).
Proof.
  unfold lower_bound.
  destruct (lower_bound_loop_spec cp val (length cp) 0 (length cp))
    as [Hr [Hl Hu]]; [lia | now left | now left |].
  split; [lia | now split].
Qed.

(** ** The table of cumulative probabilities *)

Lemma partial_sum_from_length (T : FloatType) (l : list spec_float) :
  forall acc, length (partial_sum_from T acc l) = length l.
Proof.
  induction l as [|x l IH]; intros acc; cbn [partial_sum_from length];
    [reflexivity | now rewrite IH].
Qed.

Lemma partial_sum_length (T : FloatType) (l : list spec_float) :
  length (partial_sum T l) = length l.
Proof.
  destruct l as [|x l]; cbn [partial_sum length]; [reflexivity|].
  now rewrite partial_sum_from_length.
Qed.



Lemma removelast_length {A : Type} (l : list A) :
  length (removelast l) = Nat.pred (length l).
Proof. rewrite removelast_firstn_len, length_firstn. lia. Qed.

Lemma set_last_length (l : list spec_float) (x : spec_float) :
  length (set_last l x) = length l.
Proof.
  destruct l as [|y l]; [reflexivity|].
  unfold set_last. rewrite length_app, removelast_length. cbn [length]. lia.
Qed.


Lemma set_last_nth_last (l : list spec_float) (x : spec_float) :
  l <> [] -> nth (length l - 1) (set_last l x) S754_nan = x.
Proof.
  intros Hl. destruct l as [|y l]; [congruence|].
  unfold set_last.
  rewrite app_nth2 by (rewrite removelast_length; cbn [length]; lia).
  rewrite removelast_length.
  replace (length (y :: l) - 1 - Nat.pred (length (y :: l)))%nat with 0%nat
    by (cbn [length]; lia).
  reflexivity.
Qed.

Lemma cumulative_length (weights : list spec_float) :
  length (cumulative_probabilities weights) =
    if (length weights <? 2)%nat then 0%nat else length weights.
Proof.
  unfold cumulative_probabilities. rewrite length_map.
  destruct (length weights <? 2)%nat; [reflexivity|].
  unfold normalize.
  now rewrite set_last_length, partial_sum_length, !length_map.
Qed.

(** The last cumulative probability is 1. *)
Lemma cumulative_last (weights : list spec_float) :
  (2 <= length weights)%nat ->
  nth (length weights - 1) (cumulative_probabilities weights) S754_nan =
    fone Double.
Proof.
  intros Hn. unfold cumulative_probabilities. rewrite length_map.
  destruct (Nat.ltb_spec (length weights) 2) as [Hlt | _]; [lia|].
  set (ps := partial_sum Double _).
  assert (Hlen : length ps = length weights)
    by (unfold ps, normalize; now rewrite partial_sum_length, !length_map).
  rewrite <- Hlen. apply set_last_nth_last.
  intros E. rewrite E in Hlen. cbn in Hlen. lia.
Qed.


(** ** The draw *)

Section WeightedFacts.

Context {G : Type} `{StdConforming G}.

(** With fewer than two weights the distribution draws 0 and leaves the
    generator as it is. *)
Lemma discrete_few (weights : list spec_float) (g : G) :
  (length weights < 2)%nat -> discrete_distribution weights g = (0, g).
Proof.
  intros Hn. rewrite discrete_lower_bound. unfold lower_bound_draw.
  pose proof (cumulative_length weights) as Hl.
  destruct (Nat.ltb_spec (length weights) 2) as [_ | Hge]; [|lia].
  destruct (cumulative_probabilities weights); [reflexivity | discriminate].
Qed.

(** With two weights or more it draws the position of a canonical [double] in
    the table. *)
Lemma discrete_many (weights : list spec_float) (g : G) :
  (2 <= length weights)%nat ->
  discrete_distribution weights g =
    (Z.of_nat (lower_bound (cumulative_probabilities weights)
                 (fst (generate_canonical Double g))),
     snd (generate_canonical Double g)).
Proof.
  intros Hn. rewrite discrete_lower_bound. unfold lower_bound_draw.
  pose proof (cumulative_length weights) as Hl.
  destruct (Nat.ltb_spec (length weights) 2) as [Hlt | _]; [lia|].
  destruct (cumulative_probabilities weights) as [|c cp] eqn:E;
    [cbn in Hl; lia|].
  now destruct (generate_canonical Double g).
Qed.

(** No value of the table that is 1 is below the canonical draw. *)
Lemma one_not_below (g : G) :
  flt (fone Double) (fst (generate_canonical Double g)) = false.
Proof.
  destruct (canonical_range Double g) as [_ [_ Hlt]]. now apply flt_asym.
Qed.

(** The index drawn is a position of the weights, or 0 when there are none. *)
Lemma discrete_index_range (weights : list spec_float) (g : G) :
  0 <= fst (discrete_distribution weights g) <
    Z.max 1 (Z.of_nat (length weights)).
Proof.
  destruct (Nat.lt_ge_cases (length weights) 2) as [Hlt | Hge].
  - rewrite discrete_few by exact Hlt. cbn [fst]. lia.
  - rewrite discrete_many by exact Hge. cbn [fst].
    set (cp := cumulative_probabilities weights).
    set (p := fst (generate_canonical Double g)).
    destruct (lower_bound_spec cp p) as [Hr [Hl _]].
    assert (Hlen : length cp = length weights).
    { unfold cp. rewrite cumulative_length.
      destruct (Nat.ltb_spec (length weights) 2); [lia | reflexivity]. }
    destruct (Nat.eq_dec (lower_bound cp p) (length cp)) as [Heq | Hne]; [|lia].
    destruct Hl as [Hl | Hl]; [lia|].
    rewrite Heq, Hlen in Hl. unfold cp in Hl.
    rewrite cumulative_last in Hl by exact Hge.
    unfold p in Hl. rewrite one_not_below in Hl. discriminate.
Qed.




Context {A : Type}.

(** What [weightedFrom] does once the index is drawn. *)
Lemma weightedFrom_at (build : Build) (weights : list spec_float)
    (collection : list A) (g : G) (fired : list string) :
  0 <= fst (discrete_distribution weights g) <= max_size ->
  weightedFrom build weights collection g fired =
    let offset := fst (discrete_distribution weights g) in
    let g' := snd (discrete_distribution weights g) in
    if offset <? size collection
    then match nth_error collection (Z.to_nat offset) with
         | Some x => Returned (x, g', fired)
         | None => Undefined
         end
    else if offset =? size collection
         then match build with
              | FatalAssertions => Terminated "it != collection.end()"
              | NonFatalAssertions => Undefined
              end
         else Undefined.
Proof.
  intros Hoff. unfold weightedFrom. step_monad.
  destruct (discrete_distribution weights g) as [offset g'].
  cbn [fst snd] in *. cbv zeta.
  assert (Hmax : max_size = int_max ptrdiff_t) by reflexivity.
  rewrite static_cast_ptrdiff_t by lia.
  unfold advance, begin, end_, deref. cbn [Z.add].
  assert (E0 : (0 <=? offset) = true) by (apply Z.leb_le; lia).
  rewrite !E0. cbn [andb].
  destruct (Z.ltb_spec offset (size collection)) as [Hlt | Hge].
  - assert (E1 : (offset <=? size collection) = true) by (apply Z.leb_le; lia).
    assert (E2 : (offset =? size collection) = false) by (apply Z.eqb_neq; lia).
    assert (E3 : (offset <? size collection) = true) by (apply Z.ltb_lt; lia).
    rewrite E1, E2. cbn [negb]. rewrite E0, E3. cbn [andb].
    destruct (nth_error collection (Z.to_nat offset)); reflexivity.
  - assert (E3 : (offset <? size collection) = false) by (apply Z.ltb_ge; lia).
    destruct (Z.eq_dec offset (size collection)) as [Heq | Hne].
    + assert (E1 : (offset <=? size collection) = true) by (apply Z.leb_le; lia).
      assert (E2 : (offset =? size collection) = true) by (apply Z.eqb_eq; lia).
      rewrite E1, E2. cbn [negb]. destruct build; [reflexivity|].
      rewrite E0, E3. reflexivity.
    + assert (E1 : (offset <=? size collection) = false) by (apply Z.leb_gt; lia).
      assert (E2 : (offset =? size collection) = false) by (apply Z.eqb_neq; lia).
      rewrite E1, E2. reflexivity.
Qed.

(** With no more weights than elements, and an element to return,
    [weightedFrom] returns the element at the index drawn. *)
Lemma weightedFrom_inside (build : Build) (weights : list spec_float)
    (collection : list A) (g : G) (fired : list string) :
  collection <> [] -> (length weights <= length collection)%nat ->
  size collection <= max_size ->
  exists x : A,
    nth_error collection (Z.to_nat (fst (discrete_distribution weights g))) =
      Some x /\
    weightedFrom build weights collection g fired =
      Returned (x, snd (discrete_distribution weights g), fired).
Proof.
  intros Hne Hlen Hsz.
  pose proof (discrete_index_range weights g) as Hi.
  pose proof (size_nonempty collection Hne) as Hs.
  assert (Hsize : size collection = Z.of_nat (length collection)) by reflexivity.
  rewrite (weightedFrom_at build) by lia. cbv zeta.
  set (offset := fst (discrete_distribution weights g)) in *.
  assert (E3 : (offset <? size collection) = true) by (apply Z.ltb_lt; lia).
  rewrite E3.
  destruct (nth_error collection (Z.to_nat offset)) as [x|] eqn:E.
  - exists x. now split.
  - apply nth_error_None in E. lia.
Qed.

End WeightedFacts.




(** The same on an engine of 64-bit words: the smallest word selects the first
    element, of weight zero. *)
Example canonical_weightedFrom_zero_weight :
  @weightedFrom _ (Canonical.std_random 64) NonFatalAssertions _
    [fzero; half; quarter] [10; 20; 30] [0] [] = Returned (10, [], []) /\
  @weightedFrom _ (Canonical.std_random 64) NonFatalAssertions _
    weights_1_0_0 [10; 20; 30] [2 ^ 64 - 1] [] = Returned (10, [], []).
Proof. split; vm_compute; reflexivity. Qed.

(* ================================================================== *)
(** * The server provider *)
(* ================================================================== *)

(** C8.  [ServerRandomTraits::generator()] holds nothing that records a seeding:
    its assertion fails on every call.  In a fatal build that ends the process.
    In a non-fatal build the failure is reported and the function goes on: the
    first call constructs the static generator from one word of the entropy
    source, later calls find it, and either way the generator is returned. *)
Theorem server_generator_asserts_then_seeds :
  forall (G : Type) `{StdRandom G} (p : Process G) (fired : list string),
    ServerRandomTraits_generator FatalAssertions p fired =
      Terminated "user server seed please!" /\
    (s_fastGenerator p = None ->
     ServerRandomTraits_generator NonFatalAssertions p fired =
       Returned (seeded (static_cast UInt (entropy p (entropy_reads p))),
                 {| entropy := entropy p;
                    entropy_reads := S (entropy_reads p);
                    s_fastGenerator :=
                      Some (seeded (static_cast UInt (entropy p (entropy_reads p)))) |},
                 fired ++ ["user server seed please!"%string])) /\
    (forall g : G, s_fastGenerator p = Some g ->
     ServerRandomTraits_generator NonFatalAssertions p fired =
       Returned (g, p, fired ++ ["user server seed please!"%string])).
Proof.
  intros G R p fired. split; [reflexivity|]. split.
  - intros Hnone. unfold ServerRandomTraits_generator, static_generator.
    step_monad. rewrite Hnone. reflexivity.
  - intros g Hsome. unfold ServerRandomTraits_generator, static_generator.
    step_monad. rewrite Hsome. reflexivity.
Qed.

(** On [process_a], whose entropy source delivers the word 1 and whose static
    generator does not exist yet: the fatal build stops, and the non-fatal build
    reports the failure and returns the generator seeded with 1, which a call
    without generator argument then draws from and leaves advanced. *)
Example server_generator_first_call :
  ServerRandomTraits_generator FatalAssertions process_a [] =
    Terminated "user server seed please!" /\
  ServerRandomTraits_generator NonFatalAssertions process_a [] =
    Returned ([1],
              {| entropy := entropy process_a; entropy_reads := 1;
                 s_fastGenerator := Some [1] |},
              ["user server seed please!"%string]) /\
  call ServerRandomTraits NonFatalAssertions (draw (uniform_to Int 9))
       (Defaulted, process_a) [] =
    Returned (1,
              (Defaulted,
               {| entropy := entropy process_a; entropy_reads := 1;
                  s_fastGenerator := Some [] |}),
              ["user server seed please!"%string]).
Proof. repeat split. Qed.

(** The fast provider makes no assertion: it seeds on the first call and
    returns the static generator afterwards. *)
Lemma fast_generator_seeds :
  forall (G : Type) `{StdRandom G} (build : Build) (p : Process G)
         (fired : list string),
    s_fastGenerator p = None ->
    FastRandomTraits_generator build p fired =
      Returned (seeded (static_cast UInt (entropy p (entropy_reads p))),
                {| entropy := entropy p;
                   entropy_reads := S (entropy_reads p);
                   s_fastGenerator :=
                     Some (seeded (static_cast UInt (entropy p (entropy_reads p)))) |},
                fired).
Proof.
  intros G R build p fired Hnone.
  unfold FastRandomTraits_generator, static_generator.
  rewrite Hnone. reflexivity.
Qed.

(* ================================================================== *)
(** * Further properties of the sampler *)
(* ================================================================== *)

(** X1.  [uniform<T>(to)] returns a value between 0 and [to], both included;
    with [to = 0] it returns 0. *)
Theorem uniform_to_in_range :
  forall (G : Type) `{StdConforming G} (T : IntType) (to : Z) (g : G),
    0 <= to <= int_max T ->
    0 <= fst (uniform_to T to g) <= to /\
    (to = 0 -> fst (uniform_to T to g) = 0).
Proof.
  intros G R C T to g Hto.
  pose proof (uniform_to_bounds T to g Hto) as Hb.
  split; [exact Hb | lia].
Qed.

Lemma uniform_to_in_range_witness :
  0 <= 9 <= int_max Short /\
  (0 <= fst (uniform_to Short 9 [123]) <= 9 /\
   (9 = 0 -> fst (uniform_to Short 9 [123]) = 0)) /\
  uniform_to Short 9 [123] = (3, []).
Proof.
  assert (Hto : 0 <= 9 <= int_max Short) by (vm_compute; split; discriminate).
  split; [exact Hto|]. split.
  - exact (uniform_to_in_range Replay.generator_type Short 9 [123] Hto).
  - vm_compute. reflexivity.
Defined.

(** X2.  [uniform<T>(from, to)] with [from <= to] returns a value between
    [from] and [to], both included, and both bounds are possible results. *)
Theorem uniform_range_in_range :
  forall (G : Type) `{StdConforming G} `{!StdSupport G} (T : IntType)
         (from to : Z),
    in_range T from -> in_range T to -> from <= to ->
    (forall g : G, from <= fst (uniform_range T from to g) <= to) /\
    (exists g : G, fst (uniform_range T from to g) = from) /\
    (exists g : G, fst (uniform_range T from to g) = to).
Proof.
  intros G R C S T from to Hf Ht Hle. unfold uniform_range.
  split; [|split].
  - intros g. now apply uniform_int_range.
  - apply uniform_int_support; trivial. lia.
  - apply uniform_int_support; trivial. lia.
Qed.

Lemma uniform_range_in_range_witness :
  (in_range Int (-5) /\ in_range Int 5 /\ -5 <= 5) /\
  ((forall g : Replay.generator_type,
      -5 <= fst (uniform_range Int (-5) 5 g) <= 5) /\
   (exists g : Replay.generator_type, fst (uniform_range Int (-5) 5 g) = -5) /\
   (exists g : Replay.generator_type, fst (uniform_range Int (-5) 5 g) = 5)).
Proof.
  assert (Hf : in_range Int (-5)) by (vm_compute; split; discriminate).
  assert (Ht : in_range Int 5) by (vm_compute; split; discriminate).
  assert (Hle : -5 <= 5) by discriminate.
  split; [repeat split; assumption|].
  exact (uniform_range_in_range Replay.generator_type Int (-5) 5 Hf Ht Hle).
Defined.

(** X3.  [probability<T>()] returns a value between 0 and 100, both included. *)
Theorem probability_percentage :
  forall (G : Type) `{StdConforming G} (T : IntType) (g : G),
    0 <= fst (probability T g) <= 100.
Proof.
  intros G R C T g. unfold probability.
  replace (static_cast T 0) with 0 by (now destruct T).
  replace (static_cast T 100) with 100 by (now destruct T).
  apply uniform_int_range; [apply in_range_0 | | lia].
  destruct T; vm_compute; split; discriminate.
Qed.

Lemma probability_percentage_witness :
  0 <= fst (probability UShort [250]) <= 100 /\
  probability UShort [250] = (48, []).
Proof.
  split.
  - exact (probability_percentage Replay.generator_type UShort [250]).
  - vm_compute. reflexivity.
Defined.

(** X4.  [shuffle] keeps the elements of the range: the result is a
    permutation of it, of the same length. *)
Theorem shuffle_is_permutation :
  forall (G : Type) `{StdConforming G} (A : Type) (l : list A) (g : G),
    Permutation l (fst (shuffle l g)) /\
    length (fst (shuffle l g)) = length l.
Proof.
  intros G R C A l g. unfold shuffle.
  pose proof (shuffle_permutation A l g) as Hp.
  split; [exact Hp|]. symmetry. now apply Permutation_length.
Qed.

Lemma shuffle_is_permutation_witness :
  (Permutation [1; 2; 3] (fst (shuffle [1; 2; 3] [9])) /\
   length (fst (shuffle [1; 2; 3] [9])) = length [1; 2; 3]) /\
  shuffle [1; 2; 3] [9] = ([3; 2; 1], []).
Proof.
  split.
  - exact (shuffle_is_permutation Replay.generator_type Z [1; 2; 3] [9]).
  - vm_compute. reflexivity.
Defined.

(** A draw at the canonical value 0 is the lower bound. *)
Lemma scale_at_zero_draw (T : FloatType) (from to : spec_float) :
  is_finite from = true -> is_finite (fsub T to from) = true ->
  SFcompare (scale T from to fzero) from = Some Eq /\
  (forall s m e, from = S754_finite s m e -> scale T from to fzero = from).
Proof.
  intros Hf Hd. unfold scale, fmul, fadd.
  destruct (fsub T to from) as [sd | sd | | sd md ed]; try discriminate;
    destruct from as [sf | sf | | sf mf ef]; try discriminate;
    cbn [SFmul SFadd fzero xorb].
  - split; [destruct sd, sf; reflexivity | discriminate].
  - split; [|reflexivity]. apply SFcompare_refl. discriminate.
  - split; [destruct sd, sf; reflexivity | discriminate].
  - split; [|reflexivity]. apply SFcompare_refl. discriminate.
Qed.

(** X6.  [uniformf<T>(from, to)] hands [from] and [to] to the distribution as
    they are, without the [nextafter] adjustment of [uniformf(to)]: the result
    is [c * (to - from) + from] for the canonical draw [c], with the roundings
    of [T].  Where the canonical draw is 0 the result is equal to [from], so
    [from] is a possible result.  The upper bound is not excluded:
    [uniformf<float>(1, 2)] returns 2 where the canonical draw is the last
    [float] below 1. *)
Theorem uniformf_range_ends :
  forall (G : Type) `{StdConforming G} `{!StdSupport G} (T : FloatType)
         (from to : spec_float),
    is_finite from = true -> is_finite (fsub T to from) = true ->
    (forall g : G,
       uniformf_range T from to g =
         (fadd T (fmul T (fst (generate_canonical T g)) (fsub T to from)) from,
          snd (generate_canonical T g)) /\
       (fst (generate_canonical T g) = fzero ->
        SFcompare (fst (uniformf_range T from to g)) from = Some Eq /\
        (forall s m e, from = S754_finite s m e ->
                       fst (uniformf_range T from to g) = from))) /\
    (exists g : G,
       SFcompare (fst (uniformf_range T from to g)) from = Some Eq) /\
    (forall g : G,
       fst (generate_canonical Float g) = nextafter Float (fone Float) fzero ->
       fst (uniformf_range Float (fone Float) (fadd Float (fone Float) (fone Float))
              g) = fadd Float (fone Float) (fone Float)) /\
    (exists g : G,
       fst (uniformf_range Float (fone Float) (fadd Float (fone Float) (fone Float))
              g) = fadd Float (fone Float) (fone Float)).
Proof.
  intros G R C S T from to Hf Hd.
  assert (Hzero : forall g : G,
            fst (generate_canonical T g) = fzero ->
            SFcompare (fst (uniformf_range T from to g)) from = Some Eq /\
            (forall s m e, from = S754_finite s m e ->
                           fst (uniformf_range T from to g) = from)).
  { intros g Hg. unfold uniformf_range. rewrite real_draw. cbn [fst].
    rewrite Hg. now apply scale_at_zero_draw. }
  assert (Htwo : forall g : G,
            fst (generate_canonical Float g) =
              nextafter Float (fone Float) fzero ->
            fst (uniformf_range Float (fone Float)
                   (fadd Float (fone Float) (fone Float)) g) =
              fadd Float (fone Float) (fone Float)).
  { intros g Hg. unfold uniformf_range. rewrite real_draw. cbn [fst].
    rewrite Hg. vm_compute. reflexivity. }
  split; [|split; [|split]].
  - intros g. split; [|apply Hzero].
    unfold uniformf_range. now rewrite real_draw.
  - destruct (canonical_smallest T) as [g Hg]. exists g. now apply Hzero.
  - exact Htwo.
  - destruct (canonical_largest Float) as [g Hg]. exists g. now apply Htwo.
Qed.

Lemma uniformf_range_ends_witness :
  (is_finite quarter = true /\
   is_finite (fsub Float three_quarters quarter) = true) /\
  ((forall g : Replay.generator_type,
      uniformf_range Float quarter three_quarters g =
        (fadd Float (fmul Float (fst (generate_canonical Float g))
                       (fsub Float three_quarters quarter)) quarter,
         snd (generate_canonical Float g)) /\
      (fst (generate_canonical Float g) = fzero ->
       SFcompare (fst (uniformf_range Float quarter three_quarters g)) quarter =
         Some Eq /\
       (forall s m e, quarter = S754_finite s m e ->
                      fst (uniformf_range Float quarter three_quarters g) =
                        quarter))) /\
   (exists g : Replay.generator_type,
      SFcompare (fst (uniformf_range Float quarter three_quarters g)) quarter =
        Some Eq) /\
   (forall g : Replay.generator_type,
      fst (generate_canonical Float g) = nextafter Float (fone Float) fzero ->
      fst (uniformf_range Float (fone Float)
             (fadd Float (fone Float) (fone Float)) g) =
        fadd Float (fone Float) (fone Float)) /\
   (exists g : Replay.generator_type,
      fst (uniformf_range Float (fone Float)
             (fadd Float (fone Float) (fone Float)) g) =
        fadd Float (fone Float) (fone Float))) /\
  uniformf_range Float quarter three_quarters [0] = (quarter, []) /\
  uniformf_range Float quarter three_quarters [Replay.encode Float half] =
    (half, []) /\
  @uniformf_range _ (Canonical.std_random 32) Float (fone Float)
    (fadd Float (fone Float) (fone Float)) [2 ^ 32 - 1] =
    (fadd Float (fone Float) (fone Float), []).
Proof.
  split; [split; reflexivity|]. split.
  - exact (uniformf_range_ends Replay.generator_type Float quarter
             three_quarters eq_refl eq_refl).
  - repeat split; vm_compute; reflexivity.
Defined.

(** X7.  [yesNo] is true exactly when the draw from [[0, 1]] is 1, and both
    answers are possible. *)
Theorem yesNo_follows_the_draw :
  forall (G : Type) `{StdConforming G} `{!StdSupport G},
    (forall g : G,
       (fst (uniform_range Int 0 1 g) = 0 /\ fst (yesNo g) = false) \/
       (fst (uniform_range Int 0 1 g) = 1 /\ fst (yesNo g) = true)) /\
    (exists g : G, fst (yesNo g) = true) /\
    (exists g : G, fst (yesNo g) = false).
Proof.
  intros G R C S.
  assert (H0 : in_range Int 0) by apply in_range_0.
  assert (H1 : in_range Int 1) by (vm_compute; split; discriminate).
  assert (Hdraw : forall g v, fst (uniform_range Int 0 1 g) = v ->
                              fst (yesNo g) = negb (v =? 0)).
  { intros g v E. unfold yesNo.
    destruct (uniform_range Int 0 1 g) as [v' g']. cbn [fst] in *. now subst. }
  split; [|split].
  - intros g.
    pose proof (uniform_int_range Int 0 1 g H0 H1 ltac:(lia)) as Hb.
    fold (uniform_range Int 0 1 g) in Hb.
    assert (Hc : fst (uniform_range Int 0 1 g) = 0 \/
                 fst (uniform_range Int 0 1 g) = 1) by lia.
    destruct Hc as [E | E]; [left | right];
      (split; [exact E | now rewrite (Hdraw g _ E)]).
  - destruct (uniform_int_support Int 0 1 1 H0 H1 ltac:(lia)) as [g E].
    exists g. now rewrite (Hdraw g 1 E).
  - destruct (uniform_int_support Int 0 1 0 H0 H1 ltac:(lia)) as [g E].
    exists g. now rewrite (Hdraw g 0 E).
Qed.

Lemma yesNo_follows_the_draw_witness :
  ((forall g : Replay.generator_type,
      (fst (uniform_range Int 0 1 g) = 0 /\ fst (yesNo g) = false) \/
      (fst (uniform_range Int 0 1 g) = 1 /\ fst (yesNo g) = true)) /\
   (exists g : Replay.generator_type, fst (yesNo g) = true) /\
   (exists g : Replay.generator_type, fst (yesNo g) = false)) /\
  yesNo [7] = (true, []) /\ yesNo [8] = (false, []).
Proof.
  split.
  - exact (yesNo_follows_the_draw Replay.generator_type).
  - split; vm_compute; reflexivity.
Defined.

(** X8.  The fast provider constructs its static generator once: the first call
    reads one word of the entropy source and seeds the generator with it, and a
    call after that returns the same generator and reads nothing. *)
Theorem fast_generator_constructed_once :
  forall (G : Type) `{StdRandom G} (build : Build) (p : Process G)
         (fired : list string),
    s_fastGenerator p = None ->
    exists (g : G) (p' : Process G),
      g = seeded (static_cast UInt (entropy p (entropy_reads p))) /\
      FastRandomTraits_generator build p fired = Returned (g, p', fired) /\
      entropy_reads p' = S (entropy_reads p) /\
      s_fastGenerator p' = Some g /\
      FastRandomTraits_generator build p' fired = Returned (g, p', fired).
Proof.
  intros G R build p fired Hnone.
  eexists. eexists. split; [reflexivity|]. split.
  - now apply fast_generator_seeds.
  - repeat split.
Qed.

Lemma fast_generator_constructed_once_witness :
  s_fastGenerator process_a = None /\
  exists (g : Replay.generator_type) (p' : Process Replay.generator_type),
    g = seeded (static_cast UInt (entropy process_a (entropy_reads process_a))) /\
    FastRandomTraits_generator NonFatalAssertions process_a [] =
      Returned (g, p', []) /\
    entropy_reads p' = S (entropy_reads process_a) /\
    s_fastGenerator p' = Some g /\
    FastRandomTraits_generator NonFatalAssertions p' [] = Returned (g, p', []).
Proof.
  split; [reflexivity|].
  exact (fast_generator_constructed_once Replay.generator_type NonFatalAssertions
           process_a [] eq_refl).
Defined.

(* ================================================================== *)
(** * Picking: reachable elements and overruns *)
(* ================================================================== *)

(** X9.  Every element of a non-empty collection is a possible result of
    [uniformFrom]: for each position there is a state of the generator at which
    the element at that position is returned. *)
Theorem uniformFrom_every_element_possible :
  forall (G : Type) `{StdConforming G} `{!StdSupport G} (A : Type)
         (build : Build) (collection : list A) (i : nat) (x : A)
         (fired : list string),
    size collection <= max_size -> nth_error collection i = Some x ->
    exists g : G,
      fst (uniform_to size_t (size collection - 1) g) = Z.of_nat i /\
      uniformFrom build collection g fired =
        Returned (x, snd (uniform_to size_t (size collection - 1) g), fired).
Proof.
  intros G R C S A build collection i x fired Hsz Hnth.
  assert (Hi : (i < length collection)%nat)
    by (apply nth_error_Some; congruence).
  assert (Hne : collection <> []) by (intros ->; cbn in Hi; lia).
  pose proof max_size_lt_size_t as Hm.
  assert (Hs : size collection = Z.of_nat (length collection)) by reflexivity.
  destruct (uniform_int_support size_t 0 (size collection - 1) (Z.of_nat i))
    as [g Hg].
  - apply in_range_0.
  - split; [pose proof (int_min_nonpos size_t); lia | lia].
  - lia.
  - exists g.
    destruct (uniformFrom_nonempty build collection g fired Hne Hsz)
      as [y [Hy [_ Hrun]]].
    unfold uniformFrom_offset in *.
    rewrite static_cast_size_t in * by lia.
    assert (Hoff : fst (uniform_to size_t (size collection - 1) g) = Z.of_nat i).
    { unfold uniform_to. now rewrite static_cast_0. }
    split; [exact Hoff|].
    rewrite Hoff, Nat2Z.id in Hy. congruence.
Qed.

Lemma uniformFrom_every_element_possible_witness :
  (size [10; 20; 30] <= max_size /\ nth_error [10; 20; 30] 2 = Some 30) /\
  exists g : Replay.generator_type,
    fst (uniform_to size_t (size [10; 20; 30] - 1) g) = Z.of_nat 2 /\
    uniformFrom FatalAssertions [10; 20; 30] g [] =
      Returned (30, snd (uniform_to size_t (size [10; 20; 30] - 1) g), []).
Proof.
  assert (Hsz : size [10; 20; 30] <= max_size) by (vm_compute; discriminate).
  split; [split; [exact Hsz | reflexivity]|].
  exact (uniformFrom_every_element_possible Replay.generator_type Z
           FatalAssertions [10; 20; 30] 2%nat 30 [] Hsz eq_refl).
Defined.

(** X10.  When the index [weightedFrom] draws is not a position of the
    collection (more weights than elements, or an empty collection), the call
    has no defined result.  At the size of the collection the iterator is
    [end()]: the assertion fails, which ends a fatal build, and a non-fatal
    build goes on to dereference [end()], which is undefined.  Past the size
    the iterator was advanced beyond [end()], which is undefined in either
    build. *)
Theorem weightedFrom_overrun :
  forall (G : Type) `{StdConforming G} (A : Type) (build : Build)
         (weights : list spec_float) (collection : list A) (g : G)
         (fired : list string),
    Z.of_nat (length weights) <= max_size ->
    size collection <= fst (discrete_distribution weights g) ->
    (fst (discrete_distribution weights g) = size collection ->
     weightedFrom FatalAssertions weights collection g fired =
       Terminated "it != collection.end()" /\
     weightedFrom NonFatalAssertions weights collection g fired = Undefined) /\
    (size collection < fst (discrete_distribution weights g) ->
     weightedFrom build weights collection g fired = Undefined).
Proof.
  intros G R C A build weights collection g fired Hlen Hover.
  pose proof (discrete_index_range weights g) as Hi.
  assert (H1 : 1 <= max_size) by (vm_compute; discriminate).
  assert (Hoff : 0 <= fst (discrete_distribution weights g) <= max_size) by lia.
  assert (E3 : (fst (discrete_distribution weights g) <? size collection) = false)
    by (apply Z.ltb_ge; lia).
  split.
  - intros Heq.
    rewrite (weightedFrom_at FatalAssertions),
            (weightedFrom_at NonFatalAssertions) by exact Hoff.
    cbv zeta. rewrite E3.
    apply Z.eqb_eq in Heq. rewrite Heq. split; reflexivity.
  - intros Hlt. rewrite (weightedFrom_at build) by exact Hoff. cbv zeta.
    rewrite E3.
    assert (E2 : (fst (discrete_distribution weights g) =? size collection) = false)
      by (apply Z.eqb_neq; lia).
    now rewrite E2.
Qed.

Lemma weightedFrom_overrun_witness :
  (Z.of_nat (length [fzero; half; quarter]) <= max_size /\
   size [10] <= fst (discrete_distribution [fzero; half; quarter]
                       [Replay.encode Double (to_double half)])) /\
  ((fst (discrete_distribution [fzero; half; quarter]
           [Replay.encode Double (to_double half)]) = size [10] ->
    weightedFrom FatalAssertions [fzero; half; quarter] [10]
      [Replay.encode Double (to_double half)] [] =
      Terminated "it != collection.end()" /\
    weightedFrom NonFatalAssertions [fzero; half; quarter] [10]
      [Replay.encode Double (to_double half)] [] = Undefined) /\
   (size [10] < fst (discrete_distribution [fzero; half; quarter]
                       [Replay.encode Double (to_double half)]) ->
    weightedFrom FatalAssertions [fzero; half; quarter] [10]
      [Replay.encode Double (to_double half)] [] = Undefined)) /\
  fst (discrete_distribution [fzero; half; quarter]
         [Replay.encode Double (to_double half)]) = 1 /\
  weightedFrom FatalAssertions [fzero; half; quarter] [10]
    [Replay.encode Double (to_double half)] [] =
    Terminated "it != collection.end()" /\
  weightedFrom FatalAssertions [fzero; half; quarter] [10]
    [Replay.encode Double (to_double three_quarters)] [] = Undefined.
Proof.
  assert (Hlen : Z.of_nat (length [fzero; half; quarter]) <= max_size)
    by (vm_compute; discriminate).
  assert (Hover : size [10] <= fst (discrete_distribution [fzero; half; quarter]
                                      [Replay.encode Double (to_double half)]))
    by (vm_compute; discriminate).
  split; [split; assumption|]. split.
  - exact (weightedFrom_overrun Replay.generator_type Z FatalAssertions
             [fzero; half; quarter] [10]
             [Replay.encode Double (to_double half)] [] Hlen Hover).
  - repeat split; vm_compute; reflexivity.
Defined.

(** X11.  With no more weights than elements, and a collection that is not
    empty, [weightedFrom] always returns a value: the element at the index
    drawn, which is one of the first [max(1, weights.size())] elements, and the
    assertion holds.  With fewer than two weights the distribution has no table:
    the first element is returned and the generator is left as it was. *)
Theorem weightedFrom_fewer_weights :
  forall (G : Type) `{StdConforming G} (A : Type) (build : Build)
         (weights : list spec_float) (collection : list A) (g : G)
         (fired : list string),
    collection <> [] -> (length weights <= length collection)%nat ->
    size collection <= max_size ->
    (exists x : A,
       0 <= fst (discrete_distribution weights g) <
         Z.max 1 (Z.of_nat (length weights)) /\
       nth_error collection (Z.to_nat (fst (discrete_distribution weights g))) =
         Some x /\
       In x (firstn (Nat.max 1 (length weights)) collection) /\
       weightedFrom build weights collection g fired =
         Returned (x, snd (discrete_distribution weights g), fired)) /\
    ((length weights < 2)%nat ->
     forall (first : A) (rest : list A), collection = first :: rest ->
       weightedFrom build weights collection g fired =
         Returned (first, g, fired)).
Proof.
  intros G R C A build weights collection g fired Hne Hlen Hsz.
  pose proof (discrete_index_range weights g) as Hi.
  destruct (weightedFrom_inside build weights collection g fired Hne Hlen Hsz)
    as [x [Hx Hrun]].
  split.
  - exists x. split; [exact Hi|]. split; [exact Hx|]. split; [|exact Hrun].
    apply (nth_error_In _ (Z.to_nat (fst (discrete_distribution weights g)))).
    rewrite nth_error_firstn.
    assert (El : (Z.to_nat (fst (discrete_distribution weights g)) <?
                  Nat.max 1 (length weights))%nat = true)
      by (apply Nat.ltb_lt; lia).
    now rewrite El.
  - intros Hfew first rest ->.
    rewrite Hrun. rewrite (discrete_few weights g Hfew) in Hx |- *.
    cbn in Hx. injection Hx as <-. reflexivity.
Qed.

Lemma weightedFrom_fewer_weights_witness :
  ([10; 20; 30] <> [] /\
   (length [quarter; half] <= length [10; 20; 30])%nat /\
   size [10; 20; 30] <= max_size) /\
  ((exists x : Z,
      0 <= fst (discrete_distribution [quarter; half]
                  [Replay.encode Double (to_double half)]) <
        Z.max 1 (Z.of_nat (length [quarter; half])) /\
      nth_error [10; 20; 30]
        (Z.to_nat (fst (discrete_distribution [quarter; half]
                          [Replay.encode Double (to_double half)]))) = Some x /\
      In x (firstn (Nat.max 1 (length [quarter; half])) [10; 20; 30]) /\
      weightedFrom FatalAssertions [quarter; half] [10; 20; 30]
        [Replay.encode Double (to_double half)] [] =
        Returned (x, snd (discrete_distribution [quarter; half]
                            [Replay.encode Double (to_double half)]), [])) /\
   ((length [quarter; half] < 2)%nat ->
    forall (first : Z) (rest : list Z), [10; 20; 30] = first :: rest ->
      weightedFrom FatalAssertions [quarter; half] [10; 20; 30]
        [Replay.encode Double (to_double half)] [] =
        Returned (first, [Replay.encode Double (to_double half)], []))) /\
  weightedFrom FatalAssertions [quarter; half] [10; 20; 30]
    [Replay.encode Double (to_double half)] [] = Returned (20, [], []) /\
  weightedFrom FatalAssertions [] [10; 20; 30] [7] [] = Returned (10, [7], []) /\
  weightedFrom FatalAssertions [half] [10; 20; 30] [7] [] = Returned (10, [7], []).
Proof.
  assert (Hne : [10; 20; 30] <> []) by discriminate.
  assert (Hlen : (length [quarter; half] <= length [10; 20; 30])%nat)
    by (cbn; lia).
  assert (Hsz : size [10; 20; 30] <= max_size) by (vm_compute; discriminate).
  split; [repeat split; assumption|]. split.
  - exact (weightedFrom_fewer_weights Replay.generator_type Z FatalAssertions
             [quarter; half] [10; 20; 30]
             [Replay.encode Double (to_double half)] [] Hne Hlen Hsz).
  - repeat split; vm_compute; reflexivity.
Defined.

(* ================================================================== *)
(** * Calls without a generator argument *)
(* ================================================================== *)

Section DefaultCalls.

Context {G : Type} `{StdRandom G}.

Lemma after_report_app {R S : Type} (l1 l2 : list string)
    (o : outcome (R * S * list string)) :
  after_report l1 (after_report l2 o) = after_report (l1 ++ l2) o.
Proof.
  destruct o as [[[r s] fired] | |]; cbn; trivial.
  now rewrite app_assoc.
Qed.

Lemma reports_ret {S A : Type} (a : A) : reports (@ret S A a).
Proof. intros s fired. cbn. now rewrite app_nil_r. Qed.

Lemma reports_draw {A : Type} (dis : G -> A * G) : reports (draw dis).
Proof.
  intros g fired. unfold draw. destruct (dis g). cbn. now rewrite app_nil_r.
Qed.

Lemma reports_defined {S A : Type} (o : option A) : reports (@defined S A o).
Proof.
  intros s fired. unfold defined. destruct o; cbn; trivial.
  now rewrite app_nil_r.
Qed.

Lemma reports_ally_assert {S : Type} (build : Build) (condition : bool)
    (text : string) : reports (@ally_assert S build condition text).
Proof.
  intros s fired. unfold ally_assert.
  destruct condition; [cbn; now rewrite app_nil_r|].
  destruct build; reflexivity.
Qed.

Lemma reports_bind {S A B : Type} (m : M S A) (k : A -> M S B) :
  reports m -> (forall a, reports (k a)) -> reports (bind m k).
Proof.
  intros Hm Hk s fired. unfold bind.
  rewrite (Hm s fired).
  destruct (m s []) as [[[a s'] f0] | message |]; cbn; trivial.
  rewrite (Hk a s' (fired ++ f0)), (Hk a s' f0).
  now rewrite after_report_app.
Qed.

Lemma reports_perform {A : Type} (build : Build) (op : Operation A) :
  reports (perform build op).
Proof.
  destruct op; cbn [perform]; unfold uniformFrom, weightedFrom;
    repeat first
      [ apply reports_bind | apply reports_draw | apply reports_ret
      | apply reports_defined | apply reports_ally_assert | intro ].
Qed.

End DefaultCalls.

(** X13.  Two calls through the fast provider, neither with a generator
    argument, draw one after the other from the same static generator: they
    come to one call of the two bodies in sequence. *)
Theorem fast_default_calls_share_generator :
  forall (G : Type) `{StdRandom G} (A B : Type) (build : Build)
         (first : M G A) (second : A -> M G B) (p : Process G)
         (fired : list string),
    bind (call FastRandomTraits build first)
         (fun a => call FastRandomTraits build (second a))
         (Defaulted, p) fired =
    call FastRandomTraits build (bind first second) (Defaulted, p) fired.
Proof.
  intros G R A B build first second p fired.
  unfold bind, call. cbn [fst snd generator FastRandomTraits].
  unfold FastRandomTraits_generator, static_generator, s_device.
  destruct (s_fastGenerator p) as [g|] eqn:Ep.
  - destruct (first g fired) as [[[a g1] f1] | message |]; reflexivity.
  - destruct (first _ fired) as [[[a g1] f1] | message |]; reflexivity.
Qed.

(** X14.  An operation of [ServerRandom] called without a generator argument
    never returns when assertions are fatal.  When they are not, the failure
    of the provider is reported before anything the operation reports, the
    operation runs on the provider's static generator, and that generator is
    left in the state the operation brought it to. *)
Theorem server_default_call :
  forall (G : Type) `{StdRandom G} (A : Type) (op : Operation A)
         (p : Process G),
    run ServerRandomTraits FatalAssertions op Defaulted p =
      Terminated "user server seed please!" /\
    exists (g : G) (p' : Process G),
      ServerRandomTraits_generator NonFatalAssertions p [] =
        Returned (g, p', ["user server seed please!"%string]) /\
      run ServerRandomTraits NonFatalAssertions op Defaulted p =
        match perform NonFatalAssertions op g [] with
        | Returned (o, g', failures) =>
            Returned (o, (Defaulted, with_generator p' g'),
                      "user server seed please!"%string :: failures)
        | Terminated message => Terminated message
        | Undefined => Undefined
        end.
Proof.
  intros G R A op p. split; [reflexivity|].
  assert (Hs : exists g p',
             forall fired, static_generator p fired = Returned (g, p', fired)).
  { unfold static_generator.
    destruct (s_fastGenerator p); [|destruct (s_device p)];
      eexists; eexists; intros fired; reflexivity. }
  destruct Hs as [g [p' Hs]]. exists g, p'. split.
  - unfold ServerRandomTraits_generator, bind, ally_assert. cbn [app].
    apply Hs.
  - unfold run, call. cbn [fst snd generator ServerRandomTraits].
    unfold ServerRandomTraits_generator, bind, ally_assert. cbn [app].
    rewrite Hs.
    rewrite (reports_perform NonFatalAssertions op g
               ["user server seed please!"%string]).
    destruct (perform NonFatalAssertions op g []) as [[[o g'] f1] | message |];
      reflexivity.
Qed.

(* ================================================================== *)
(** * The ends of the ranges *)
(* ================================================================== *)

Lemma nextafter_zero_max (T : FloatType) :
  nextafter T fzero (numeric_limits_max T) = denorm_min T.
Proof. destruct T; reflexivity. Qed.

Lemma nextafter_max_max (T : FloatType) :
  nextafter T (numeric_limits_max T) (numeric_limits_max T) =
    numeric_limits_max T.
Proof. destruct T; reflexivity. Qed.

Lemma nextafter_infinity_max (T : FloatType) :
  nextafter T (S754_infinity false) (numeric_limits_max T) =
    numeric_limits_max T.
Proof. destruct T; reflexivity. Qed.

(** X15.  [uniformf<T>(to)] at the ends of its range.  With [to = 0] the bound
    handed to the distribution is the smallest positive value of [T]; the
    result is 0 or that value, and it is that value, above [to], where the
    canonical draw is the last value below 1.  With [to] the largest finite
    value of [T], or infinity, the bound is that largest value, and the result
    stays below it. *)
Theorem uniformf_to_at_the_ends :
  forall (G : Type) `{StdConforming G} `{!StdSupport G} (T : FloatType),
    nextafter T fzero (numeric_limits_max T) = denorm_min T /\
    (forall g : G,
       (fst (uniformf_to T fzero g) = fzero \/
        fst (uniformf_to T fzero g) = denorm_min T) /\
       (fst (generate_canonical T g) = nextafter T (fone T) fzero ->
        fst (uniformf_to T fzero g) = denorm_min T) /\
       flt (fst (uniformf_to T (numeric_limits_max T) g))
           (numeric_limits_max T) = true /\
       flt (fst (uniformf_to T (S754_infinity false) g))
           (numeric_limits_max T) = true) /\
    (exists g : G,
       fst (uniformf_to T fzero g) = denorm_min T /\
       flt fzero (fst (uniformf_to T fzero g)) = true).
Proof.
  intros G R C S T.
  assert (Hdraw : forall g : G,
            fst (uniformf_to T fzero g) =
              scale T fzero (denorm_min T) (fst (generate_canonical T g))).
  { intros g. unfold uniformf_to.
    now rewrite real_draw, nextafter_zero_max. }
  assert (Hlargest : forall g : G,
            fst (generate_canonical T g) = nextafter T (fone T) fzero ->
            fst (uniformf_to T fzero g) = denorm_min T).
  { intros g Hg. rewrite Hdraw, Hg.
    now destruct (scale_zero_smallest T g). }
  split; [apply nextafter_zero_max|]. split.
  - intros g. split; [|split; [|split]].
    + rewrite Hdraw. now destruct (scale_zero_smallest T g).
    + apply Hlargest.
    + unfold uniformf_to. rewrite nextafter_max_max, real_draw. cbn [fst].
      apply scale_zero_max.
    + unfold uniformf_to. rewrite nextafter_infinity_max, real_draw. cbn [fst].
      apply scale_zero_max.
  - destruct (canonical_largest T) as [g Hg]. exists g.
    rewrite (Hlargest g Hg). split; reflexivity.
Qed.

Lemma uniformf_to_at_the_ends_witness :
  (nextafter Double fzero (numeric_limits_max Double) = denorm_min Double /\
   (forall g : Replay.generator_type,
      (fst (uniformf_to Double fzero g) = fzero \/
       fst (uniformf_to Double fzero g) = denorm_min Double) /\
      (fst (generate_canonical Double g) = nextafter Double (fone Double) fzero ->
       fst (uniformf_to Double fzero g) = denorm_min Double) /\
      flt (fst (uniformf_to Double (numeric_limits_max Double) g))
          (numeric_limits_max Double) = true /\
      flt (fst (uniformf_to Double (S754_infinity false) g))
          (numeric_limits_max Double) = true) /\
   (exists g : Replay.generator_type,
      fst (uniformf_to Double fzero g) = denorm_min Double /\
      flt fzero (fst (uniformf_to Double fzero g)) = true)) /\
  uniformf_to Double fzero [0] = (fzero, []) /\
  uniformf_to Double fzero
    [Replay.encode Double (nextafter Double (fone Double) fzero)] =
    (denorm_min Double, []) /\
  @uniformf_to _ (Canonical.std_random 64) Double fzero [2 ^ 64 - 1] =
    (denorm_min Double, []).
Proof.
  split.
  - exact (uniformf_to_at_the_ends Replay.generator_type Double).
  - repeat split; vm_compute; reflexivity.
Defined.

(** X16.  [shuffle] on the smallest ranges and on membership: an empty range
    and a range of one element are left as they are, and an element is in the
    shuffled range exactly when it was in the range. *)
Theorem shuffle_small_ranges :
  forall (G : Type) `{StdConforming G} (A : Type) (l : list A) (x : A) (g : G),
    fst (shuffle (@nil A) g) = [] /\
    fst (shuffle [x] g) = [x] /\
    (In x l <-> In x (fst (shuffle l g))).
Proof.
  intros G R C A l x g. unfold shuffle. split; [|split].
  - apply Permutation_nil, shuffle_permutation.
  - apply Permutation_length_1_inv, shuffle_permutation.
  - pose proof (shuffle_permutation A l g) as Hp. split.
    + now apply Permutation_in.
    + apply Permutation_in. now apply Permutation_sym.
Qed.

Lemma shuffle_small_ranges_witness :
  fst (shuffle (@nil Z) [9]) = [] /\
  fst (shuffle [4] [9]) = [4] /\
  (In 4 [1; 4; 6] <-> In 4 (fst (shuffle [1; 4; 6] [9]))).
Proof.
  exact (shuffle_small_ranges Replay.generator_type Z [1; 4; 6] 4 [9]).
Defined.

(* ================================================================== *)
(** * triangularf with the mode at a limit *)
(* ================================================================== *)

(** [x - x] is [+0], or NaN when [x] is not finite. *)
Lemma fsub_self (T : FloatType) (x : spec_float) :
  fsub T x x = S754_zero false \/ fsub T x x = S754_nan.
Proof.
  destruct x as [s | s | | s m e]; cbn.
  - left. now destruct s.
  - right. now destruct s.
  - now right.
  - left. rewrite Z.min_id, Z.sub_diag. reflexivity.
Qed.

Lemma fdiv_zero_or_nan (T : FloatType) (x y : spec_float) :
  x = S754_zero false \/ x = S754_nan ->
  (exists s, fdiv T x y = S754_zero s) \/ fdiv T x y = S754_nan.
Proof.
  intros [-> | ->]; [|now right].
  destruct y as [s | s | | s m e]; cbn; eauto.
Qed.

(** Nothing that is at least 0 is below a zero, or below NaN. *)
Lemma flt_zero_or_nan (u f : spec_float) :
  fle fzero u = true ->
  (exists s, f = S754_zero s) \/ f = S754_nan -> flt u f = false.
Proof.
  intros Hu [[s ->] | ->].
  - destruct u as [su | su | | su m e]; try reflexivity;
      destruct su; try reflexivity; discriminate.
  - destruct u; reflexivity.
Qed.

Section Quotient.

Variables prec emax : Z.
Hypothesis Hprec : 1 < prec.
Hypothesis Hemax : 2 < emax.

(** A finite value that is not zero, divided by itself, is 1. *)
Lemma SFdiv_self (s : bool) (m : positive) (e : Z) :
  SFdiv prec emax (S754_finite s m e) (S754_finite s m e) = SFone prec emax.
Proof.
  rewrite (SFone_eq prec emax Hprec Hemax).
  cbn [SFdiv]. unfold SFdiv_core_binary. cbn [Zdigits2].
  replace (Z.pos (digits2_pos m) + e - (Z.pos (digits2_pos m) + e))
    with 0 by lia.
  rewrite Z.sub_diag.
  assert (Hf : fexp prec emax 0 = - prec) by (unfold fexp, emin; lia).
  rewrite Hf. replace (Z.min (- prec) 0) with (- prec) by lia.
  replace (0 - - prec) with prec by lia.
  destruct prec as [|p|p] eqn:Ep; try lia.
  rewrite Z.shiftl_mul_pow2 by lia.
  destruct (Z.div_eucl (Z.pos m * 2 ^ Z.pos p) (Z.pos m)) as [q r] eqn:Ed.
  assert (Hq : q = 2 ^ Z.pos p).
  { change q with (fst (q, r)). rewrite <- Ed.
    change (fst (Z.div_eucl (Z.pos m * 2 ^ Z.pos p) (Z.pos m)))
      with ((Z.pos m * 2 ^ Z.pos p) / Z.pos m).
    rewrite Z.mul_comm. apply Z.div_mul. lia. }
  assert (Hr : r = 0).
  { change r with (snd (q, r)). rewrite <- Ed.
    change (snd (Z.div_eucl (Z.pos m * 2 ^ Z.pos p) (Z.pos m)))
      with ((Z.pos m * 2 ^ Z.pos p) mod Z.pos m).
    rewrite Z.mul_comm. apply Z.mod_mul. lia. }
  subst q r.
  assert (Hloc : new_location (Z.pos m) 0 = loc_Exact).
  { unfold new_location, new_location_even, new_location_odd.
    destruct (Z.even (Z.pos m)); reflexivity. }
  rewrite Hloc, xorb_nilpotent.
  rewrite <- (pow2_spec (Z.pos p)) by lia.
  rewrite <- Ep in *.
  rewrite (binary_round_aux_exact prec emax false (pow2 (prec - 1))
             (pow2 prec) (- prec) 1).
  - replace (- prec + 1) with (1 - prec) by lia.
    destruct (Z.leb_spec (1 - prec) (emax - prec)); [reflexivity | lia].
  - lia.
  - rewrite !pow2_spec by lia. rewrite (pow2_double prec) by lia. lia.
  - rewrite digits_pow2 by lia. unfold fexp, emin. lia.
Qed.

End Quotient.

(** X17.  With the mode at the lower limit ([c = a]), [triangularf] never takes
    its first branch: [f] is a zero (or NaN) and the draw is not below it, so
    the result is [b - sqrt((1 - u) * (b - a) * (b - a))]. *)
Theorem triangularf_mode_at_lower_limit :
  forall (G : Type) `{StdConforming G} (T : FloatType) (a b : spec_float)
         (g : G),
    triangularf T a b a g =
      (fsub T b
         (fsqrt T (fmul T (fmul T (fsub T (fone T) (fst (uniformf T g)))
                              (fsub T b a))
                     (fsub T b a))),
       snd (uniformf T g)).
Proof.
  intros G R C T a b g.
  destruct (uniformf_bounds T g) as [_ [Hlo _]].
  unfold triangularf.
  destruct (uniformf T g) as [u g']. cbn [fst snd] in *.
  rewrite (flt_zero_or_nan u _ Hlo); [reflexivity|].
  apply fdiv_zero_or_nan, fsub_self.
Qed.

Lemma triangularf_mode_at_lower_limit_witness :
  triangularf Float fzero (fone Float) fzero [Replay.encode Float three_quarters] =
    (fsub Float (fone Float)
       (fsqrt Float
          (fmul Float
             (fmul Float
                (fsub Float (fone Float)
                   (fst (uniformf Float [Replay.encode Float three_quarters])))
                (fsub Float (fone Float) fzero))
             (fsub Float (fone Float) fzero))),
     snd (uniformf Float [Replay.encode Float three_quarters])) /\
  triangularf Float fzero (fone Float) fzero [Replay.encode Float three_quarters] =
    (half, []).
Proof.
  split.
  - exact (triangularf_mode_at_lower_limit Replay.generator_type Float fzero
             (fone Float) [Replay.encode Float three_quarters]).
  - vm_compute. reflexivity.
Defined.

(** X18.  With the mode at the upper limit ([c = b]) and [b - a] finite and not
    zero, [triangularf] always takes its first branch: [f] is 1 and the draw is
    below it, so the result is [a + sqrt(u * (b - a) * (b - a))]. *)
Theorem triangularf_mode_at_upper_limit :
  forall (G : Type) `{StdConforming G} (T : FloatType) (a b : spec_float)
         (s : bool) (m : positive) (e : Z) (g : G),
    fsub T b a = S754_finite s m e ->
    triangularf T a b b g =
      (fadd T a
         (fsqrt T (fmul T (fmul T (fst (uniformf T g)) (fsub T b a))
                     (fsub T b a))),
       snd (uniformf T g)).
Proof.
  intros G R C T a b s m e g Hd.
  destruct (uniformf_bounds T g) as [_ [_ Hhi]].
  unfold triangularf.
  destruct (uniformf T g) as [u g']. cbn [fst snd] in *.
  assert (Hf : fdiv T (fsub T b a) (fsub T b a) = fone T).
  { rewrite Hd. apply SFdiv_self; [apply prec_gt_1 | apply emax_gt_2]. }
  now rewrite Hf, Hhi.
Qed.

Lemma triangularf_mode_at_upper_limit_witness :
  fsub Float (fone Float) fzero = S754_finite false 8388608 (-23) /\
  triangularf Float fzero (fone Float) (fone Float)
    [Replay.encode Float quarter] =
    (fadd Float fzero
       (fsqrt Float
          (fmul Float
             (fmul Float (fst (uniformf Float [Replay.encode Float quarter]))
                (fsub Float (fone Float) fzero))
             (fsub Float (fone Float) fzero))),
     snd (uniformf Float [Replay.encode Float quarter])) /\
  triangularf Float fzero (fone Float) (fone Float)
    [Replay.encode Float quarter] = (half, []).
Proof.
  split; [reflexivity|]. split.
  - exact (triangularf_mode_at_upper_limit Replay.generator_type Float fzero
             (fone Float) false 8388608 (-23) [Replay.encode Float quarter]
             eq_refl).
  - vm_compute. reflexivity.
Defined.

(* ================================================================== *)
(** * uniformFrom on an empty collection, assertions not fatal *)
(* ================================================================== *)

(** X19.  When assertions are not fatal, [uniformFrom] on an empty collection
    goes on after the failed assertion: [size() - 1] wraps to the largest
    [size_t], the bound of the draw, and whatever offset is drawn the call is
    undefined behaviour (the iterator leaves the range, or stays at [end()]
    and is dereferenced there). *)
Theorem uniformFrom_empty_not_fatal :
  forall (G : Type) `{StdRandom G} (A : Type) (g : G) (fired : list string),
    static_cast size_t (size (@nil A) - 1) = int_max size_t /\
    uniformFrom NonFatalAssertions (@nil A) g fired = Undefined.
Proof.
  intros G R A g fired. split; [reflexivity|].
  unfold uniformFrom. unfold bind at 1. cbn [ally_assert empty negb].
  unfold bind at 1, draw.
  destruct (uniform_to size_t (static_cast size_t (size (@nil A) - 1)) g)
    as [offset g'].
  unfold bind at 1, defined at 1, advance, begin. cbn [Z.add].
  destruct ((0 <=? static_cast ptrdiff_t offset)
            && (static_cast ptrdiff_t offset <=? size (@nil A))) eqn:E;
    [|reflexivity].
  apply andb_true_iff in E. destruct E as [E1 E2].
  apply Z.leb_le in E1. apply Z.leb_le in E2.
  change (size (@nil A)) with 0 in E2.
  assert (E0 : static_cast ptrdiff_t offset = 0) by lia.
  rewrite E0. reflexivity.
Qed.
